(** * SyncPlay client core: manager, playback core and queue core

    A shallow embedding of the SyncPlay coordination code
    (components/syncPlay/syncPlayManager.js, syncPlayPlaybackCore.js,
    syncPlayQueueCore.js, syncPlayHelper.js) as state-passing functions
    over an explicit world, followed by the properties established about it.

    Conventions.
    - A [Date] is its [getTime()] value, an integer number of milliseconds
      ([Z]).  Other JavaScript numbers are exact rationals ([Q]); the
      rounding of binary64 arithmetic is written out where a property
      depends on it ([round64], [speed64]).
    - [null] is [None].
    - [setTimeout] handles, promise continuations and event listeners are
      first-order data ([Callback], [Continuation]) interpreted by
      [runCallback] and [runContinuation].
    - Everything the code sends to a collaborator (the playback manager, the
      api client, the console, the event bus) is recorded in [trace], most
      recent first. *)

From Stdlib Require Import ZArith QArith Qabs Qround Qpower String List Bool.
From Stdlib Require Import Lia Lqa.
From Stdlib Require Import Sorted.
Import ListNotations.

Local Open Scope Z_scope.

(* ------------------------------------------------------------------ *)
(** ** JavaScript values *)

(** syncPlayHelper.js: exported constants. *)
Definition WaitForEventDefaultTimeout : Q := 30000.
Definition WaitForPlayerEventTimeout : Q := 500.
Definition TicksPerMillisecond : Q := 10000.

(** [ToNumber] on a number-or-null: [null] coerces to [0]. *)
Definition toNum (v : option Q) : Q :=
  match v with Some q => q | None => 0%Q end.

Definition ofTicks (v : option Z) : option Q := option_map inject_Z v.

(** [Math.round]: nearest integer, halves towards plus infinity. *)
Definition Math_round (x : Q) : Z := Qfloor (x + (1 # 2)).

Definition Qlt_bool (x y : Q) : bool := negb (Qle_bool y x).

(** Strict equality between a number and a number-or-null. *)
Definition num_strict_eq (x : Q) (v : option Q) : bool :=
  match v with Some q => Qeq_bool x q | None => false end.

Definition option_eqb {A} (eqb : A -> A -> bool) (x y : option A) : bool :=
  match x, y with
  | Some a, Some b => eqb a b
  | None, None => true
  | _, _ => false
  end.

(* ------------------------------------------------------------------ *)
(** ** Data model *)

(** A playback command as sent by the server.  [wire] tells whether [When]
    is still the ISO string of the wire format ([typeof cmd.When ===
    'string']); the instants are kept as milliseconds either way. *)
Record Command := mkCommand {
  wire : bool;
  When : Z;
  EmittedAt : Z;
  PositionTicks : option Z;
  CommandName : string;
  PlaylistItemId : option string
}.

Record GroupInfo := mkGroupInfo {
  GroupId : string;
  LastUpdatedAt : Z;
  Administrators : list string;
  AccessList : list (string * (bool * bool))
}.

(** The text shown by the sync icon ([syncMethod]). *)
Inductive SyncMethod :=
| MethodNone
| MethodSpeedToSync (speed : Q)
| MethodSkipToSync (attempts : nat).

Inductive LogLevel := LDebug | LLog | LWarn | LError.

(** Events awaited through [waitForEventOnce]. *)
Inductive EventName :=
| EvTimeSyncServerUpdate
| EvUnpause
| EvPause
| EvPlaying
| EvPlaybackStart.

Definition EventName_eqb (a b : EventName) : bool :=
  match a, b with
  | EvTimeSyncServerUpdate, EvTimeSyncServerUpdate
  | EvUnpause, EvUnpause
  | EvPause, EvPause
  | EvPlaying, EvPlaying
  | EvPlaybackStart, EvPlaybackStart => true
  | _, _ => false
  end.

(** What the core does to its collaborators.  For the playback manager
    calls, [original] is [true] when the saved method ([_localUnpause],
    ...) is used and [false] when the current one ([unpause], ...) is. *)
Inductive Action :=
| Console (level : LogLevel) (msg : string)
| PmUnpause (original : bool)
| PmPause (original : bool)
| PmSeek (original : bool) (positionTicks : option Q)
| PmStop
| SetPlaybackRate (rate : Q)
| Trigger (event : string)
| RequestSyncPlayBuffering (when : Z) (positionTicks : Q) (isPlaying : bool)
    (playlistItemId : option string) (bufferingDone : bool)
| InjectPlaybackManager
| RestorePlaybackManager
| BindToPlayer
| UnbindFromPlayer
| TimeSyncForceUpdate
| WebRTCEnable
| WebRTCDisable
| Uncaught (msg : string)
| Call_applyCommand (c : Command).

(** A command issued to the underlying player. *)
Definition isPlayerCommand (a : Action) : bool :=
  match a with
  | PmUnpause _ | PmPause _ | PmSeek _ _ | PmStop | SetPlaybackRate _ => true
  | _ => false
  end.

(** Bodies of the functions handed to [setTimeout]. *)
Inductive Callback :=
| CbScheduledUnpause (enableSyncTimeout : Q)
| CbEnableSync
| CbNotifyOsdUnpause
| CbScheduledPause (positionTicks : option Q)
| CbScheduledStop
| CbScheduledSeek (positionTicks : option Q)
| CbSpeedToSyncDone
| CbSkipToSyncDone
| CbNotifyBuffering
| CbRejectWaiter (waiter : nat).

(** Bodies of the [then] / [catch] handlers of awaited events. *)
Inductive Continuation :=
| KReadyFlush
| KSeek (positionTicks : option Q)
| KPauseAndReport
| KReseek (positionTicks : option Q)
| KIgnore.

Record Timer := mkTimer {
  t_id : nat;
  t_due : Q;
  t_callback : Callback
}.

Record Waiter := mkWaiter {
  w_id : nat;
  w_event : EventName;
  w_timer : option nat;
  w_then : Continuation;
  w_catch : Continuation
}.

(** What the core reads from its surroundings: the clock, the time-sync
    conversions, the playback manager, the player wrapper returned by
    [getPlayerWrapper()], the queue core and the settings. *)
Record Env := mkEnv {
  now : Z;
  remoteDateToLocal : Z -> Z;
  localDateToRemote : Z -> Z;
  pm_currentTime : Q;
  pm_IsPaused : bool;
  pm_syncPlayEnabled : bool;
  wrapper_isPlaybackActive : bool;
  wrapper_isRemote : bool;
  hasPlayerWrapper : bool;
  currentPlaylistItemId : option string;
  Math_random : Q;
  enableWebRTC : bool
}.

(** SyncPlayManager fields; [mgr_pmSyncPlayEnabled] is the
    [syncPlayEnabled] flag the manager keeps on its playback manager. *)
Record Manager := mkManager {
  syncMethod : SyncMethod;
  groupInfo : option GroupInfo;
  syncPlayEnabledAt : option Z;
  syncPlayReady : bool;
  queuedCommand : option Command;
  followingGroupPlayback : bool;
  lastPlaybackCommand : option Command;
  mgr_pmSyncPlayEnabled : bool
}.

(** [currentPlayer] together with [playbackRateSupported]: the latter is
    only ever true while a player is set (onPlayerChange). *)
Inductive PlayerSlot :=
| NoPlayer
| Player (rateSupported : bool).

(** SyncPlayPlaybackCore fields. *)
Record PlaybackCore := mkPlaybackCore {
  minDelaySpeedToSync : Q;
  maxDelaySpeedToSync : Q;
  speedToSyncDuration : Q;
  minDelaySkipToSync : Q;
  useSpeedToSync : bool;
  useSkipToSync : bool;
  enableSyncCorrection : bool;
  minBufferingThresholdMillis : Q;
  currentPlayer : PlayerSlot;
  localPlayerPlaybackRate : Q;
  syncEnabled : bool;
  playbackDiffMillis : Q;
  syncAttempts : nat;
  lastSyncTime : Z;
  lastPlaybackWaiting : option Z;
  lastCommand : option Command;
  scheduledCommandTimeout : option nat;
  syncTimeout : option nat;
  notifyBuffering : option nat
}.

Definition playbackRateSupported (p : PlaybackCore) : bool :=
  match currentPlayer p with Player b => b | NoPlayer => false end.

Record World := mkWorld {
  env : Env;
  mgr : Manager;
  core : PlaybackCore;
  timers : list Timer;
  waiters : list Waiter;
  nextId : nat;
  trace : list Action
}.

(* ------------------------------------------------------------------ *)
(** ** Field updates *)

Definition with_mgr (f : Manager -> Manager) (w : World) : World :=
  mkWorld (env w) (f (mgr w)) (core w) (timers w) (waiters w) (nextId w) (trace w).

Definition with_core (f : PlaybackCore -> PlaybackCore) (w : World) : World :=
  mkWorld (env w) (mgr w) (f (core w)) (timers w) (waiters w) (nextId w) (trace w).

Definition with_env (e : Env) (w : World) : World :=
  mkWorld e (mgr w) (core w) (timers w) (waiters w) (nextId w) (trace w).

Definition m_syncMethod v (m : Manager) :=
  mkManager v (groupInfo m) (syncPlayEnabledAt m) (syncPlayReady m)
    (queuedCommand m) (followingGroupPlayback m) (lastPlaybackCommand m)
    (mgr_pmSyncPlayEnabled m).
Definition m_groupInfo v (m : Manager) :=
  mkManager (syncMethod m) v (syncPlayEnabledAt m) (syncPlayReady m)
    (queuedCommand m) (followingGroupPlayback m) (lastPlaybackCommand m)
    (mgr_pmSyncPlayEnabled m).
Definition m_syncPlayEnabledAt v (m : Manager) :=
  mkManager (syncMethod m) (groupInfo m) v (syncPlayReady m)
    (queuedCommand m) (followingGroupPlayback m) (lastPlaybackCommand m)
    (mgr_pmSyncPlayEnabled m).
Definition m_syncPlayReady v (m : Manager) :=
  mkManager (syncMethod m) (groupInfo m) (syncPlayEnabledAt m) v
    (queuedCommand m) (followingGroupPlayback m) (lastPlaybackCommand m)
    (mgr_pmSyncPlayEnabled m).
Definition m_queuedCommand v (m : Manager) :=
  mkManager (syncMethod m) (groupInfo m) (syncPlayEnabledAt m) (syncPlayReady m)
    v (followingGroupPlayback m) (lastPlaybackCommand m)
    (mgr_pmSyncPlayEnabled m).
Definition m_followingGroupPlayback v (m : Manager) :=
  mkManager (syncMethod m) (groupInfo m) (syncPlayEnabledAt m) (syncPlayReady m)
    (queuedCommand m) v (lastPlaybackCommand m)
    (mgr_pmSyncPlayEnabled m).
Definition m_lastPlaybackCommand v (m : Manager) :=
  mkManager (syncMethod m) (groupInfo m) (syncPlayEnabledAt m) (syncPlayReady m)
    (queuedCommand m) (followingGroupPlayback m) v
    (mgr_pmSyncPlayEnabled m).
Definition m_pmSyncPlayEnabled v (m : Manager) :=
  mkManager (syncMethod m) (groupInfo m) (syncPlayEnabledAt m) (syncPlayReady m)
    (queuedCommand m) (followingGroupPlayback m) (lastPlaybackCommand m) v.

Definition c_preferences minSpeed maxSpeed duration minSkip useSpeed useSkip
    correction (p : PlaybackCore) :=
  mkPlaybackCore minSpeed maxSpeed duration minSkip useSpeed useSkip correction
    (minBufferingThresholdMillis p)
    (currentPlayer p) (localPlayerPlaybackRate p) (syncEnabled p)
    (playbackDiffMillis p) (syncAttempts p) (lastSyncTime p)
    (lastPlaybackWaiting p) (lastCommand p)
    (scheduledCommandTimeout p) (syncTimeout p) (notifyBuffering p).
Definition c_currentPlayer v (p : PlaybackCore) :=
  mkPlaybackCore (minDelaySpeedToSync p) (maxDelaySpeedToSync p)
    (speedToSyncDuration p) (minDelaySkipToSync p) (useSpeedToSync p)
    (useSkipToSync p) (enableSyncCorrection p) (minBufferingThresholdMillis p)
    v (localPlayerPlaybackRate p) (syncEnabled p) (playbackDiffMillis p)
    (syncAttempts p) (lastSyncTime p) (lastPlaybackWaiting p) (lastCommand p)
    (scheduledCommandTimeout p) (syncTimeout p) (notifyBuffering p).
Definition c_localPlayerPlaybackRate v (p : PlaybackCore) :=
  mkPlaybackCore (minDelaySpeedToSync p) (maxDelaySpeedToSync p)
    (speedToSyncDuration p) (minDelaySkipToSync p) (useSpeedToSync p)
    (useSkipToSync p) (enableSyncCorrection p) (minBufferingThresholdMillis p)
    (currentPlayer p) v (syncEnabled p) (playbackDiffMillis p)
    (syncAttempts p) (lastSyncTime p) (lastPlaybackWaiting p) (lastCommand p)
    (scheduledCommandTimeout p) (syncTimeout p) (notifyBuffering p).
Definition c_syncEnabled v (p : PlaybackCore) :=
  mkPlaybackCore (minDelaySpeedToSync p) (maxDelaySpeedToSync p)
    (speedToSyncDuration p) (minDelaySkipToSync p) (useSpeedToSync p)
    (useSkipToSync p) (enableSyncCorrection p) (minBufferingThresholdMillis p)
    (currentPlayer p) (localPlayerPlaybackRate p) v (playbackDiffMillis p) (syncAttempts p)
    (lastSyncTime p) (lastPlaybackWaiting p) (lastCommand p)
    (scheduledCommandTimeout p) (syncTimeout p) (notifyBuffering p).
Definition c_playbackDiffMillis v (p : PlaybackCore) :=
  mkPlaybackCore (minDelaySpeedToSync p) (maxDelaySpeedToSync p)
    (speedToSyncDuration p) (minDelaySkipToSync p) (useSpeedToSync p)
    (useSkipToSync p) (enableSyncCorrection p) (minBufferingThresholdMillis p)
    (currentPlayer p) (localPlayerPlaybackRate p) (syncEnabled p) v (syncAttempts p)
    (lastSyncTime p) (lastPlaybackWaiting p) (lastCommand p)
    (scheduledCommandTimeout p) (syncTimeout p) (notifyBuffering p).
Definition c_syncAttempts v (p : PlaybackCore) :=
  mkPlaybackCore (minDelaySpeedToSync p) (maxDelaySpeedToSync p)
    (speedToSyncDuration p) (minDelaySkipToSync p) (useSpeedToSync p)
    (useSkipToSync p) (enableSyncCorrection p) (minBufferingThresholdMillis p)
    (currentPlayer p) (localPlayerPlaybackRate p) (syncEnabled p) (playbackDiffMillis p) v
    (lastSyncTime p) (lastPlaybackWaiting p) (lastCommand p)
    (scheduledCommandTimeout p) (syncTimeout p) (notifyBuffering p).
Definition c_lastSyncTime v (p : PlaybackCore) :=
  mkPlaybackCore (minDelaySpeedToSync p) (maxDelaySpeedToSync p)
    (speedToSyncDuration p) (minDelaySkipToSync p) (useSpeedToSync p)
    (useSkipToSync p) (enableSyncCorrection p) (minBufferingThresholdMillis p)
    (currentPlayer p) (localPlayerPlaybackRate p) (syncEnabled p) (playbackDiffMillis p) (syncAttempts p)
    v (lastPlaybackWaiting p) (lastCommand p)
    (scheduledCommandTimeout p) (syncTimeout p) (notifyBuffering p).
Definition c_lastPlaybackWaiting v (p : PlaybackCore) :=
  mkPlaybackCore (minDelaySpeedToSync p) (maxDelaySpeedToSync p)
    (speedToSyncDuration p) (minDelaySkipToSync p) (useSpeedToSync p)
    (useSkipToSync p) (enableSyncCorrection p) (minBufferingThresholdMillis p)
    (currentPlayer p) (localPlayerPlaybackRate p) (syncEnabled p) (playbackDiffMillis p) (syncAttempts p)
    (lastSyncTime p) v (lastCommand p)
    (scheduledCommandTimeout p) (syncTimeout p) (notifyBuffering p).
Definition c_lastCommand v (p : PlaybackCore) :=
  mkPlaybackCore (minDelaySpeedToSync p) (maxDelaySpeedToSync p)
    (speedToSyncDuration p) (minDelaySkipToSync p) (useSpeedToSync p)
    (useSkipToSync p) (enableSyncCorrection p) (minBufferingThresholdMillis p)
    (currentPlayer p) (localPlayerPlaybackRate p) (syncEnabled p) (playbackDiffMillis p) (syncAttempts p)
    (lastSyncTime p) (lastPlaybackWaiting p) v
    (scheduledCommandTimeout p) (syncTimeout p) (notifyBuffering p).
Definition c_scheduledCommandTimeout v (p : PlaybackCore) :=
  mkPlaybackCore (minDelaySpeedToSync p) (maxDelaySpeedToSync p)
    (speedToSyncDuration p) (minDelaySkipToSync p) (useSpeedToSync p)
    (useSkipToSync p) (enableSyncCorrection p) (minBufferingThresholdMillis p)
    (currentPlayer p) (localPlayerPlaybackRate p) (syncEnabled p) (playbackDiffMillis p) (syncAttempts p)
    (lastSyncTime p) (lastPlaybackWaiting p) (lastCommand p)
    v (syncTimeout p) (notifyBuffering p).
Definition c_syncTimeout v (p : PlaybackCore) :=
  mkPlaybackCore (minDelaySpeedToSync p) (maxDelaySpeedToSync p)
    (speedToSyncDuration p) (minDelaySkipToSync p) (useSpeedToSync p)
    (useSkipToSync p) (enableSyncCorrection p) (minBufferingThresholdMillis p)
    (currentPlayer p) (localPlayerPlaybackRate p) (syncEnabled p) (playbackDiffMillis p) (syncAttempts p)
    (lastSyncTime p) (lastPlaybackWaiting p) (lastCommand p)
    (scheduledCommandTimeout p) v (notifyBuffering p).
Definition c_notifyBuffering v (p : PlaybackCore) :=
  mkPlaybackCore (minDelaySpeedToSync p) (maxDelaySpeedToSync p)
    (speedToSyncDuration p) (minDelaySkipToSync p) (useSpeedToSync p)
    (useSkipToSync p) (enableSyncCorrection p) (minBufferingThresholdMillis p)
    (currentPlayer p) (localPlayerPlaybackRate p) (syncEnabled p) (playbackDiffMillis p) (syncAttempts p)
    (lastSyncTime p) (lastPlaybackWaiting p) (lastCommand p)
    (scheduledCommandTimeout p) (syncTimeout p) v.

(* ------------------------------------------------------------------ *)
(** ** Runtime: trace, timers, awaited events *)

Definition emit (a : Action) (w : World) : World :=
  mkWorld (env w) (mgr w) (core w) (timers w) (waiters w) (nextId w)
    (a :: trace w).

(** [setTimeout(cb, delay)]: a fresh positive handle. *)
Definition setTimeout (cb : Callback) (delay : Q) (w : World) : nat * World :=
  let id := nextId w in
  (id,
   mkWorld (env w) (mgr w) (core w)
     (timers w ++ [mkTimer id (inject_Z (now (env w)) + delay)%Q cb])
     (waiters w) (S id) (trace w)).

(** [clearTimeout(handle)]; a null, undefined or stale handle is ignored. *)
Definition clearTimeout (h : option nat) (w : World) : World :=
  match h with
  | None => w
  | Some id =>
      mkWorld (env w) (mgr w) (core w)
        (filter (fun t => negb (Nat.eqb (t_id t) id)) (timers w))
        (waiters w) (nextId w) (trace w)
  end.

(** syncPlayHelper.js [waitForEventOnce(emitter, eventType, timeout)]
    followed by [.then(k).catch(kc)].  The reject timer is armed only for
    a truthy [timeout]. *)
Definition waitForEventOnce (ev : EventName) (timeout : option Q)
    (k kc : Continuation) (w : World) : World :=
  let wid := nextId w in
  let w := mkWorld (env w) (mgr w) (core w) (timers w) (waiters w) (S wid)
             (trace w) in
  let armed :=
    match timeout with
    | Some t => if Qeq_bool t 0 then None else Some t
    | None => None
    end in
  match armed with
  | Some t =>
      let '(tid, w) := setTimeout (CbRejectWaiter wid) t w in
      mkWorld (env w) (mgr w) (core w) (timers w)
        (waiters w ++ [mkWaiter wid ev (Some tid) k kc]) (nextId w) (trace w)
  | None =>
      mkWorld (env w) (mgr w) (core w) (timers w)
        (waiters w ++ [mkWaiter wid ev None k kc]) (nextId w) (trace w)
  end.

(* ------------------------------------------------------------------ *)
(** ** SyncPlayManager: queries used by the playback core *)

Definition isSyncPlayEnabled (w : World) : bool :=
  match syncPlayEnabledAt (mgr w) with Some _ => true | None => false end.

Definition isPlaybackActive (w : World) : bool :=
  wrapper_isPlaybackActive (env w).

Definition isRemote (w : World) : bool := wrapper_isRemote (env w).

Definition showSyncIcon (m : SyncMethod) (w : World) : World :=
  emit (Trigger "syncing") (with_mgr (m_syncMethod m) w).

Definition clearSyncIcon (w : World) : World :=
  emit (Trigger "syncing") (with_mgr (m_syncMethod MethodNone) w).

(* ------------------------------------------------------------------ *)
(** ** SyncPlayPlaybackCore *)

(** [localUnpause], [localPause], [localSeek], [localStop]: ignored when
    no player is active, otherwise forwarded to the playback manager. *)
Definition localUnpause (w : World) : World :=
  if negb (isPlaybackActive w) then
    emit (Console LDebug "SyncPlay localUnpause: no active player!") w
  else emit (PmUnpause (pm_syncPlayEnabled (env w))) w.

Definition localPause (w : World) : World :=
  if negb (isPlaybackActive w) then
    emit (Console LDebug "SyncPlay localPause: no active player!") w
  else emit (PmPause (pm_syncPlayEnabled (env w))) w.

Definition localSeek (positionTicks : option Q) (w : World) : World :=
  if negb (isPlaybackActive w) then
    emit (Console LDebug "SyncPlay localSeek: no active player!") w
  else emit (PmSeek (pm_syncPlayEnabled (env w)) positionTicks) w.

Definition localStop (w : World) : World :=
  if negb (isPlaybackActive w) then
    emit (Console LDebug "SyncPlay localStop: no active player!") w
  else emit PmStop w.

(** [isBuffering()]. *)
Definition isBuffering (w : World) : bool :=
  match lastPlaybackWaiting (core w) with
  | None => false
  | Some t =>
      Qlt_bool (minBufferingThresholdMillis (core w))
        (inject_Z (now (env w) - t))
  end.

(** [sendBufferingRequest(isBuffering = true)]. *)
Definition sendBufferingRequest (isBuffering : bool) (w : World) : World :=
  let now' := localDateToRemote (env w) (now (env w)) in
  let currentPositionTicks :=
    (inject_Z (Math_round (pm_currentTime (env w))) * TicksPerMillisecond)%Q in
  emit (RequestSyncPlayBuffering now' currentPositionTicks
          (negb (pm_IsPaused (env w))) (currentPlaylistItemId (env w))
          (negb isBuffering)) w.

(** [estimateCurrentTicks(ticks, when)]. *)
Definition estimateCurrentTicks (ticks : option Q) (when : Z) (w : World) : Q :=
  let remoteTime := localDateToRemote (env w) (now (env w)) in
  (toNum ticks + inject_Z (remoteTime - when) * TicksPerMillisecond)%Q.

(** [clearScheduledCommand()].  The two handle fields keep their (now
    stale) values. *)
Definition clearScheduledCommand (w : World) : World :=
  let w := clearTimeout (scheduledCommandTimeout (core w)) w in
  let w := clearTimeout (syncTimeout (core w)) w in
  let w := with_core (c_syncEnabled false) w in
  let w := if playbackRateSupported (core w)
           then emit (SetPlaybackRate 1) w else w in
  clearSyncIcon w.

(** [scheduleUnpause(playAtTime, positionTicks)]. *)
Definition scheduleUnpause (playAtTime : Z) (positionTicks : option Q)
    (w : World) : World :=
  let w := clearScheduledCommand w in
  let enableSyncTimeout := (maxDelaySpeedToSync (core w) / 2)%Q in
  let currentTime := now (env w) in
  let playAtTimeLocal := remoteDateToLocal (env w) playAtTime in
  let currentPositionTicks :=
    (pm_currentTime (env w) * TicksPerMillisecond)%Q in
  if currentTime <? playAtTimeLocal then
    let playTimeout := playAtTimeLocal - currentTime in
    let w :=
      if Qlt_bool (minDelaySkipToSync (core w) * TicksPerMillisecond)
           (currentPositionTicks - toNum positionTicks)
      then localSeek positionTicks w else w in
    let '(id, w) :=
      setTimeout (CbScheduledUnpause enableSyncTimeout) (inject_Z playTimeout) w in
    let w := with_core (c_scheduledCommandTimeout (Some id)) w in
    emit (Console LDebug "Scheduled unpause") w
  else
    let serverPositionTicks := estimateCurrentTicks positionTicks playAtTime w in
    let w := waitForEventOnce EvUnpause None
               (KSeek (Some serverPositionTicks)) KIgnore w in
    let w := localUnpause w in
    let '(_, w) := setTimeout CbNotifyOsdUnpause 100 w in
    let '(id, w) := setTimeout CbEnableSync enableSyncTimeout w in
    let w := with_core (c_syncTimeout (Some id)) w in
    emit (Console LDebug "SyncPlay scheduleUnpause: unpause now") w.

(** The [callback] closure of [schedulePause]. *)
Definition pauseCallback (positionTicks : option Q) (w : World) : World :=
  let w := waitForEventOnce EvPause (Some WaitForPlayerEventTimeout)
             (KSeek positionTicks) (KSeek positionTicks) w in
  localPause w.

(** [schedulePause(pauseAtTime, positionTicks)]. *)
Definition schedulePause (pauseAtTime : Z) (positionTicks : option Q)
    (w : World) : World :=
  let w := clearScheduledCommand w in
  let currentTime := now (env w) in
  let pauseAtTimeLocal := remoteDateToLocal (env w) pauseAtTime in
  if currentTime <? pauseAtTimeLocal then
    let pauseTimeout := pauseAtTimeLocal - currentTime in
    let '(id, w) :=
      setTimeout (CbScheduledPause positionTicks) (inject_Z pauseTimeout) w in
    let w := with_core (c_scheduledCommandTimeout (Some id)) w in
    emit (Console LDebug "Scheduled pause") w
  else
    let w := pauseCallback positionTicks w in
    emit (Console LDebug "SyncPlay schedulePause: now.") w.

(** The [callback] closure of [scheduleStop]. *)
Definition stopCallback (w : World) : World := localStop w.

(** [scheduleStop(stopAtTime)]. *)
Definition scheduleStop (stopAtTime : Z) (w : World) : World :=
  let w := clearScheduledCommand w in
  let currentTime := now (env w) in
  let stopAtTimeLocal := remoteDateToLocal (env w) stopAtTime in
  if currentTime <? stopAtTimeLocal then
    let stopTimeout := stopAtTimeLocal - currentTime in
    let '(id, w) := setTimeout CbScheduledStop (inject_Z stopTimeout) w in
    let w := with_core (c_scheduledCommandTimeout (Some id)) w in
    emit (Console LDebug "Scheduled stop") w
  else
    let w := stopCallback w in
    emit (Console LDebug "SyncPlay scheduleStop: now.") w.

(** The [callback] closure of [scheduleSeek]. *)
Definition seekCallback (positionTicks : option Q) (w : World) : World :=
  let w := localUnpause w in
  let w := localSeek positionTicks w in
  waitForEventOnce EvPlaying (Some WaitForEventDefaultTimeout)
    KPauseAndReport (KReseek positionTicks) w.

(** [scheduleSeek(seekAtTime, positionTicks)]. *)
Definition scheduleSeek (seekAtTime : Z) (positionTicks : option Q)
    (w : World) : World :=
  let w := clearScheduledCommand w in
  let currentTime := now (env w) in
  let seekAtTimeLocal := remoteDateToLocal (env w) seekAtTime in
  if currentTime <? seekAtTimeLocal then
    let seekTimeout := seekAtTimeLocal - currentTime in
    let '(id, w) :=
      setTimeout (CbScheduledSeek positionTicks) (inject_Z seekTimeout) w in
    let w := with_core (c_scheduledCommandTimeout (Some id)) w in
    emit (Console LDebug "Scheduled seek") w
  else
    let w := seekCallback positionTicks w in
    emit (Console LDebug "SyncPlay scheduleSeek: now.") w.

(** The duplicate test at the head of [applyCommand]. *)
Definition isDuplicate (last : option Command) (command : Command) : bool :=
  match last with
  | None => false
  | Some l =>
      (When l =? When command)
      && option_eqb Z.eqb (PositionTicks l) (PositionTicks command)
      && String.eqb (CommandName l) (CommandName command)
      && option_eqb String.eqb (PlaylistItemId l) (PlaylistItemId command)
  end.

(** The dispatch on [command.Command] shared by both switches. *)
Inductive Kind := KUnpause | KPause | KStop | KSeekCmd | KOther.

Definition kindOf (name : string) : Kind :=
  if String.eqb name "Unpause" then KUnpause
  else if String.eqb name "Pause" then KPause
  else if String.eqb name "Stop" then KStop
  else if String.eqb name "Seek" then KSeekCmd
  else KOther.

(** [applyCommand(command)]. *)
Definition applyCommand (command : Command) (w : World) : World :=
  if isDuplicate (lastCommand (core w)) command then
    let w := emit (Console LDebug
                     "SyncPlay applyCommand: duplicate command received!") w in
    let currentTime := now (env w) in
    let whenLocal := remoteDateToLocal (env w) (When command) in
    if currentTime <? whenLocal then
      emit (Console LDebug "SyncPlay applyCommand: command already scheduled.") w
    else
      let currentPositionTicks :=
        (pm_currentTime (env w) * TicksPerMillisecond)%Q in
      let isPlaying := negb (pm_IsPaused (env w)) in
      let positionTicks := ofTicks (PositionTicks command) in
      match kindOf (CommandName command) with
      | KUnpause =>
          if negb isPlaying
          then scheduleUnpause (When command) positionTicks w else w
      | KPause =>
          if isPlaying || negb (num_strict_eq currentPositionTicks positionTicks)
          then schedulePause (When command) positionTicks w else w
      | KStop =>
          if isPlaying then scheduleStop (When command) w else w
      | KSeekCmd =>
          if isPlaying || negb (num_strict_eq currentPositionTicks positionTicks)
          then
            let rangeWidth := 100%Q in
            let randomOffsetTicks :=
              (inject_Z (Math_round ((Math_random (env w) - (1 # 2)) * rangeWidth))
               * TicksPerMillisecond)%Q in
            let w := scheduleSeek (When command)
                       (Some (toNum positionTicks + randomOffsetTicks)%Q) w in
            emit (Console LDebug
                    "SyncPlay applyCommand: adding random offset to force seek:") w
          else sendBufferingRequest false w
      | KOther =>
          emit (Console LError
                  "SyncPlay applyCommand: command is not recognised:") w
      end
  else
    let w := with_core (c_lastCommand (Some command)) w in
    if isRemote w then w
    else
      let positionTicks := ofTicks (PositionTicks command) in
      match kindOf (CommandName command) with
      | KUnpause => scheduleUnpause (When command) positionTicks w
      | KPause => schedulePause (When command) positionTicks w
      | KStop => scheduleStop (When command) w
      | KSeekCmd => scheduleSeek (When command) positionTicks w
      | KOther =>
          emit (Console LError
                  "SyncPlay applyCommand: command is not recognised:") w
      end.

(** The two local constants of the SpeedToSync branch: the (possibly
    expanded) [speedToSyncTime] and [speed], over exact rationals like the
    other numbers of the model.  What binary64 rounding makes of them is
    [speedToSyncTime64] and [speed64] below. *)
Definition MinSpeed : Q := 1 # 10.

Definition speedToSyncTimeFor (speedToSyncTime diffMillis : Q) : Q :=
  if Qle_bool diffMillis (- speedToSyncTime * MinSpeed)
  then (Qabs diffMillis / (1 - MinSpeed))%Q
  else speedToSyncTime.

Definition speedFor (speedToSyncTime diffMillis : Q) : Q :=
  (1 + diffMillis / speedToSyncTimeFor speedToSyncTime diffMillis)%Q.

(* ------------------------------------------------------------------ *)
(** ** Binary64 arithmetic of the SpeedToSync rate

    JavaScript numbers are IEEE 754 binary64 values and every arithmetic
    operation rounds its exact result to the nearest one, ties to the even
    significand.  A finite binary64 value is a rational [m * 2^e] with
    [|m| < 2^53] and [-1074 <= e]; results of magnitude [2^1024] or more,
    which binary64 turns into an infinity, are outside this model. *)

(** [floor (log2 x)] for a positive [x]. *)
Definition ilog2 (x : Q) : Z :=
  let k := Z.log2 (Qnum x) - Z.log2 (Zpos (Qden x)) in
  if Qle_bool (2 ^ k) x then k else k - 1.

(** Nearest integer, ties to even. *)
Definition roundHalfEven (q : Q) : Z :=
  let f := Qfloor q in
  match (q - inject_Z f ?= 1 # 2)%Q with
  | Lt => f
  | Gt => f + 1
  | Eq => if Z.even f then f else f + 1
  end.

(** The exponent of the last place of the binary64 value nearest to [x]:
    53 significant bits, and no finer than [2^-1074] (subnormals). *)
Definition ulpExponent (x : Q) : Z := Z.max (ilog2 (Qabs x) - 52) (-1074).

Definition round64 (x : Q) : Q :=
  let e := ulpExponent x in
  (inject_Z (roundHalfEven (x / 2 ^ e)) * 2 ^ e)%Q.

(** [x + y], [x - y], [x * y], [x / y] on binary64 values ([y] not zero
    for the division); negation and [Math.abs] are exact. *)
Definition add64 (x y : Q) : Q := round64 (x + y).
Definition sub64 (x y : Q) : Q := round64 (x - y).
Definition mul64 (x y : Q) : Q := round64 (x * y).
Definition div64 (x y : Q) : Q := round64 (x / y).

(** The literal [0.1] of [const MinSpeed = 0.1]. *)
Definition MinSpeed64 : Q := round64 (1 # 10).

(** The local [speedToSyncTime] and [speed] of the SpeedToSync branch of
    [syncPlaybackTime] as binary64 computes them, for binary64 values
    [speedToSyncTime] and [diffMillis]. *)
Definition speedToSyncTime64 (speedToSyncTime diffMillis : Q) : Q :=
  if Qle_bool diffMillis (mul64 (- speedToSyncTime) MinSpeed64)
  then div64 (Qabs diffMillis) (sub64 1 MinSpeed64)
  else speedToSyncTime.

Definition speed64 (speedToSyncTime diffMillis : Q) : Q :=
  add64 1 (div64 diffMillis (speedToSyncTime64 speedToSyncTime diffMillis)).

(** [2^-53], half the distance between [1] and the next binary64 value,
    and the smallest normal binary64 value, [2^-1022]. *)
Definition u53 : Q := 1 # 9007199254740992.
Definition minNormal64 : Q := Eval vm_compute in (2 ^ (-1022))%Q.

(** Magnitudes for which no operation of the SpeedToSync branch overflows
    or leaves the normal range: from [2^-500] to [2^500]. *)
Definition rangeMin64 : Q := Eval vm_compute in (2 ^ (-500))%Q.
Definition rangeMax64 : Q := Eval vm_compute in (2 ^ 500)%Q.

Definition inRange64 (x : Q) : Prop :=
  (rangeMin64 <= Qabs x)%Q /\ (Qabs x <= rangeMax64)%Q.

(* ------------------------------------------------------------------ *)
(** ** Drift correction *)

(** [serverPositionTicks] and [diffMillis] as computed by
    [syncPlaybackTime] for the last command [l]. *)
Definition serverPositionTicksOf (l : Command) (w : World) : Q :=
  estimateCurrentTicks (ofTicks (PositionTicks l)) (When l) w.

Definition diffMillisOf (l : Command) (w : World) : Q :=
  ((serverPositionTicksOf l w - pm_currentTime (env w) * TicksPerMillisecond)
   / TicksPerMillisecond)%Q.

(** [syncPlaybackTime()]. *)
Definition syncPlaybackTime (w : World) : World :=
  let syncMethodThreshold := maxDelaySpeedToSync (core w) in
  let speedToSyncTime := speedToSyncDuration (core w) in
  if negb (isPlaybackActive w) then
    emit (Console LDebug "SyncPlay syncPlaybackTime: no active player!") w
  else
    match lastCommand (core w) with
    | None => w
    | Some lastCommand =>
        if negb (String.eqb (CommandName lastCommand) "Unpause") || isBuffering w
        then w
        else
          let currentTime := now (env w) in
          let elapsed := currentTime - lastSyncTime (core w) in
          if Qlt_bool (inject_Z elapsed) (syncMethodThreshold / 2) then w
          else
            let w := with_core (c_lastSyncTime currentTime) w in
            let serverPositionTicks := serverPositionTicksOf lastCommand w in
            let diffMillis := diffMillisOf lastCommand w in
            let w := with_core (c_playbackDiffMillis diffMillis) w in
            if syncEnabled (core w) && enableSyncCorrection (core w) then
              let absDiffMillis := Qabs diffMillis in
              if playbackRateSupported (core w) && useSpeedToSync (core w)
                 && Qle_bool (minDelaySpeedToSync (core w)) absDiffMillis
                 && Qlt_bool absDiffMillis (maxDelaySpeedToSync (core w))
              then
                let speedToSyncTime := speedToSyncTimeFor speedToSyncTime diffMillis in
                let speed := speedFor (speedToSyncDuration (core w)) diffMillis in
                let w := if Qle_bool speed 0
                         then emit (Console LError
                                "SyncPlay error: speed should not be negative!") w
                         else w in
                let w := emit (SetPlaybackRate speed) w in
                let w := with_core (c_syncEnabled false) w in
                let w := with_core (c_syncAttempts (S (syncAttempts (core w)))) w in
                let w := showSyncIcon (MethodSpeedToSync speed) w in
                let '(id, w) := setTimeout CbSpeedToSyncDone speedToSyncTime w in
                let w := with_core (c_syncTimeout (Some id)) w in
                emit (Console LLog "SyncPlay SpeedToSync") w
              else if useSkipToSync (core w)
                      && Qle_bool (minDelaySkipToSync (core w)) absDiffMillis
              then
                let w := localSeek (Some serverPositionTicks) w in
                let w := with_core (c_syncEnabled false) w in
                let w := with_core (c_syncAttempts (S (syncAttempts (core w)))) w in
                let w := showSyncIcon (MethodSkipToSync (syncAttempts (core w))) w in
                let '(id, w) :=
                  setTimeout CbSkipToSyncDone (syncMethodThreshold / 2) w in
                let w := with_core (c_syncTimeout (Some id)) w in
                emit (Console LLog "SyncPlay SkipToSync") w
              else
                let w := if (0 <? Z.of_nat (syncAttempts (core w)))
                         then emit (Console LDebug "Playback has been synced") w
                         else w in
                with_core (c_syncAttempts 0%nat) w
            else w
    end.

(** [onTimeUpdate], [onPlaying], [onWaiting], [onUnpause], [onPause],
    [onPlaybackStart]: the player wrapper's reports. *)
Definition onTimeUpdate (w : World) : World :=
  emit (Trigger "timeupdate") (syncPlaybackTime w).

Definition onPlaying (w : World) : World :=
  let w := if isBuffering w then sendBufferingRequest false w else w in
  let w := clearTimeout (notifyBuffering (core w)) w in
  let w := with_core (c_lastPlaybackWaiting None) w in
  emit (Trigger "playing") w.

Definition onWaiting (w : World) : World :=
  let w := match lastPlaybackWaiting (core w) with
           | None => with_core (c_lastPlaybackWaiting (Some (now (env w)))) w
           | Some _ => w
           end in
  let w := clearTimeout (notifyBuffering (core w)) w in
  let '(id, w) :=
    setTimeout CbNotifyBuffering (minBufferingThresholdMillis (core w)) w in
  let w := with_core (c_notifyBuffering (Some id)) w in
  emit (Trigger "waiting") w.

Definition onUnpause (w : World) : World := emit (Trigger "unpause") w.
Definition onPause (w : World) : World := emit (Trigger "pause") w.
Definition onPlaybackStart (w : World) : World := emit (Trigger "playbackstart") w.

(** [onPlayerChange(player)]; the new player is described by whether it
    supports 'PlaybackRate' and by its current rate. *)
Definition onPlayerChange (player : option (bool * Q)) (w : World) : World :=
  let w :=
    match currentPlayer (core w) with
    | NoPlayer => w
    | Player supported =>
        let w := if supported then
                   let w := emit (SetPlaybackRate (localPlayerPlaybackRate (core w))) w in
                   with_core (c_localPlayerPlaybackRate 1) w
                 else w in
        with_core (c_currentPlayer NoPlayer) w
    end in
  let w :=
    match player with
    | None => with_core (c_currentPlayer NoPlayer) w
    | Some (supports, rate) =>
        if supports then
          let w := with_core (c_localPlayerPlaybackRate rate) w in
          with_core (c_currentPlayer (Player true)) w
        else with_core (c_currentPlayer (Player false)) w
    end in
  emit (Console LDebug "SyncPlay onPlayerChange: playback rate supported:") w.

(** [loadPreferences()], run when the settings change, with the values
    the settings hold. *)
Definition loadPreferences (minSpeed maxSpeed duration minSkip : Q)
    (useSpeed useSkip correction : bool) (w : World) : World :=
  with_core (c_preferences minSpeed maxSpeed duration minSkip useSpeed useSkip
               correction) w.

(** SyncPlayManager [releaseCurrentPlayer()]: the wrapper is unbound and
    the 'playerchange' event reaches the playback core.  Which wrapper
    [getPlayerWrapper()] returns from then on is for the surroundings to
    say. *)
Definition releaseCurrentPlayer (w : World) : World :=
  let w := if hasPlayerWrapper (env w) then emit UnbindFromPlayer w else w in
  onPlayerChange None (emit (Trigger "playerchange") w).

(** [onPlaybackStop(stopInfo)]. *)
Definition onPlaybackStop (w : World) : World :=
  let w := with_core (c_lastCommand None) w in
  let w := emit (Trigger "playbackstop") w in
  releaseCurrentPlayer w.

(* ------------------------------------------------------------------ *)
(** ** SyncPlayManager *)

(** The normalisation at the head of [processCommand], applied while
    [cmd.When] is still a string: the two dates are parsed and a falsy
    [PositionTicks] becomes [null]. *)
Definition parseCommand (cmd : Command) : Command :=
  if wire cmd then
    mkCommand false (When cmd) (EmittedAt cmd)
      (match PositionTicks cmd with
       | Some t => if t =? 0 then None else Some t
       | None => None
       end)
      (CommandName cmd) (PlaylistItemId cmd)
  else cmd.

(** [processCommand(cmd, apiClient)]. *)
Definition processCommand (cmd : option Command) (w : World) : World :=
  match cmd with
  | None => w
  | Some cmd =>
      let cmd := parseCommand cmd in
      match syncPlayEnabledAt (mgr w) with
      | None =>
          emit (Console LDebug
                  "SyncPlay processCommand: SyncPlay not enabled, ignoring command") w
      | Some enabledAt =>
          if EmittedAt cmd <? enabledAt then
            emit (Console LDebug "SyncPlay processCommand: ignoring old command") w
          else if negb (syncPlayReady (mgr w)) then
            let w := emit (Console LDebug
                       "SyncPlay processCommand: SyncPlay not ready, queued command") w in
            with_mgr (m_queuedCommand (Some cmd)) w
          else
            let w := with_mgr (m_lastPlaybackCommand (Some cmd)) w in
            if negb (isPlaybackActive w) then
              emit (Console LDebug "SyncPlay processCommand: no active player!") w
            else if negb (option_eqb String.eqb (PlaylistItemId cmd)
                            (currentPlaylistItemId (env w))) then
              emit (Console LWarn
                      "SyncPlay processCommand: playlist item does not match!") w
            else
              let w := emit (Console LLog "SyncPlay will") w in
              applyCommand cmd (emit (Call_applyCommand cmd) w)
      end
  end.

(** [injectPlaybackManager()] / [restorePlaybackManager()]. *)
Definition injectPlaybackManager (w : World) : World :=
  if negb (isSyncPlayEnabled w) then w
  else if mgr_pmSyncPlayEnabled (mgr w) then w
  else with_mgr (m_pmSyncPlayEnabled true) (emit InjectPlaybackManager w).

Definition restorePlaybackManager (w : World) : World :=
  if isSyncPlayEnabled w then w
  else if negb (mgr_pmSyncPlayEnabled (mgr w)) then w
  else with_mgr (m_pmSyncPlayEnabled false) (emit RestorePlaybackManager w).

(** [enableSyncPlay(apiClient, groupInfo, showMessage)]. *)
Definition enableSyncPlay (g : GroupInfo) (w : World) : World :=
  let w := with_mgr (m_groupInfo (Some g)) w in
  let w := with_mgr (m_syncPlayEnabledAt (Some (LastUpdatedAt g))) w in
  let w := injectPlaybackManager w in
  let w := if hasPlayerWrapper (env w) then emit BindToPlayer w else w in
  let w := emit (Trigger "enabled") w in
  let w := waitForEventOnce EvTimeSyncServerUpdate None KReadyFlush KIgnore w in
  let w := with_mgr (m_syncPlayReady false) w in
  let w := with_mgr (m_followingGroupPlayback true) w in
  let w := emit TimeSyncForceUpdate w in
  if enableWebRTC (env w) then emit WebRTCEnable w else w.

(** [disableSyncPlay(showMessage)]. *)
Definition disableSyncPlay (w : World) : World :=
  let w := with_mgr (m_syncPlayEnabledAt None) w in
  let w := with_mgr (m_syncPlayReady false) w in
  let w := with_mgr (m_followingGroupPlayback true) w in
  let w := with_mgr (m_lastPlaybackCommand None) w in
  let w := with_mgr (m_queuedCommand None) w in
  let w := with_core (c_syncEnabled false) w in
  let w := emit (Trigger "enabled") w in
  let w := restorePlaybackManager w in
  let w := if hasPlayerWrapper (env w) then emit UnbindFromPlayer w else w in
  emit WebRTCDisable w.

(* ------------------------------------------------------------------ *)
(** ** Deferred code: continuations, timer callbacks, events *)

Definition runContinuation (k : Continuation) (w : World) : World :=
  match k with
  | KReadyFlush =>
      (* enableSyncPlay: the handler of the first time-sync update *)
      let w := with_mgr (m_syncPlayReady true) w in
      let w := processCommand (queuedCommand (mgr w)) w in
      with_mgr (m_queuedCommand None) w
  | KSeek positionTicks => localSeek positionTicks w
  | KPauseAndReport => sendBufferingRequest false (localPause w)
  | KReseek positionTicks =>
      localSeek positionTicks
        (emit (Console LError "Timed out while waiting for 'playing' event!") w)
  | KIgnore => w
  end.

Definition set_waiters (ws : list Waiter) (w : World) : World :=
  mkWorld (env w) (mgr w) (core w) (timers w) ws (nextId w) (trace w).

Definition set_timers (ts : list Timer) (w : World) : World :=
  mkWorld (env w) (mgr w) (core w) ts (waiters w) (nextId w) (trace w).

(** The reject timer of [waitForEventOnce] fired: the promise is rejected
    and its [catch] handler runs. *)
Definition rejectWaiter (wid : nat) (w : World) : World :=
  match find (fun x => Nat.eqb (w_id x) wid) (waiters w) with
  | None => w
  | Some x =>
      let w := set_waiters
                 (filter (fun y => negb (Nat.eqb (w_id y) wid)) (waiters w)) w in
      runContinuation (w_catch x) w
  end.

Definition runCallback (cb : Callback) (w : World) : World :=
  match cb with
  | CbScheduledUnpause enableSyncTimeout =>
      let w := localUnpause w in
      let w := emit (Trigger "notify-osd") w in
      let '(id, w) := setTimeout CbEnableSync enableSyncTimeout w in
      with_core (c_syncTimeout (Some id)) w
  | CbEnableSync => with_core (c_syncEnabled true) w
  | CbNotifyOsdUnpause => emit (Trigger "notify-osd") w
  | CbScheduledPause positionTicks => pauseCallback positionTicks w
  | CbScheduledStop => stopCallback w
  | CbScheduledSeek positionTicks => seekCallback positionTicks w
  | CbSpeedToSyncDone =>
      if isPlaybackActive w then
        match currentPlayer (core w) with
        | NoPlayer => emit (Uncaught "TypeError") w
        | Player _ =>
            let w := emit (SetPlaybackRate 1) w in
            clearSyncIcon (with_core (c_syncEnabled true) w)
        end
      else clearSyncIcon (with_core (c_syncEnabled true) w)
  | CbSkipToSyncDone => clearSyncIcon (with_core (c_syncEnabled true) w)
  | CbNotifyBuffering => sendBufferingRequest true w
  | CbRejectWaiter wid => rejectWaiter wid w
  end.

Definition awaits (ev : EventName) (x : Waiter) : bool :=
  EventName_eqb (w_event x) ev.

(** An awaited event is triggered: every promise waiting for it is
    resolved (listener removed, reject timer cleared), then the [then]
    handlers run in registration order. *)
Definition resolveWaiters (ev : EventName) (w : World) : World :=
  let hit := filter (awaits ev) (waiters w) in
  let rest := filter (fun x => negb (awaits ev x)) (waiters w) in
  let w := set_waiters rest w in
  let w := fold_left (fun w x => clearTimeout (w_timer x) w) hit w in
  fold_left (fun w x => runContinuation (w_then x) w) hit w.

(** A timer whose delay has elapsed fires once. *)
Definition fireTimer (id : nat) (w : World) : World :=
  match find (fun t => Nat.eqb (t_id t) id) (timers w) with
  | None => w
  | Some t =>
      if Qle_bool (t_due t) (inject_Z (now (env w))) then
        runCallback (t_callback t)
          (set_timers (filter (fun u => negb (Nat.eqb (t_id u) id)) (timers w)) w)
      else w
  end.

(** What can happen to the core between two turns of the event loop.  On
    a time-sync update the manager's own listener would send a ping only if
    [this.syncEnabled] were set on the manager, which it never is, so only
    the awaited handlers run. *)
Inductive Event :=
| InCommand (cmd : option Command)
| InGroupJoined (g : GroupInfo)
| InGroupLeft
| InGroupUpdate (g : GroupInfo)
| TimeSyncServerUpdate
| TimerFired (id : nat)
| PlayerChanged (player : option (bool * Q))
| PlayerUnpaused
| PlayerPaused
| PlayerPlaying
| PlayerWaiting
| PlayerTimeUpdate
| PlayerPlaybackStart
| PlayerPlaybackStop
| SettingsUpdated (minSpeed maxSpeed duration minSkip : Q)
    (useSpeed useSkip correction : bool)
| Surroundings (e : Env).

Definition step (e : Event) (w : World) : World :=
  match e with
  | InCommand cmd => processCommand cmd w
  | InGroupJoined g => enableSyncPlay g w
  | InGroupLeft => disableSyncPlay w
  | InGroupUpdate g => with_mgr (m_groupInfo (Some g)) w
  | TimeSyncServerUpdate => resolveWaiters EvTimeSyncServerUpdate w
  | TimerFired id => fireTimer id w
  | PlayerChanged player => onPlayerChange player w
  | PlayerUnpaused => resolveWaiters EvUnpause (onUnpause w)
  | PlayerPaused => resolveWaiters EvPause (onPause w)
  | PlayerPlaying => resolveWaiters EvPlaying (onPlaying w)
  | PlayerWaiting => onWaiting w
  | PlayerTimeUpdate => onTimeUpdate w
  | PlayerPlaybackStart => resolveWaiters EvPlaybackStart (onPlaybackStart w)
  | PlayerPlaybackStop => onPlaybackStop w
  | SettingsUpdated minSpeed maxSpeed duration minSkip useSpeed useSkip
      correction =>
      loadPreferences minSpeed maxSpeed duration minSkip useSpeed useSkip
        correction w
  | Surroundings e' => with_env e' w
  end.

Definition run (es : list Event) (w : World) : World :=
  fold_left (fun w e => step e w) es w.

(** The state built by the two constructors, for given surroundings and
    settings ([loadPreferences]). *)
Definition initialManager : Manager :=
  mkManager MethodNone None None false None true None false.

Definition initialCore (minSpeed maxSpeed duration minSkip : Q)
    (useSpeed useSkip correction : bool) (constructedAt : Z) : PlaybackCore :=
  mkPlaybackCore minSpeed maxSpeed duration minSkip useSpeed useSkip correction
    1000 NoPlayer 1 false 0 0%nat constructedAt None None None None None.

Definition initialWorld (e : Env) (p : PlaybackCore) : World :=
  mkWorld e initialManager p [] [] 1%nat [].

(** Preferences as [loadPreferences] reads them when nothing is stored. *)
Definition defaultCore (useSpeed useSkip correction : bool) : PlaybackCore :=
  initialCore 60 3000 1000 400 useSpeed useSkip correction 0.

(** The states the session can be in: those obtained from a freshly
    constructed manager and playback core by a sequence of events. *)
Inductive reachable : World -> Prop :=
| reach_init : forall e p, reachable (initialWorld e p)
| reach_step : forall w ev, reachable w -> reachable (step ev w).

(* ------------------------------------------------------------------ *)
(** ** SyncPlayQueueCore

    [updatePlayQueue] exists twice in the sources (the queue core used with
    the playback manager and the one used with player wrappers); the two
    agree on everything modelled here except the receiver of the repeat
    and shuffle calls. *)

Record PlayQueueUpdate := mkPlayQueueUpdate {
  Reason : string;
  LastUpdate : Z;
  Playlist : list string;
  PlayingItemIndex : Z;
  StartPositionTicks : Z;
  ShuffleMode : string;
  RepeatMode : string
}.

(** The queue manager ([SyncPlayQueueManager]) as the queue core uses it.
    [onPlayQueueUpdate] is what the call does to the manager before the
    promise it returns is resolved. *)
Class QueueManager (QM : Type) := {
  getLastUpdateTime : QM -> Z;
  onPlayQueueUpdate : PlayQueueUpdate -> string -> QM -> QM;
  getCurrentPlaylistItemId : QM -> option string;
  getRealPlaylistItemId : QM -> option string;
  getRepeatMode : QM -> string;
  getShuffleMode : QM -> string
}.

(** Modelled from the spec: the queue manager class itself is not among
    the sources.  Section 4.C: the model keeps the last applied update;
    [lastUpdateTime()] is its [lastUpdate], [currentPlaylistItemId()] the
    playlist entry under the cursor. *)
Record QueueModel := mkQueueModel {
  lastPlayQueueUpdate : option PlayQueueUpdate;
  realItem : option string
}.

Definition QueueModel_currentItem (q : QueueModel) : option string :=
  match lastPlayQueueUpdate q with
  | Some u =>
      if PlayingItemIndex u <? 0 then None
      else nth_error (Playlist u) (Z.to_nat (PlayingItemIndex u))
  | None => None
  end.

#[export] Instance QueueModel_manager : QueueManager QueueModel := {
  getLastUpdateTime q :=
    match lastPlayQueueUpdate q with Some u => LastUpdate u | None => 0 end;
  onPlayQueueUpdate u _ q := mkQueueModel (Some u) (realItem q);
  getCurrentPlaylistItemId := QueueModel_currentItem;
  getRealPlaylistItemId := realItem;
  getRepeatMode q :=
    match lastPlayQueueUpdate q with Some u => RepeatMode u | None => EmptyString end;
  getShuffleMode q :=
    match lastPlayQueueUpdate q with Some u => ShuffleMode u | None => EmptyString end
}.

(** What the queue core logs and asks of its collaborators. *)
Inductive QueueAction :=
| QIgnoringOldUpdate (u : PlayQueueUpdate)
| QUpdating (u : PlayQueueUpdate)
| QTryingToApplyOldUpdate (u : PlayQueueUpdate)
| QRemoteHasOwnManager
| QFollowGroupPlaybackThenStart
| QStartPlayback
| QLocalSetCurrentPlaylistItem (item : option string)
| QTriggerPlaylistItemAdd
| QLocalSetRepeatMode (mode : string)
| QLocalSetShuffleMode (mode : string)
| QUnknownReason (reason : string).

(** The queue core: its queue manager, the updates whose
    [onPlayQueueUpdate] promise is still to be resolved, and the log
    (oldest first). *)
Record QueueCore (QM : Type) := mkQueueCore {
  playQueueManager : QM;
  unresolved : list PlayQueueUpdate;
  queueLog : list QueueAction
}.
Arguments mkQueueCore {QM}.
Arguments playQueueManager {QM}.
Arguments unresolved {QM}.
Arguments queueLog {QM}.

(** [updatePlayQueue(apiClient, newPlayQueue)] up to the point where the
    promise of [onPlayQueueUpdate] is returned. *)
Definition updatePlayQueue {QM} `{QueueManager QM}
    (serverId : string) (newPlayQueue : PlayQueueUpdate)
    (q : QueueCore QM) : QueueCore QM :=
  if LastUpdate newPlayQueue <=? getLastUpdateTime (playQueueManager q) then
    mkQueueCore (playQueueManager q) (unresolved q)
      (queueLog q ++ [QIgnoringOldUpdate newPlayQueue])
  else
    mkQueueCore
      (onPlayQueueUpdate newPlayQueue serverId (playQueueManager q))
      (unresolved q ++ [newPlayQueue])
      (queueLog q ++ [QUpdating newPlayQueue]).

(** The [then] handler of that promise, given what [isRemote()],
    [isFollowingGroupPlayback()] and [getCurrentPlayer()] answer when it
    runs. *)
Definition playQueueUpdated {QM} `{QueueManager QM}
    (remote following hasPlayer : bool) (newPlayQueue : PlayQueueUpdate)
    (q : QueueCore QM) : QueueCore QM :=
  let say a := mkQueueCore (playQueueManager q) (unresolved q)
                 (queueLog q ++ a) in
  let added := if hasPlayer then [QTriggerPlaylistItemAdd] else [] in
  let setCurrent :=
    if following
    then [QLocalSetCurrentPlaylistItem
            (getCurrentPlaylistItemId (playQueueManager q))]
    else [] in
  if LastUpdate newPlayQueue <? getLastUpdateTime (playQueueManager q) then
    say [QTryingToApplyOldUpdate newPlayQueue]
  else if remote then say [QRemoteHasOwnManager]
  else
    let reason := Reason newPlayQueue in
    if String.eqb reason "NewPlaylist" then
      say [if following then QStartPlayback else QFollowGroupPlaybackThenStart]
    else if String.eqb reason "SetCurrentItem" || String.eqb reason "NextTrack"
            || String.eqb reason "PreviousTrack" then
      say setCurrent
    else if String.eqb reason "RemoveItems" then
      say (added ++
           if option_eqb String.eqb
                (getRealPlaylistItemId (playQueueManager q))
                (getCurrentPlaylistItemId (playQueueManager q))
           then [] else setCurrent)
    else if String.eqb reason "MoveItem" || String.eqb reason "Queue"
            || String.eqb reason "QueueNext" then
      say added
    else if String.eqb reason "RepeatMode" then
      say [QLocalSetRepeatMode (getRepeatMode (playQueueManager q))]
    else if String.eqb reason "ShuffleMode" then
      say [QLocalSetShuffleMode (getShuffleMode (playQueueManager q))]
    else say [QUnknownReason reason].

(** The oldest unresolved promise is resolved. *)
Definition resolveNext {QM} `{QueueManager QM}
    (remote following hasPlayer : bool) (q : QueueCore QM) : QueueCore QM :=
  match unresolved q with
  | [] => q
  | u :: rest =>
      playQueueUpdated remote following hasPlayer u
        (mkQueueCore (playQueueManager q) rest (queueLog q))
  end.

(** What happens to the queue core: a PlayQueue group update arrives, or
    a pending promise is resolved. *)
Inductive QueueEvent :=
| PlayQueueArrives (serverId : string) (u : PlayQueueUpdate)
| PromiseResolves (remote following hasPlayer : bool).

Definition queueStep {QM} `{QueueManager QM}
    (e : QueueEvent) (q : QueueCore QM) : QueueCore QM :=
  match e with
  | PlayQueueArrives serverId u => updatePlayQueue serverId u q
  | PromiseResolves remote following hasPlayer =>
      resolveNext remote following hasPlayer q
  end.

Definition queueRun {QM} `{QueueManager QM}
    (es : list QueueEvent) (q : QueueCore QM) : QueueCore QM :=
  fold_left (fun q e => queueStep e q) es q.

(** The [LastUpdate] of the updates applied so far, oldest first. *)
Fixpoint appliedTimes (log : list QueueAction) : list Z :=
  match log with
  | [] => []
  | QUpdating u :: rest => LastUpdate u :: appliedTimes rest
  | _ :: rest => appliedTimes rest
  end.

Definition sampleUpdate (time : Z) : PlayQueueUpdate :=
  mkPlayQueueUpdate "NewPlaylist" time ["A"%string] 0 0 "Sorted" "RepeatNone".

(* ------------------------------------------------------------------ *)
(** ** Sample sessions *)

(** Surroundings with a zero clock offset, the playback manager reporting
    position 0 and a paused state, and item "A" current in the queue. *)
Definition sampleEnv (time : Z) (active remote : bool) : Env :=
  mkEnv time (fun t => t) (fun t => t) 0 true false active remote true
    (Some "A"%string) (1 # 2) false.

Definition sampleGroup (joinedAt : Z) : GroupInfo :=
  mkGroupInfo "group" joinedAt [] [].

Definition sampleCommand (name : string) (when emittedAt : Z)
    (item : string) : Command :=
  mkCommand true when emittedAt (Some 0) name (Some item).

(** The state right after joining a group at 1000 and completing time
    sync, the clock reading 3000, with a local player active. *)
Definition readySession : World :=
  run [InGroupJoined (sampleGroup 1000); TimeSyncServerUpdate]
    (initialWorld (sampleEnv 3000 true false) (defaultCore true true true)).

(** [readySession] after an Unpause for instant 5000 arrived at 3000; the
    clock now reads 4000. *)
Definition scheduledSession : World :=
  run [InCommand (Some (sampleCommand "Unpause" 5000 2000 "A"));
       Surroundings (sampleEnv 4000 true false)]
    readySession.

(** The same with a remote self-managed player, the clock reading 6000
    after the command was received. *)
Definition remoteSession : World :=
  run [InGroupJoined (sampleGroup 1000);
       TimeSyncServerUpdate;
       InCommand (Some (sampleCommand "Unpause" 5000 2000 "A"));
       Surroundings (sampleEnv 6000 true true)]
    (initialWorld (sampleEnv 3000 true true) (defaultCore true true true)).

(** A group was joined at 1000 and an Unpause arrived before time sync
    completed. *)
Definition queuedSession : World :=
  run [InGroupJoined (sampleGroup 1000);
       InCommand (Some (sampleCommand "Unpause" 5000 2000 "A"))]
    (initialWorld (sampleEnv 3000 true false) (defaultCore true true true)).

(** A session in the middle of playback: the last command is an Unpause
    at position 0 for instant 5000, the clock reads 15000 and the player
    is [diff] milliseconds behind the estimated server position; sync is
    enabled, the rate can be changed and the thresholds are the defaults. *)
Definition playingCommand : Command :=
  mkCommand false 5000 2000 None "Unpause" (Some "A"%string).

Definition driftWorld (diff : Q) (useSpeed : bool) : World :=
  mkWorld
    (mkEnv 15000 (fun t => t) (fun t => t) (10000 - diff) false false
       true false true (Some "A"%string) (1 # 2) false)
    (mkManager MethodNone (Some (sampleGroup 1000)) (Some 1000) true None true
       (Some playingCommand) true)
    (mkPlaybackCore 60 3000 1000 400 useSpeed true true 1000 (Player true) 1
       true 0 0%nat 0 None (Some playingCommand) None None None)
    [] [] 1%nat [].

(* ------------------------------------------------------------------ *)
(** ** Predicates used in the statements *)

(** Actions other than the record of an [applyCommand] invocation. *)
Definition coreAction (a : Action) : Prop :=
  match a with Call_applyCommand _ => False | _ => True end.

Definition session_frame (w w' : World) : Prop :=
  env w' = env w
  /\ (exists sm, mgr w' = m_syncMethod sm (mgr w))
  /\ (exists l, trace w' = l ++ trace w /\ Forall coreAction l).

Definition core_frame (w w' : World) : Prop :=
  session_frame w w' /\ lastCommand (core w') = lastCommand (core w).

(** [queuedCommand] is only set while [syncPlayReady] is false. *)
Definition queued_not_ready (w : World) : Prop :=
  queuedCommand (mgr w) <> None -> syncPlayReady (mgr w) = false.

(** The conditions under which [syncPlaybackTime] gets as far as choosing
    a correction: a player is active, the last command [l] is an Unpause,
    the player is not buffering, the throttle interval has elapsed, and
    both [syncEnabled] and [enableSyncCorrection] are set. *)
Definition correctionDue (l : Command) (w : World) : Prop :=
  isPlaybackActive w = true
  /\ lastCommand (core w) = Some l
  /\ CommandName l = "Unpause"%string
  /\ isBuffering w = false
  /\ Qlt_bool (inject_Z (now (env w) - lastSyncTime (core w)))
       (maxDelaySpeedToSync (core w) / 2) = false
  /\ syncEnabled (core w) = true
  /\ enableSyncCorrection (core w) = true.

Definition speedToSyncChosen (l : Command) (w : World) : bool :=
  playbackRateSupported (core w) && useSpeedToSync (core w)
  && Qle_bool (minDelaySpeedToSync (core w)) (Qabs (diffMillisOf l w))
  && Qlt_bool (Qabs (diffMillisOf l w)) (maxDelaySpeedToSync (core w)).

Definition skipToSyncChosen (l : Command) (w : World) : bool :=
  negb (speedToSyncChosen l w)
  && useSkipToSync (core w)
  && Qle_bool (minDelaySkipToSync (core w)) (Qabs (diffMillisOf l w)).

(** Applied times are increasing and bounded by the stored time. *)
Definition queue_ordered {QM} `{QueueManager QM} (q : QueueCore QM) : Prop :=
  StronglySorted Z.lt (appliedTimes (queueLog q))
  /\ Forall (fun t => t <= getLastUpdateTime (playQueueManager q))
       (appliedTimes (queueLog q)).

(* ------------------------------------------------------------------ *)
(** ** Timers the playback core keeps a handle to *)

(** The callbacks whose handle is stored in [scheduledCommandTimeout]
    (scheduleUnpause, schedulePause, scheduleStop, scheduleSeek), in
    [syncTimeout] (the timers that set [syncEnabled] again) and in
    [notifyBuffering] (onWaiting). *)
Definition isScheduledCommand (cb : Callback) : bool :=
  match cb with
  | CbScheduledUnpause _ | CbScheduledPause _ | CbScheduledStop
  | CbScheduledSeek _ => true
  | _ => false
  end.

Definition isSyncEnabler (cb : Callback) : bool :=
  match cb with
  | CbEnableSync | CbSpeedToSyncDone | CbSkipToSyncDone => true
  | _ => false
  end.

Definition isBufferingNotice (cb : Callback) : bool :=
  match cb with CbNotifyBuffering => true | _ => false end.

(** The pending timers of one kind. *)
Definition pending (kind : Callback -> bool) (w : World) : list Timer :=
  filter (fun t => kind (t_callback t)) (timers w).

Definition none_pending (kind : Callback -> bool) (w : World) : Prop :=
  forall t, In t (timers w) -> kind (t_callback t) = false.

(** Every pending timer of the kind is the one the handle [h] names. *)
Definition handle_tracks (kind : Callback -> bool) (h : option nat)
    (w : World) : Prop :=
  forall t, In t (timers w) -> kind (t_callback t) = true -> h = Some (t_id t).

(** Handles are fresh and the three handle fields name what is pending;
    while [syncEnabled] is set neither a scheduled command nor a sync
    timer is pending, and the two are never pending together; the reject
    timer of an awaited event names a promise that was given a timeout. *)
Definition timers_inv (w : World) : Prop :=
  (forall t, In t (timers w) -> (t_id t < nextId w)%nat)
  /\ NoDup (map t_id (timers w))
  /\ (forall x, In x (waiters w) -> (w_id x < nextId w)%nat)
  /\ NoDup (map w_id (waiters w))
  /\ handle_tracks isScheduledCommand (scheduledCommandTimeout (core w)) w
  /\ handle_tracks isSyncEnabler (syncTimeout (core w)) w
  /\ handle_tracks isBufferingNotice (notifyBuffering (core w)) w
  /\ (syncEnabled (core w) = true ->
      none_pending isScheduledCommand w /\ none_pending isSyncEnabler w)
  /\ (forall t, In t (timers w) -> isScheduledCommand (t_callback t) = true ->
      none_pending isSyncEnabler w)
  /\ (forall t wid, In t (timers w) -> t_callback t = CbRejectWaiter wid ->
      (wid < nextId w)%nat)
  /\ (forall t wid x, In t (timers w) -> t_callback t = CbRejectWaiter wid ->
      In x (waiters w) -> w_id x = wid -> w_timer x <> None).

(** [timers_inv] together with what is known at a program point: no
    scheduled command pending ([ns]), no sync timer pending ([ny]), no
    buffering notice pending ([nn]), [syncEnabled] false ([off]). *)
Definition safe (ns ny nn off : bool) (w : World) : Prop :=
  timers_inv w
  /\ (ns = true -> none_pending isScheduledCommand w)
  /\ (ny = true -> none_pending isSyncEnabler w)
  /\ (nn = true -> none_pending isBufferingNotice w)
  /\ (off = true -> syncEnabled (core w) = false).

(* ------------------------------------------------------------------ *)
(** ** A session in the middle of playback, reached by events *)

(** Surroundings with a zero clock offset and an active local player at
    position [position] (milliseconds), playing. *)
Definition playingEnv (time : Z) (position : Q) : Env :=
  mkEnv time (fun t => t) (fun t => t) position false false true false true
    (Some "A"%string) (1 # 2) false.

(** A player that supports 'PlaybackRate' is picked up, a group is joined
    and time sync completes at 3000; an Unpause for instant 5000 arrives,
    its timer fires at 5000 and the sync timer at 6500; at 15000 the
    player is at 9900 ms, 100 ms behind the group. *)
Definition playingSession : World :=
  run [PlayerChanged (Some (true, 1%Q));
       InGroupJoined (sampleGroup 1000);
       TimeSyncServerUpdate;
       InCommand (Some (sampleCommand "Unpause" 5000 2000 "A"));
       Surroundings (playingEnv 5000 0);
       TimerFired 2;
       Surroundings (playingEnv 6500 1500);
       TimerFired 3;
       Surroundings (playingEnv 15000 9900)]
    (initialWorld (sampleEnv 3000 true false) (defaultCore true true true)).

(* ------------------------------------------------------------------ *)
(** ** Events and the player *)

(** The two events by which a player is handed over or released:
    [onPlayerChange] restores the playback rate of the player it lets go. *)
Definition isPlayerHandover (ev : Event) : bool :=
  match ev with
  | PlayerChanged _ | PlayerPlaybackStop => true
  | _ => false
  end.

(** The player commands issued so far, most recent first. *)
Definition playerCommands (w : World) : list Action :=
  filter isPlayerCommand (trace w).

(** [x] has the surroundings of [w0] and no player command was issued
    between the two. *)
Definition mute (w0 x : World) : Prop :=
  env x = env w0 /\ playerCommands x = playerCommands w0.

(* ------------------------------------------------------------------ *)
(** ** What a piece of code leaves alone *)

(** [x] agrees with [w0] on the observation [proj]. *)
Definition keeps {T : Type} (proj : World -> T) (w0 x : World) : Prop :=
  proj x = proj w0.

(** The manager overriding ([InjectPlaybackManager]) or restoring
    ([RestorePlaybackManager]) the playback manager's methods. *)
Definition isInjection (a : Action) : bool :=
  match a with
  | InjectPlaybackManager | RestorePlaybackManager => true
  | _ => false
  end.

(** Whether the playback manager's methods are overridden after the
    actions [l] (most recent first), starting from a playback manager
    that is not; [None] if an override follows an override or a restore
    does not follow an override. *)
Fixpoint injectedAfter (l : list Action) : option bool :=
  match l with
  | [] => Some false
  | InjectPlaybackManager :: rest =>
      match injectedAfter rest with
      | Some false => Some true
      | _ => None
      end
  | RestorePlaybackManager :: rest =>
      match injectedAfter rest with
      | Some true => Some false
      | _ => None
      end
  | _ :: rest => injectedAfter rest
  end.

(** The player slot with the playback rate saved for it. *)
Definition playerSlot (w : World) : PlayerSlot * Q :=
  (currentPlayer (core w), localPlayerPlaybackRate (core w)).

(** The enable time, the flag kept on the playback manager and the
    overrides performed so far. *)
Definition sessionFlags (w : World) : option Z * bool * list Action :=
  (syncPlayEnabledAt (mgr w), mgr_pmSyncPlayEnabled (mgr w),
   filter isInjection (trace w)).

Definition playerAndSession (w : World) :=
  (playerSlot w, sessionFlags w).

Definition isGroupMembership (ev : Event) : bool :=
  match ev with
  | InGroupJoined _ | InGroupLeft => true
  | _ => false
  end.

(* ------------------------------------------------------------------ *)
(** ** SyncPlayManager: user ids and access rights *)

(** A character of the class [[0-z]] of the regular expression in
    [stringToGuid]: the code points from '0' (48) to 'z' (122). *)
Definition inGuidClass (c : Ascii.ascii) : bool :=
  let n := Ascii.nat_of_ascii c in
  (Nat.leb 48 n && Nat.leb n 122)%bool.

(** The [n] characters at the head of [s] and what follows them, when
    there are that many and all are in the class. *)
Fixpoint takeClass (n : nat) (s : string) : option (string * string) :=
  match n with
  | O => Some (EmptyString, s)
  | S n' =>
      match s with
      | EmptyString => None
      | String c s' =>
          if inGuidClass c then
            match takeClass n' s' with
            | Some (a, rest) => Some (String c a, rest)
            | None => None
            end
          else None
      end
  end.

(** The character '-' (code point 45), which is not in the class. *)
Definition dash : Ascii.ascii := Ascii.ascii_of_nat 45.

(** The replacement ['$1-$2-$3-$4-$5'] for a match of 32 characters. *)
Definition dashed (run : string) : string :=
  (substring 0 8 run ++ "-" ++ substring 8 4 run ++ "-"
   ++ substring 12 4 run ++ "-" ++ substring 16 4 run ++ "-"
   ++ substring 20 12 run)%string.

(** [stringToGuid(input)]: [String.prototype.replace] with a regular
    expression without the global flag rewrites the leftmost match only,
    the leftmost run of 32 characters of the class. *)
Fixpoint stringToGuid (input : string) : string :=
  match takeClass 32 input with
  | Some (run, rest) => (dashed run ++ rest)%string
  | None =>
      match input with
      | EmptyString => EmptyString
      | String c s' => String c (stringToGuid s')
      end
  end.

(** [this.groupInfo.AccessList[userId]]: the entry stored under the key,
    the keys of an object being distinct. *)
Fixpoint lookupAccess (userId : string) (l : list (string * (bool * bool)))
    : option (bool * bool) :=
  match l with
  | [] => None
  | (k, v) :: rest => if String.eqb k userId then Some v else lookupAccess userId rest
  end.

(** [isUserAdministrator(userId)]. *)
Definition isUserAdministrator (userId : string) (w : World) : bool :=
  match groupInfo (mgr w) with
  | Some g => existsb (String.eqb userId) (Administrators g)
  | None => false
  end.

(** [hasUserPlaybackAccess(userId)] and [hasUserPlaylistAccess(userId)];
    an access entry is the pair of its [PlaybackAccess] and
    [PlaylistAccess]. *)
Definition hasUserPlaybackAccess (userId : string) (w : World) : bool :=
  match groupInfo (mgr w) with
  | Some g =>
      match lookupAccess userId (AccessList g) with
      | Some (playbackAccess, _) => playbackAccess
      | None => false
      end
  | None => false
  end.

Definition hasUserPlaylistAccess (userId : string) (w : World) : bool :=
  match groupInfo (mgr w) with
  | Some g =>
      match lookupAccess userId (AccessList g) with
      | Some (_, playlistAccess) => playlistAccess
      | None => false
      end
  | None => false
  end.

(** [isAdministrator()], [hasPlaybackAccess()], [hasPlaylistAccess()],
    given what [apiClient.getCurrentUserId()] returns. *)
Definition isAdministrator (currentUserId : string) (w : World) : bool :=
  isUserAdministrator (stringToGuid currentUserId) w.

Definition hasPlaybackAccess (currentUserId : string) (w : World) : bool :=
  hasUserPlaybackAccess (stringToGuid currentUserId) w.

Definition hasPlaylistAccess (currentUserId : string) (w : World) : bool :=
  hasUserPlaylistAccess (stringToGuid currentUserId) w.

(** [isPlaying()]: whether the group, going by the last playback command,
    is playing. *)
Definition isPlaying (w : World) : bool :=
  match lastPlaybackCommand (mgr w) with
  | Some c => String.eqb (CommandName c) "Unpause"
  | None => false
  end.

(* ------------------------------------------------------------------ *)
(** ** Playback requests of the user

    What the playback manager's [unpause], [pause], [seek] and
    [playPause] do while they are overridden by [injectPlaybackManager]
    (SyncPlayPlaybackCore [unpauseRequest], ...).  The player wrapper
    answers a request either by asking the server (the generic and the
    local wrappers, for which [isRemote()] is false) or by driving the
    player itself (the remote wrapper, for which it is true).

    The player is driven through [localUnpause], [localPause] and
    [localSeek].  With an active player these call the saved original
    method when [playbackManager.syncPlayEnabled] is set, and otherwise
    [playbackManager.unpause], [pause] or [seek]: while the methods are
    overridden those are the request functions themselves, so the call
    comes back into the function that made it.  [depth] bounds how deep
    such calls may nest. *)

Inductive ApiRequest :=
| RequestSyncPlayUnpause
| RequestSyncPlayPause
| RequestSyncPlaySeek (positionTicks : option Q).

(** How a call ended: it returned, or it was still nesting when the bound
    on the depth was reached. *)
Inductive Outcome := Returned | StillNesting.

(** Whether a [local*] call goes to the overridden method: a player is
    active and the flag is not set. *)
Definition reenters (w : World) : bool :=
  isPlaybackActive w && negb (pm_syncPlayEnabled (env w)).

(** [unpauseRequest(player)]: the outcome, the requests sent to the
    server and the resulting state. *)
Fixpoint unpauseRequest (depth : nat) (currentUserId : string) (w : World)
    : Outcome * list ApiRequest * World :=
  match depth with
  | O => (StillNesting, [], w)
  | S depth =>
      if negb (hasPlaybackAccess currentUserId w) then (Returned, [], w)
      else if isRemote w then
        (* remote wrapper: this.playbackCore.localUnpause(player) *)
        if reenters w then unpauseRequest depth currentUserId (localUnpause w)
        else (Returned, [], localUnpause w)
      else (Returned, [RequestSyncPlayUnpause], w)
  end.

(** [pauseRequest(player)]: the generic and local wrappers ask the server
    and pause locally as well, the remote wrapper only pauses locally. *)
Fixpoint pauseRequest (depth : nat) (currentUserId : string) (w : World)
    : Outcome * list ApiRequest * World :=
  match depth with
  | O => (StillNesting, [], w)
  | S depth =>
      if negb (hasPlaybackAccess currentUserId w) then (Returned, [], w)
      else
        let sent := if isRemote w then [] else [RequestSyncPlayPause] in
        (* this.playbackCore.localPause(player) *)
        if reenters w then
          let '(outcome, more, w') :=
            pauseRequest depth currentUserId (localPause w) in
          (outcome, sent ++ more, w')
        else (Returned, sent, localPause w)
  end.

(** [seekRequest(PositionTicks, player)]. *)
Fixpoint seekRequest (depth : nat) (currentUserId : string)
    (positionTicks : option Q) (w : World)
    : Outcome * list ApiRequest * World :=
  match depth with
  | O => (StillNesting, [], w)
  | S depth =>
      if negb (hasPlaybackAccess currentUserId w) then (Returned, [], w)
      else if isRemote w then
        (* remote wrapper: this.playbackCore.localSeek(PositionTicks, player) *)
        if reenters w then
          seekRequest depth currentUserId positionTicks
            (localSeek positionTicks w)
        else (Returned, [], localSeek positionTicks w)
      else (Returned, [RequestSyncPlaySeek positionTicks], w)
  end.

(** [playPauseRequest(player)]. *)
Definition playPauseRequest (depth : nat) (currentUserId : string)
    (w : World) : Outcome * list ApiRequest * World :=
  if isPlaying w then pauseRequest depth currentUserId w
  else unpauseRequest depth currentUserId w.

(** A user id of 32 hexadecimal digits, as the server sends it without
    dashes. *)
Definition sampleUserId : string := "0123456789abcdef0123456789abcdef".

(** A group in which that user has playback access but no playlist
    access, and the session of a member once time sync has completed. *)
Definition accessGroup : GroupInfo :=
  mkGroupInfo "group" 1000 []
    [("01234567-89ab-cdef-0123-456789abcdef"%string, (true, false))].

Definition memberSession : World :=
  run [InGroupJoined accessGroup; TimeSyncServerUpdate]
    (initialWorld (sampleEnv 3000 true false) (defaultCore true true true)).

(* ------------------------------------------------------------------ *)
(** ** Becoming ready *)

(** The promises waiting for the next time-sync update. *)
Definition timeSyncWaiters (w : World) : list Waiter :=
  filter (awaits EvTimeSyncServerUpdate) (waiters w).

(** The promise set up by [enableSyncPlay]: no timeout, and a handler
    that sets [syncPlayReady] and flushes the queued command. *)
Definition isReadyHandler (x : Waiter) : Prop :=
  w_timer x = None /\ w_then x = KReadyFlush.

(** Only [enableSyncPlay] waits for a time-sync update, and while a group
    is joined and SyncPlay is not ready its handler is still waiting. *)
Definition ready_handler_waits (w : World) : Prop :=
  Forall isReadyHandler (timeSyncWaiters w)
  /\ (isSyncPlayEnabled w = true -> timeSyncWaiters w = [] ->
      syncPlayReady (mgr w) = true).

(* ================================================================== *)
(** * Properties *)

(** ** Basic facts about the comparisons *)

Lemma Qlt_bool_iff (x y : Q) : Qlt_bool x y = true <-> (x < y)%Q.
Proof.
  unfold Qlt_bool. rewrite negb_true_iff.
  destruct (Qle_bool y x) eqn:E.
  - apply Qle_bool_iff in E. split; [discriminate | intro H].
    exfalso. apply (Qlt_not_le _ _ H E).
  - split; [intros _ | reflexivity].
    apply Qnot_le_lt. intro H. apply Qle_bool_iff in H. congruence.
Qed.

Lemma option_eqb_refl {A} (eqb : A -> A -> bool) (x : option A) :
  (forall a, eqb a a = true) -> option_eqb eqb x x = true.
Proof. intros H. destruct x; simpl; auto. Qed.

Lemma isDuplicate_same (c : Command) : isDuplicate (Some c) c = true.
Proof.
  unfold isDuplicate.
  rewrite Z.eqb_refl, String.eqb_refl.
  rewrite !option_eqb_refl; auto using Z.eqb_refl, String.eqb_refl.
Qed.

(** ** Duplicate of a command that is still to fire *)

Lemma applyCommand_duplicate_future (c : Command) (w : World) :
  isDuplicate (lastCommand (core w)) c = true ->
  now (env w) < remoteDateToLocal (env w) (When c) ->
  applyCommand c w =
  emit (Console LDebug "SyncPlay applyCommand: command already scheduled.")
    (emit (Console LDebug "SyncPlay applyCommand: duplicate command received!") w).
Proof.
  intros Hdup Hfuture. unfold applyCommand. rewrite Hdup. cbn [emit env].
  apply Z.ltb_lt in Hfuture. rewrite Hfuture. reflexivity.
Qed.

(** ** Projections through the runtime primitives *)

Lemma env_clearTimeout h w : env (clearTimeout h w) = env w.
Proof. destruct h; reflexivity. Qed.
Lemma mgr_clearTimeout h w : mgr (clearTimeout h w) = mgr w.
Proof. destruct h; reflexivity. Qed.
Lemma core_clearTimeout h w : core (clearTimeout h w) = core w.
Proof. destruct h; reflexivity. Qed.
Lemma waiters_clearTimeout h w : waiters (clearTimeout h w) = waiters w.
Proof. destruct h; reflexivity. Qed.
Lemma nextId_clearTimeout h w : nextId (clearTimeout h w) = nextId w.
Proof. destruct h; reflexivity. Qed.
Lemma trace_clearTimeout h w : trace (clearTimeout h w) = trace w.
Proof. destruct h; reflexivity. Qed.

Lemma env_waitForEventOnce ev t k kc w :
  env (waitForEventOnce ev t k kc w) = env w.
Proof. unfold waitForEventOnce. destruct t as [t|]; [destruct (Qeq_bool t 0)|]; reflexivity. Qed.
Lemma mgr_waitForEventOnce ev t k kc w :
  mgr (waitForEventOnce ev t k kc w) = mgr w.
Proof. unfold waitForEventOnce. destruct t as [t|]; [destruct (Qeq_bool t 0)|]; reflexivity. Qed.
Lemma core_waitForEventOnce ev t k kc w :
  core (waitForEventOnce ev t k kc w) = core w.
Proof. unfold waitForEventOnce. destruct t as [t|]; [destruct (Qeq_bool t 0)|]; reflexivity. Qed.
Lemma trace_waitForEventOnce ev t k kc w :
  trace (waitForEventOnce ev t k kc w) = trace w.
Proof. unfold waitForEventOnce. destruct t as [t|]; [destruct (Qeq_bool t 0)|]; reflexivity. Qed.

Create Rewrite HintDb world.

#[local] Hint Rewrite env_clearTimeout mgr_clearTimeout core_clearTimeout
  waiters_clearTimeout nextId_clearTimeout trace_clearTimeout
  env_waitForEventOnce mgr_waitForEventOnce core_waitForEventOnce
  trace_waitForEventOnce : world.

(** Push the projections of a world through the operations applied to it. *)
Ltac wsimp :=
  repeat first
    [ progress autorewrite with world
    | progress cbn [env mgr core timers waiters nextId trace
                    emit setTimeout with_mgr with_core with_env
                    showSyncIcon clearSyncIcon fst snd] ].

(** ** Frame conditions of the playback core

    The playback core reads the surroundings and never writes them; of the
    manager it only touches [syncMethod] (through the sync icon); it only
    ever adds to the trace, and never an invocation of [applyCommand]; and
    only [applyCommand] and [onPlaybackStop] write [lastCommand]. *)

Lemma session_frame_refl (w : World) : session_frame w w.
Proof.
  repeat split.
  - exists (syncMethod (mgr w)). destruct (mgr w); reflexivity.
  - exists []. split; [reflexivity | constructor].
Qed.

Lemma session_frame_trans (a b c : World) :
  session_frame a b -> session_frame b c -> session_frame a c.
Proof.
  intros (He & (sm & Hm) & (l & Hl & Fl)) (He' & (sm' & Hm') & (l' & Hl' & Fl')).
  repeat split; try congruence.
  - exists sm'. rewrite Hm', Hm. reflexivity.
  - exists (l' ++ l). split.
    + rewrite Hl', Hl. apply app_assoc.
    + apply Forall_app. split; assumption.
Qed.

Lemma core_frame_refl (w : World) : core_frame w w.
Proof. split; [apply session_frame_refl | reflexivity]. Qed.

Lemma core_frame_trans (a b c : World) :
  core_frame a b -> core_frame b c -> core_frame a c.
Proof.
  intros [H1 E1] [H2 E2]. split; [|congruence].
  eapply session_frame_trans; eassumption.
Qed.

Ltac frame_same :=
  unfold core_frame, session_frame; autorewrite with world;
  exact (core_frame_refl _).

Lemma core_frame_emit a w : coreAction a -> core_frame w (emit a w).
Proof.
  intros Ha. repeat split.
  - exists (syncMethod (mgr w)). cbn. destruct (mgr w); reflexivity.
  - exists [a]. split; [reflexivity | repeat constructor; exact Ha].
Qed.

Lemma core_frame_with_core f w :
  lastCommand (f (core w)) = lastCommand (core w) ->
  core_frame w (with_core f w).
Proof.
  intros H. split; [|exact H]. exact (session_frame_refl w).
Qed.

Lemma core_frame_with_mgr_syncMethod m w :
  core_frame w (with_mgr (m_syncMethod m) w).
Proof.
  repeat split; [exists m; reflexivity |].
  exists []. split; [reflexivity | constructor].
Qed.

Lemma core_frame_clearTimeout h w : core_frame w (clearTimeout h w).
Proof. frame_same. Qed.

Lemma core_frame_setTimeout cb d w id w1 :
  setTimeout cb d w = (id, w1) -> core_frame w w1.
Proof. intros H. inversion H. frame_same. Qed.

Lemma core_frame_waitForEventOnce ev t k kc w :
  core_frame w (waitForEventOnce ev t k kc w).
Proof. frame_same. Qed.

Create HintDb frame.

#[local] Hint Extern 0 (core_frame _ (clearTimeout _ _)) =>
  apply core_frame_clearTimeout : frame.
#[local] Hint Extern 0 (core_frame _ (waitForEventOnce _ _ _ _ _)) =>
  apply core_frame_waitForEventOnce : frame.
#[local] Hint Extern 0 (core_frame _ (with_mgr (m_syncMethod _) _)) =>
  apply core_frame_with_mgr_syncMethod : frame.
#[local] Hint Extern 1 (core_frame _ (emit _ _)) =>
  apply core_frame_emit; exact I : frame.
#[local] Hint Extern 1 (core_frame _ (with_core _ _)) =>
  apply core_frame_with_core; reflexivity : frame.

(** Walk down the body of a state-passing function: every intermediate
    world is named, and each operation is discharged by its own lemma. *)
Ltac frame :=
  lazymatch goal with
  | H : core_frame ?w0 ?x |- core_frame ?w0 ?x => exact H
  | |- core_frame ?w ?w => apply core_frame_refl
  | |- core_frame ?w0 (let x := ?a in @?g x) =>
      lazymatch type of a with
      | World =>
          let H := fresh "H" in
          let w1 := fresh "w" in
          assert (H : core_frame w0 a) by frame;
          change (core_frame w0 (g a)); revert H; generalize a;
          intros w1 H; cbv beta; frame
      | _ => change (core_frame w0 (g a)); cbv beta; frame
      end
  | |- core_frame ?w0 (match setTimeout ?cb ?d ?e with pair _ _ => _ end) =>
      let H := fresh "H" in
      let E := fresh "E" in
      let id := fresh "id" in
      let w1 := fresh "w" in
      assert (H : core_frame w0 e) by frame;
      destruct (setTimeout cb d e) as [id w1] eqn:E;
      apply core_frame_setTimeout in E;
      pose proof (core_frame_trans _ _ _ H E);
      frame
  | |- core_frame _ (if ?b then _ else _) => destruct b; frame
  | |- core_frame _ (match ?k with KUnpause => _ | _ => _ end) =>
      destruct k; frame
  | |- core_frame _ (match ?k with NoPlayer => _ | _ => _ end) =>
      destruct k; frame
  | |- core_frame _ (match ?k with Some _ => _ | None => _ end) =>
      destruct k; frame
  | |- core_frame _ (match ?k with pair _ _ => _ end) =>
      destruct k; frame
  | |- core_frame ?w0 (?f ?x) =>
      apply core_frame_trans with (b := x); [frame | solve [auto with frame]]
  end.

Lemma core_frame_clearSyncIcon w : core_frame w (clearSyncIcon w).
Proof. unfold clearSyncIcon. frame. Qed.

Lemma core_frame_showSyncIcon m w : core_frame w (showSyncIcon m w).
Proof. unfold showSyncIcon. frame. Qed.

Lemma core_frame_localUnpause w : core_frame w (localUnpause w).
Proof. unfold localUnpause. frame. Qed.

Lemma core_frame_localPause w : core_frame w (localPause w).
Proof. unfold localPause. frame. Qed.

Lemma core_frame_localSeek p w : core_frame w (localSeek p w).
Proof. unfold localSeek. frame. Qed.

Lemma core_frame_localStop w : core_frame w (localStop w).
Proof. unfold localStop. frame. Qed.

Lemma core_frame_sendBufferingRequest b w :
  core_frame w (sendBufferingRequest b w).
Proof. unfold sendBufferingRequest. frame. Qed.

#[local] Hint Extern 0 (core_frame _ (clearSyncIcon _)) =>
  apply core_frame_clearSyncIcon : frame.
#[local] Hint Extern 0 (core_frame _ (showSyncIcon _ _)) =>
  apply core_frame_showSyncIcon : frame.
#[local] Hint Extern 0 (core_frame _ (localUnpause _)) =>
  apply core_frame_localUnpause : frame.
#[local] Hint Extern 0 (core_frame _ (localPause _)) =>
  apply core_frame_localPause : frame.
#[local] Hint Extern 0 (core_frame _ (localSeek _ _)) =>
  apply core_frame_localSeek : frame.
#[local] Hint Extern 0 (core_frame _ (localStop _)) =>
  apply core_frame_localStop : frame.
#[local] Hint Extern 0 (core_frame _ (sendBufferingRequest _ _)) =>
  apply core_frame_sendBufferingRequest : frame.

Lemma core_frame_clearScheduledCommand w :
  core_frame w (clearScheduledCommand w).
Proof. unfold clearScheduledCommand. frame. Qed.

#[local] Hint Extern 0 (core_frame _ (clearScheduledCommand _)) =>
  apply core_frame_clearScheduledCommand : frame.

Lemma core_frame_pauseCallback p w : core_frame w (pauseCallback p w).
Proof. unfold pauseCallback. frame. Qed.

Lemma core_frame_stopCallback w : core_frame w (stopCallback w).
Proof. unfold stopCallback. frame. Qed.

Lemma core_frame_seekCallback p w : core_frame w (seekCallback p w).
Proof. unfold seekCallback. frame. Qed.

#[local] Hint Extern 0 (core_frame _ (pauseCallback _ _)) =>
  apply core_frame_pauseCallback : frame.
#[local] Hint Extern 0 (core_frame _ (stopCallback _)) =>
  apply core_frame_stopCallback : frame.
#[local] Hint Extern 0 (core_frame _ (seekCallback _ _)) =>
  apply core_frame_seekCallback : frame.

Lemma core_frame_scheduleUnpause t p w : core_frame w (scheduleUnpause t p w).
Proof. unfold scheduleUnpause. frame. Qed.

Lemma core_frame_schedulePause t p w : core_frame w (schedulePause t p w).
Proof. unfold schedulePause. frame. Qed.

Lemma core_frame_scheduleStop t w : core_frame w (scheduleStop t w).
Proof. unfold scheduleStop. frame. Qed.

Lemma core_frame_scheduleSeek t p w : core_frame w (scheduleSeek t p w).
Proof. unfold scheduleSeek. frame. Qed.

#[local] Hint Extern 0 (core_frame _ (scheduleUnpause _ _ _)) =>
  apply core_frame_scheduleUnpause : frame.
#[local] Hint Extern 0 (core_frame _ (schedulePause _ _ _)) =>
  apply core_frame_schedulePause : frame.
#[local] Hint Extern 0 (core_frame _ (scheduleStop _ _)) =>
  apply core_frame_scheduleStop : frame.
#[local] Hint Extern 0 (core_frame _ (scheduleSeek _ _ _)) =>
  apply core_frame_scheduleSeek : frame.

(** ** [applyCommand] *)

Lemma applyCommand_duplicate_frame (c : Command) (w : World) :
  isDuplicate (lastCommand (core w)) c = true ->
  core_frame w (applyCommand c w).
Proof. intros H. unfold applyCommand. rewrite H. frame. Qed.

(** The part of [applyCommand] after [this.lastCommand = command]. *)
Lemma applyCommand_fresh_frame (c : Command) (w : World) :
  isDuplicate (lastCommand (core w)) c = false ->
  core_frame (with_core (c_lastCommand (Some c)) w) (applyCommand c w).
Proof.
  intros H. unfold applyCommand. rewrite H.
  generalize (with_core (c_lastCommand (Some c)) w). intros w1.
  cbv zeta. frame.
Qed.

(** A command that is not a duplicate becomes [lastCommand]. *)
Lemma applyCommand_fresh_lastCommand (c : Command) (w : World) :
  isDuplicate (lastCommand (core w)) c = false ->
  lastCommand (core (applyCommand c w)) = Some c.
Proof.
  intros H. destruct (applyCommand_fresh_frame c w H) as [_ E].
  rewrite E. reflexivity.
Qed.

Lemma applyCommand_session_frame (c : Command) (w : World) :
  session_frame w (applyCommand c w).
Proof.
  destruct (isDuplicate (lastCommand (core w)) c) eqn:H.
  - apply applyCommand_duplicate_frame, H.
  - apply session_frame_trans with (b := with_core (c_lastCommand (Some c)) w).
    + exact (session_frame_refl w).
    + apply applyCommand_fresh_frame, H.
Qed.

(** With a remote self-managed player a fresh command is only recorded. *)
Lemma applyCommand_remote_fresh (c : Command) (w : World) :
  isRemote w = true ->
  isDuplicate (lastCommand (core w)) c = false ->
  applyCommand c w = with_core (c_lastCommand (Some c)) w.
Proof.
  intros Hr Hd. unfold applyCommand. rewrite Hd. cbv zeta.
  unfold isRemote in *. cbn [with_core env]. rewrite Hr. reflexivity.
Qed.


(** ** [processCommand] *)

Lemma option_string_eqb_false (x y : option string) :
  x <> y -> option_eqb String.eqb x y = false.
Proof.
  intros H. destruct x as [a|], y as [b|]; cbn; try reflexivity.
  - apply String.eqb_neq. congruence.
  - congruence.
Qed.

Lemma option_string_eqb_true (x y : option string) :
  option_eqb String.eqb x y = true -> x = y.
Proof.
  destruct x as [a|], y as [b|]; cbn; try discriminate; try reflexivity.
  intros H. apply String.eqb_eq in H. congruence.
Qed.

Lemma parseCommand_EmittedAt c : EmittedAt (parseCommand c) = EmittedAt c.
Proof. unfold parseCommand. destruct (wire c); reflexivity. Qed.

Lemma parseCommand_PlaylistItemId c :
  PlaylistItemId (parseCommand c) = PlaylistItemId c.
Proof. unfold parseCommand. destruct (wire c); reflexivity. Qed.

Lemma processCommand_not_enabled (cmd : Command) (w : World) :
  syncPlayEnabledAt (mgr w) = None ->
  processCommand (Some cmd) w =
  emit (Console LDebug
          "SyncPlay processCommand: SyncPlay not enabled, ignoring command") w.
Proof. intros H. unfold processCommand. rewrite H. reflexivity. Qed.

Lemma processCommand_old (cmd : Command) (w : World) (t : Z) :
  syncPlayEnabledAt (mgr w) = Some t ->
  EmittedAt cmd < t ->
  processCommand (Some cmd) w =
  emit (Console LDebug "SyncPlay processCommand: ignoring old command") w.
Proof.
  intros H Hlt. unfold processCommand. rewrite H, parseCommand_EmittedAt.
  apply Z.ltb_lt in Hlt. rewrite Hlt. reflexivity.
Qed.

Lemma processCommand_queued (cmd : Command) (w : World) (t : Z) :
  syncPlayEnabledAt (mgr w) = Some t ->
  t <= EmittedAt cmd ->
  syncPlayReady (mgr w) = false ->
  processCommand (Some cmd) w =
  with_mgr (m_queuedCommand (Some (parseCommand cmd)))
    (emit (Console LDebug
             "SyncPlay processCommand: SyncPlay not ready, queued command") w).
Proof.
  intros H Hle Hr. unfold processCommand. rewrite H, parseCommand_EmittedAt.
  apply Z.ltb_ge in Hle. rewrite Hle, Hr. reflexivity.
Qed.

Lemma processCommand_no_player (cmd : Command) (w : World) (t : Z) :
  syncPlayEnabledAt (mgr w) = Some t ->
  t <= EmittedAt cmd ->
  syncPlayReady (mgr w) = true ->
  isPlaybackActive w = false ->
  processCommand (Some cmd) w =
  emit (Console LDebug "SyncPlay processCommand: no active player!")
    (with_mgr (m_lastPlaybackCommand (Some (parseCommand cmd))) w).
Proof.
  intros H Hle Hr Ha. unfold processCommand. rewrite H, parseCommand_EmittedAt.
  apply Z.ltb_ge in Hle. rewrite Hle, Hr. cbn [negb].
  unfold isPlaybackActive in *. cbn [with_mgr env]. rewrite Ha. reflexivity.
Qed.

Lemma processCommand_mismatch_eq (cmd : Command) (w : World) (t : Z) :
  syncPlayEnabledAt (mgr w) = Some t ->
  t <= EmittedAt cmd ->
  syncPlayReady (mgr w) = true ->
  isPlaybackActive w = true ->
  PlaylistItemId cmd <> currentPlaylistItemId (env w) ->
  processCommand (Some cmd) w =
  emit (Console LWarn "SyncPlay processCommand: playlist item does not match!")
    (with_mgr (m_lastPlaybackCommand (Some (parseCommand cmd))) w).
Proof.
  intros H Hle Hr Ha Hne. unfold processCommand.
  rewrite H, parseCommand_EmittedAt, parseCommand_PlaylistItemId.
  apply Z.ltb_ge in Hle. rewrite Hle, Hr. cbn [negb].
  unfold isPlaybackActive in *. cbn [with_mgr env]. rewrite Ha.
  rewrite (option_string_eqb_false _ _ Hne). reflexivity.
Qed.

Lemma processCommand_applied (cmd : Command) (w : World) (t : Z) :
  syncPlayEnabledAt (mgr w) = Some t ->
  t <= EmittedAt cmd ->
  syncPlayReady (mgr w) = true ->
  isPlaybackActive w = true ->
  PlaylistItemId cmd = currentPlaylistItemId (env w) ->
  processCommand (Some cmd) w =
  applyCommand (parseCommand cmd)
    (emit (Call_applyCommand (parseCommand cmd))
       (emit (Console LLog "SyncPlay will")
          (with_mgr (m_lastPlaybackCommand (Some (parseCommand cmd))) w))).
Proof.
  intros H Hle Hr Ha He. unfold processCommand.
  rewrite H, parseCommand_EmittedAt, parseCommand_PlaylistItemId.
  apply Z.ltb_ge in Hle. rewrite Hle, Hr. cbn [negb].
  unfold isPlaybackActive in *. cbn [with_mgr env]. rewrite Ha, He.
  rewrite option_eqb_refl by apply String.eqb_refl. reflexivity.
Qed.

(** The six ways through [processCommand] for a command. *)
Lemma processCommand_cases (cmd : Command) (w : World) :
  (syncPlayEnabledAt (mgr w) = None)
  \/ (exists t, syncPlayEnabledAt (mgr w) = Some t /\ EmittedAt cmd < t)
  \/ (exists t, syncPlayEnabledAt (mgr w) = Some t /\ t <= EmittedAt cmd
                /\ syncPlayReady (mgr w) = false)
  \/ (exists t, syncPlayEnabledAt (mgr w) = Some t /\ t <= EmittedAt cmd
                /\ syncPlayReady (mgr w) = true /\ isPlaybackActive w = false)
  \/ (exists t, syncPlayEnabledAt (mgr w) = Some t /\ t <= EmittedAt cmd
                /\ syncPlayReady (mgr w) = true /\ isPlaybackActive w = true
                /\ PlaylistItemId cmd <> currentPlaylistItemId (env w))
  \/ (exists t, syncPlayEnabledAt (mgr w) = Some t /\ t <= EmittedAt cmd
                /\ syncPlayReady (mgr w) = true /\ isPlaybackActive w = true
                /\ PlaylistItemId cmd = currentPlaylistItemId (env w)).
Proof.
  destruct (syncPlayEnabledAt (mgr w)) as [t|]; [right | left; reflexivity].
  destruct (Z.lt_ge_cases (EmittedAt cmd) t) as [Hlt|Hge];
    [left; exists t; auto | right].
  destruct (syncPlayReady (mgr w)); [right | left; exists t; auto].
  destruct (isPlaybackActive w); [right | left; exists t; auto].
  destruct (option_eqb String.eqb (PlaylistItemId cmd)
              (currentPlaylistItemId (env w))) eqn:E.
  - right. exists t. apply option_string_eqb_true in E. auto.
  - left. exists t. repeat split; auto. intros Heq. rewrite Heq in E.
    rewrite option_eqb_refl in E by apply String.eqb_refl. discriminate.
Qed.

(** C10. [processCommand(null)] returns at once and changes nothing; hence
    the flush run when time sync completes, which passes the stored
    [queuedCommand] to [processCommand], only sets [syncPlayReady] when no
    command was queued. *)
Theorem processCommand_null_is_noop (w : World) :
  queuedCommand (mgr w) = None ->
  processCommand None w = w
  /\ runContinuation KReadyFlush w = with_mgr (m_syncPlayReady true) w.
Proof.
  intros Hq. split; [reflexivity|].
  unfold runContinuation. cbn [with_mgr mgr m_syncPlayReady queuedCommand].
  rewrite Hq. cbn [processCommand]. unfold with_mgr. cbn.
  destruct w as [e m c ts ws n tr]. cbn in *. destruct m. cbn in *.
  subst. reflexivity.
Qed.

Lemma processCommand_null_is_noop_witness :
  processCommand None (initialWorld (sampleEnv 0 false false)
                         (defaultCore true true true))
  = initialWorld (sampleEnv 0 false false) (defaultCore true true true)
  /\ runContinuation KReadyFlush
       (initialWorld (sampleEnv 0 false false) (defaultCore true true true))
     = with_mgr (m_syncPlayReady true)
         (initialWorld (sampleEnv 0 false false) (defaultCore true true true)).
Proof.
  apply (processCommand_null_is_noop
           (initialWorld (sampleEnv 0 false false) (defaultCore true true true))).
  reflexivity.
Defined.

(** C1, as stated, fails: the session is enabled and ready with an active
    player, the command names item "B" while "A" is current, and
    [lastPlaybackCommand] does not keep its previous value. *)
Lemma processCommand_mismatch_overwrites_lastPlaybackCommand :
  isSyncPlayEnabled readySession = true
  /\ syncPlayReady (mgr readySession) = true
  /\ isPlaybackActive readySession = true
  /\ PlaylistItemId (sampleCommand "Unpause" 5000 2000 "B")
     <> currentPlaylistItemId (env readySession)
  /\ lastPlaybackCommand
       (mgr (processCommand (Some (sampleCommand "Unpause" 5000 2000 "B"))
               readySession))
     <> lastPlaybackCommand (mgr readySession).
Proof. vm_compute. repeat split; discriminate. Qed.

(** C1, amended.  For a session that is enabled, ready and has an active
    player, a command not older than the enable time whose PlaylistItemId
    differs from the current playlist item id is dropped with a warning:
    [applyCommand] is not invoked and nothing changes except that
    [lastPlaybackCommand] is set to the command. *)
Theorem processCommand_mismatch_dropped (cmd : Command) (w : World) (t : Z) :
  syncPlayEnabledAt (mgr w) = Some t ->
  t <= EmittedAt cmd ->
  syncPlayReady (mgr w) = true ->
  isPlaybackActive w = true ->
  PlaylistItemId cmd <> currentPlaylistItemId (env w) ->
  let w' := processCommand (Some cmd) w in
  mgr w' = m_lastPlaybackCommand (Some (parseCommand cmd)) (mgr w)
  /\ core w' = core w
  /\ timers w' = timers w
  /\ waiters w' = waiters w
  /\ nextId w' = nextId w
  /\ env w' = env w
  /\ trace w' =
     Console LWarn "SyncPlay processCommand: playlist item does not match!"
       :: trace w.
Proof.
  intros H Hle Hr Ha Hne w'. subst w'.
  rewrite (processCommand_mismatch_eq cmd w t H Hle Hr Ha Hne).
  repeat split.
Qed.

Lemma processCommand_mismatch_dropped_witness :
  let cmd := sampleCommand "Unpause" 5000 2000 "B" in
  let w' := processCommand (Some cmd) readySession in
  mgr w' = m_lastPlaybackCommand (Some (parseCommand cmd)) (mgr readySession)
  /\ core w' = core readySession
  /\ timers w' = timers readySession
  /\ waiters w' = waiters readySession
  /\ nextId w' = nextId readySession
  /\ env w' = env readySession
  /\ trace w' =
     Console LWarn "SyncPlay processCommand: playlist item does not match!"
       :: trace readySession.
Proof.
  apply (processCommand_mismatch_dropped
           (sampleCommand "Unpause" 5000 2000 "B") readySession 1000).
  - reflexivity.
  - vm_compute. discriminate.
  - reflexivity.
  - reflexivity.
  - vm_compute. discriminate.
Defined.

(** ** [enableSyncPlay] and [disableSyncPlay] *)

Lemma mgr_injectPlaybackManager (w : World) :
  syncPlayEnabledAt (mgr w) <> None ->
  mgr (injectPlaybackManager w) = m_pmSyncPlayEnabled true (mgr w).
Proof.
  intros H. unfold injectPlaybackManager, isSyncPlayEnabled.
  destruct (mgr w) as [sm gi ea r q f l pm] eqn:E. cbn in *.
  destruct ea; [|congruence]. cbn.
  destruct pm; cbn; rewrite ?E; reflexivity.
Qed.

Lemma mgr_enableSyncPlay (g : GroupInfo) (w : World) :
  mgr (enableSyncPlay g w) =
  mkManager (syncMethod (mgr w)) (Some g) (Some (LastUpdatedAt g)) false
    (queuedCommand (mgr w)) true (lastPlaybackCommand (mgr w)) true.
Proof.
  unfold enableSyncPlay.
  set (w1 := with_mgr (m_syncPlayEnabledAt _) _).
  assert (H1 : mgr (injectPlaybackManager w1)
               = m_pmSyncPlayEnabled true (mgr w1))
    by (apply mgr_injectPlaybackManager; discriminate).
  revert H1. generalize (injectPlaybackManager w1). intros w2 H2.
  cbv zeta.
  destruct (hasPlayerWrapper (env w2)), (enableWebRTC _);
    wsimp; rewrite H2; reflexivity.
Qed.

Ltac trace_prefix :=
  match goal with
  | |- exists l, ?t = l ++ ?t /\ _ => exists []
  | |- exists l, ?a :: ?t = l ++ ?t /\ _ => exists [a]
  | |- exists l, ?a :: ?b :: ?t = l ++ ?t /\ _ => exists [a; b]
  | |- exists l, ?a :: ?b :: ?c :: ?t = l ++ ?t /\ _ => exists [a; b; c]
  | |- exists l, ?a :: ?b :: ?c :: ?d :: ?t = l ++ ?t /\ _ =>
      exists [a; b; c; d]
  end.

Lemma disableSyncPlay_eq (w : World) :
  mgr (disableSyncPlay w) =
    mkManager (syncMethod (mgr w)) (groupInfo (mgr w)) None false None true
      None false
  /\ core (disableSyncPlay w) = c_syncEnabled false (core w)
  /\ timers (disableSyncPlay w) = timers w
  /\ waiters (disableSyncPlay w) = waiters w
  /\ env (disableSyncPlay w) = env w
  /\ (exists l, trace (disableSyncPlay w) = l ++ trace w
                /\ forallb (fun a => negb (isPlayerCommand a)) l = true).
Proof.
  unfold disableSyncPlay, restorePlaybackManager, isSyncPlayEnabled.
  cbn [with_mgr with_core emit mgr core env timers waiters trace
       m_syncPlayEnabledAt m_syncPlayReady m_followingGroupPlayback
       m_lastPlaybackCommand m_queuedCommand syncPlayEnabledAt
       mgr_pmSyncPlayEnabled negb].
  destruct (mgr_pmSyncPlayEnabled (mgr w)) eqn:Epm,
           (hasPlayerWrapper (env w)) eqn:Ew;
    cbn; rewrite ?Ew; cbn; repeat split;
    try (destruct (mgr w); cbn in *; subst; reflexivity);
    trace_prefix; split; reflexivity.
Qed.

(** ** Which commands reach [applyCommand] *)

Lemma not_in_coreActions (c : Command) (l : list Action) :
  Forall coreAction l -> ~ In (Call_applyCommand c) l.
Proof.
  intros F Hin. rewrite Forall_forall in F. exact (F _ Hin).
Qed.

Lemma single_prefix (a : Action) (l t : list Action) :
  a :: t = l ++ t -> l = [a].
Proof. intros H. apply (app_inv_tail t). symmetry. exact H. Qed.

(** An invocation of [applyCommand] recorded by one call of
    [processCommand] is for the command just received, and the session
    was enabled no later than the command was emitted. *)
Lemma processCommand_applies_only_current (cmd c : Command) (w : World)
    (l : list Action) :
  trace (processCommand (Some cmd) w) = l ++ trace w ->
  In (Call_applyCommand c) l ->
  c = parseCommand cmd
  /\ exists t, syncPlayEnabledAt (mgr w) = Some t /\ t <= EmittedAt c.
Proof.
  intros Htr Hin.
  destruct (processCommand_cases cmd w)
    as [H | [(t & H & Hlt) | [(t & H & Hle & Hr) | [(t & H & Hle & Hr & Ha)
       | [(t & H & Hle & Hr & Ha & Hne) | (t & H & Hle & Hr & Ha & He)]]]]].
  - rewrite (processCommand_not_enabled _ _ H) in Htr. cbn in Htr.
    apply single_prefix in Htr. subst l. destruct Hin as [E|[]]; discriminate.
  - rewrite (processCommand_old _ _ _ H Hlt) in Htr. cbn in Htr.
    apply single_prefix in Htr. subst l. destruct Hin as [E|[]]; discriminate.
  - rewrite (processCommand_queued _ _ _ H Hle Hr) in Htr. cbn in Htr.
    apply single_prefix in Htr. subst l. destruct Hin as [E|[]]; discriminate.
  - rewrite (processCommand_no_player _ _ _ H Hle Hr Ha) in Htr. cbn in Htr.
    apply single_prefix in Htr. subst l. destruct Hin as [E|[]]; discriminate.
  - rewrite (processCommand_mismatch_eq _ _ _ H Hle Hr Ha Hne) in Htr.
    cbn in Htr.
    apply single_prefix in Htr. subst l. destruct Hin as [E|[]]; discriminate.
  - rewrite (processCommand_applied _ _ _ H Hle Hr Ha He) in Htr.
    destruct (applyCommand_session_frame (parseCommand cmd)
                (emit (Call_applyCommand (parseCommand cmd))
                   (emit (Console LLog "SyncPlay will")
                      (with_mgr (m_lastPlaybackCommand
                                   (Some (parseCommand cmd))) w))))
      as (_ & _ & (l' & Hl' & Fl')).
    rewrite Hl' in Htr. cbn [emit with_mgr trace] in Htr.
    change (l' ++ Call_applyCommand (parseCommand cmd)
                :: Console LLog "SyncPlay will" :: trace w)
      with (l' ++ [Call_applyCommand (parseCommand cmd);
                   Console LLog "SyncPlay will"] ++ trace w) in Htr.
    rewrite app_assoc in Htr. apply app_inv_tail in Htr. subst l.
    apply in_app_or in Hin. destruct Hin as [Hin | [E | [E | []]]].
    + exfalso. exact (not_in_coreActions _ _ Fl' Hin).
    + inversion E. subst c. split; [reflexivity|].
      exists t. rewrite parseCommand_EmittedAt. auto.
    + discriminate.
Qed.

(** C7. A command reaches [applyCommand] only if SyncPlay is enabled and
    the command was emitted no earlier than the enable time; a command that
    arrives while SyncPlay is disabled, or that was emitted before the
    enable time, is dropped with a debug message and no state change, also
    after [disableSyncPlay()] followed by [enableSyncPlay(groupInfo)]. *)
Theorem processCommand_enabled_guard (cmd : Command) (w : World) :
  (forall l c,
      trace (processCommand (Some cmd) w) = l ++ trace w ->
      In (Call_applyCommand c) l ->
      exists t, syncPlayEnabledAt (mgr w) = Some t /\ t <= EmittedAt c)
  /\ (syncPlayEnabledAt (mgr w) = None ->
      processCommand (Some cmd) w =
      emit (Console LDebug
              "SyncPlay processCommand: SyncPlay not enabled, ignoring command")
        w)
  /\ (forall t, syncPlayEnabledAt (mgr w) = Some t -> EmittedAt cmd < t ->
      processCommand (Some cmd) w =
      emit (Console LDebug "SyncPlay processCommand: ignoring old command") w)
  /\ (forall g, EmittedAt cmd < LastUpdatedAt g ->
      processCommand (Some cmd) (enableSyncPlay g (disableSyncPlay w)) =
      emit (Console LDebug "SyncPlay processCommand: ignoring old command")
        (enableSyncPlay g (disableSyncPlay w))).
Proof.
  repeat split.
  - intros l c Htr Hin.
    apply (processCommand_applies_only_current cmd c w l Htr Hin).
  - apply processCommand_not_enabled.
  - apply processCommand_old.
  - intros g Hlt. apply processCommand_old with (t := LastUpdatedAt g).
    + rewrite mgr_enableSyncPlay. reflexivity.
    + exact Hlt.
Qed.

Lemma processCommand_enabled_guard_witness :
  (exists t, syncPlayEnabledAt (mgr readySession) = Some t
             /\ t <= EmittedAt (parseCommand (sampleCommand "Unpause" 5000 2000 "A")))
  /\ processCommand (Some (sampleCommand "Unpause" 5000 2000 "A"))
       (initialWorld (sampleEnv 0 true false) (defaultCore true true true))
     = emit (Console LDebug
               "SyncPlay processCommand: SyncPlay not enabled, ignoring command")
         (initialWorld (sampleEnv 0 true false) (defaultCore true true true))
  /\ processCommand (Some (sampleCommand "Unpause" 5000 500 "A")) readySession
     = emit (Console LDebug "SyncPlay processCommand: ignoring old command")
         readySession
  /\ processCommand (Some (sampleCommand "Unpause" 5000 2000 "A"))
       (enableSyncPlay (sampleGroup 2500) (disableSyncPlay readySession))
     = emit (Console LDebug "SyncPlay processCommand: ignoring old command")
         (enableSyncPlay (sampleGroup 2500) (disableSyncPlay readySession)).
Proof.
  split; [|split; [|split]].
  - apply (proj1 (processCommand_enabled_guard
                    (sampleCommand "Unpause" 5000 2000 "A") readySession)
             [Console LDebug "Scheduled unpause"; Trigger "syncing";
              Call_applyCommand
                (parseCommand (sampleCommand "Unpause" 5000 2000 "A"));
              Console LLog "SyncPlay will"]).
    + vm_compute. reflexivity.
    + right. right. left. reflexivity.
  - apply (proj1 (proj2 (processCommand_enabled_guard
                    (sampleCommand "Unpause" 5000 2000 "A")
                    (initialWorld (sampleEnv 0 true false)
                       (defaultCore true true true))))).
    reflexivity.
  - apply (proj1 (proj2 (proj2 (processCommand_enabled_guard
                    (sampleCommand "Unpause" 5000 500 "A") readySession)))
             1000).
    + reflexivity.
    + vm_compute. reflexivity.
  - apply (proj2 (proj2 (proj2 (processCommand_enabled_guard
                    (sampleCommand "Unpause" 5000 2000 "A") readySession)))
             (sampleGroup 2500)).
    vm_compute. reflexivity.
Defined.

(** ** Leaving the group *)

(** C2, as stated, fails: an Unpause was scheduled for 5000, the group is
    left at 4000, the timer armed by [scheduleUnpause] is still pending after
    [disableSyncPlay()] and, when it fires, unpauses the player. *)
Lemma disableSyncPlay_leaves_scheduled_unpause_armed :
  let w := disableSyncPlay scheduledSession in
  let later := step (Surroundings (sampleEnv 5000 true false)) w in
  timers w = [mkTimer 2 5000 (CbScheduledUnpause (3000 # 2))]
  /\ trace (step (TimerFired 2) later)
     = Trigger "notify-osd" :: PmUnpause false :: trace w.
Proof. vm_compute. split; reflexivity. Qed.

(** C2, amended.  After [disableSyncPlay()] returns, [syncPlayEnabledAt],
    [lastPlaybackCommand] and [queuedCommand] are null, [syncPlayReady] is
    false, [followingGroupPlayback] is true and the playback core's
    [syncEnabled] is false, so every command received afterwards is
    dropped; [disableSyncPlay] itself issues no player command.  It cancels
    no timer and removes no awaited event: the pending timers and waiters,
    [groupInfo] and the playback core's [lastCommand] are left as they
    were. *)
Theorem disableSyncPlay_clears_session (w : World) :
  let w' := disableSyncPlay w in
  syncPlayEnabledAt (mgr w') = None
  /\ syncPlayReady (mgr w') = false
  /\ queuedCommand (mgr w') = None
  /\ lastPlaybackCommand (mgr w') = None
  /\ followingGroupPlayback (mgr w') = true
  /\ groupInfo (mgr w') = groupInfo (mgr w)
  /\ syncEnabled (core w') = false
  /\ lastCommand (core w') = lastCommand (core w)
  /\ timers w' = timers w
  /\ waiters w' = waiters w
  /\ (exists l, trace w' = l ++ trace w
                /\ forallb (fun a => negb (isPlayerCommand a)) l = true)
  /\ (forall cmd,
         processCommand (Some cmd) w' =
         emit (Console LDebug
                 "SyncPlay processCommand: SyncPlay not enabled, ignoring command")
           w').
Proof.
  intros w'. subst w'.
  destruct (disableSyncPlay_eq w) as (Hm & Hc & Ht & Hw & He & Htr).
  rewrite Hm, Hc, Ht, Hw.
  cbn [syncPlayEnabledAt syncPlayReady queuedCommand lastPlaybackCommand
       followingGroupPlayback groupInfo syncEnabled lastCommand c_syncEnabled].
  do 10 (split; [reflexivity|]).
  split; [exact Htr|].
  intros cmd. apply processCommand_not_enabled. rewrite Hm. reflexivity.
Qed.

(** ** Remote self-managed players *)

(** C3, evaluated where the code departs from it.  The player wrapper is
    remote, the Unpause already recorded as [lastCommand] is received again
    after its instant has passed, and [applyCommand] runs [scheduleUnpause]:
    the player is unpaused and two timers and an awaited event are armed. *)
Theorem applyCommand_remote_duplicate_drives_player :
  let c := parseCommand (sampleCommand "Unpause" 5000 2000 "A") in
  let w' := applyCommand c remoteSession in
  isRemote remoteSession = true
  /\ lastCommand (core remoteSession) = Some c
  /\ timers remoteSession = []
  /\ trace w' =
       [Console LDebug "SyncPlay scheduleUnpause: unpause now";
        PmUnpause false;
        Trigger "syncing";
        Console LDebug "SyncPlay applyCommand: duplicate command received!"]
       ++ trace remoteSession
  /\ map t_callback (timers w') = [CbNotifyOsdUnpause; CbEnableSync]
  /\ map w_then (waiters w') = [KSeek (Some 10000000%Q)].
Proof. vm_compute. repeat split. Qed.

(** ** Duplicate commands *)

(** C4. When [applyCommand] receives a command equal to [lastCommand] on
    When, PositionTicks, Command and PlaylistItemId while its local firing
    time is still in the future, nothing changes: no timer or awaited event
    is added, no player action is issued, and the state of the playback
    core is the one left by the first call; only two debug lines are
    logged. *)
Theorem applyCommand_duplicate_future_ignored (c : Command) (w : World) :
  isDuplicate (lastCommand (core w)) c = true ->
  now (env w) < remoteDateToLocal (env w) (When c) ->
  let w' := applyCommand c w in
  core w' = core w
  /\ mgr w' = mgr w
  /\ env w' = env w
  /\ timers w' = timers w
  /\ waiters w' = waiters w
  /\ nextId w' = nextId w
  /\ trace w' =
       [Console LDebug "SyncPlay applyCommand: command already scheduled.";
        Console LDebug "SyncPlay applyCommand: duplicate command received!"]
       ++ trace w.
Proof.
  intros Hdup Hfuture w'. subst w'.
  rewrite (applyCommand_duplicate_future c w Hdup Hfuture).
  cbn [emit core mgr env timers waiters nextId trace].
  do 6 (split; [reflexivity|]). reflexivity.
Qed.

Lemma applyCommand_duplicate_future_ignored_witness :
  let c := parseCommand (sampleCommand "Unpause" 5000 2000 "A") in
  let w' := applyCommand c scheduledSession in
  core w' = core scheduledSession
  /\ mgr w' = mgr scheduledSession
  /\ env w' = env scheduledSession
  /\ timers w' = timers scheduledSession
  /\ waiters w' = waiters scheduledSession
  /\ nextId w' = nextId scheduledSession
  /\ trace w' =
       [Console LDebug "SyncPlay applyCommand: command already scheduled.";
        Console LDebug "SyncPlay applyCommand: duplicate command received!"]
       ++ trace scheduledSession.
Proof.
  apply (applyCommand_duplicate_future_ignored
           (parseCommand (sampleCommand "Unpause" 5000 2000 "A"))
           scheduledSession).
  - vm_compute. reflexivity.
  - vm_compute. reflexivity.
Defined.

(** The second of two calls with the same command: after a first call that
    was not itself a duplicate, whatever the surroundings have become, a
    second call before the firing time only logs. *)
Lemma applyCommand_twice (c : Command) (w : World) (e' : Env) :
  isDuplicate (lastCommand (core w)) c = false ->
  now e' < remoteDateToLocal e' (When c) ->
  let w1 := with_env e' (applyCommand c w) in
  core (applyCommand c w1) = core w1
  /\ timers (applyCommand c w1) = timers w1
  /\ waiters (applyCommand c w1) = waiters w1.
Proof.
  intros Hfresh Hfuture w1.
  assert (Hdup : isDuplicate (lastCommand (core w1)) c = true).
  { subst w1. cbn [with_env core].
    rewrite (applyCommand_fresh_lastCommand c w Hfresh).
    apply isDuplicate_same. }
  rewrite (applyCommand_duplicate_future c w1 Hdup Hfuture).
  repeat split.
Qed.

(** ** Drift correction *)

Lemma diffMillisOf_with_core l f w :
  diffMillisOf l (with_core f w) = diffMillisOf l w.
Proof. reflexivity. Qed.

Lemma serverPositionTicksOf_with_core l f w :
  serverPositionTicksOf l (with_core f w) = serverPositionTicksOf l w.
Proof. reflexivity. Qed.

Lemma isPlaybackActive_with_core f w :
  isPlaybackActive (with_core f w) = isPlaybackActive w.
Proof. reflexivity. Qed.

#[local] Hint Rewrite diffMillisOf_with_core serverPositionTicksOf_with_core
  isPlaybackActive_with_core : world.

Ltac csimp :=
  repeat first
    [ progress autorewrite with world
    | progress cbn [env mgr core timers waiters nextId trace
                    emit setTimeout with_mgr with_core with_env
                    showSyncIcon clearSyncIcon fst snd
                    c_syncEnabled c_playbackDiffMillis c_syncAttempts
                    c_lastSyncTime c_lastPlaybackWaiting c_lastCommand
                    c_scheduledCommandTimeout c_syncTimeout c_notifyBuffering
                    c_currentPlayer c_localPlayerPlaybackRate
                    minDelaySpeedToSync maxDelaySpeedToSync speedToSyncDuration
                    minDelaySkipToSync useSpeedToSync useSkipToSync
                    enableSyncCorrection minBufferingThresholdMillis
                    currentPlayer localPlayerPlaybackRate syncEnabled
                    playbackDiffMillis syncAttempts lastSyncTime
                    lastPlaybackWaiting lastCommand scheduledCommandTimeout
                    syncTimeout notifyBuffering
                    m_syncMethod syncMethod] ].

Lemma syncPlaybackTime_speedToSync (l : Command) (w : World) :
  correctionDue l w ->
  speedToSyncChosen l w = true ->
  let speed := speedFor (speedToSyncDuration (core w)) (diffMillisOf l w) in
  let w' := syncPlaybackTime w in
  trace w' =
    [Console LLog "SyncPlay SpeedToSync"; Trigger "syncing";
     SetPlaybackRate speed]
    ++ (if Qle_bool speed 0
        then [Console LError "SyncPlay error: speed should not be negative!"]
        else [])
    ++ trace w
  /\ syncEnabled (core w') = false
  /\ syncAttempts (core w') = S (syncAttempts (core w))
  /\ syncMethod (mgr w') = MethodSpeedToSync speed
  /\ timers w' =
     timers w ++
       [mkTimer (nextId w)
          (inject_Z (now (env w))
           + speedToSyncTimeFor (speedToSyncDuration (core w))
               (diffMillisOf l w))%Q
          CbSpeedToSyncDone].
Proof.
  intros (Ha & Hl & Hn & Hb & He & Hs & Hc) Hsp speed w'. subst speed w'.
  unfold speedToSyncChosen in Hsp.
  unfold syncPlaybackTime. rewrite Ha, Hl, Hn, Hb, He.
  cbn [negb String.eqb Ascii.eqb Bool.eqb orb]. cbv zeta.
  unfold playbackRateSupported in *. csimp.
  rewrite Hs, Hc. cbn [andb]. rewrite Hsp.
  destruct (Qle_bool _ 0); csimp; repeat split.
Qed.

Lemma syncPlaybackTime_skipToSync (l : Command) (w : World) :
  correctionDue l w ->
  skipToSyncChosen l w = true ->
  let w' := syncPlaybackTime w in
  trace w' =
    [Console LLog "SyncPlay SkipToSync"; Trigger "syncing";
     PmSeek (pm_syncPlayEnabled (env w)) (Some (serverPositionTicksOf l w))]
    ++ trace w
  /\ syncEnabled (core w') = false
  /\ syncAttempts (core w') = S (syncAttempts (core w))
  /\ syncMethod (mgr w') = MethodSkipToSync (S (syncAttempts (core w)))
  /\ timers w' =
     timers w ++
       [mkTimer (nextId w)
          (inject_Z (now (env w)) + maxDelaySpeedToSync (core w) / 2)%Q
          CbSkipToSyncDone].
Proof.
  intros (Ha & Hl & Hn & Hb & He & Hs & Hc) Hsk w'. subst w'.
  unfold skipToSyncChosen, speedToSyncChosen in Hsk.
  apply andb_prop in Hsk. destruct Hsk as [Hsk Hmin].
  apply andb_prop in Hsk. destruct Hsk as [Hnot Huse].
  apply negb_true_iff in Hnot.
  unfold syncPlaybackTime. rewrite Ha, Hl, Hn, Hb, He.
  cbn [negb String.eqb Ascii.eqb Bool.eqb orb]. cbv zeta.
  unfold playbackRateSupported in *. csimp.
  rewrite Hs, Hc. cbn [andb]. rewrite Hnot, Huse, Hmin. cbn [andb].
  unfold localSeek. csimp. rewrite Ha. cbn [negb]. csimp.
  repeat split.
Qed.

Lemma syncPlaybackTime_inSync (l : Command) (w : World) :
  correctionDue l w ->
  speedToSyncChosen l w = false ->
  skipToSyncChosen l w = false ->
  let w' := syncPlaybackTime w in
  filter isPlayerCommand (trace w') = filter isPlayerCommand (trace w)
  /\ syncEnabled (core w') = true
  /\ syncAttempts (core w') = 0%nat
  /\ syncMethod (mgr w') = syncMethod (mgr w)
  /\ timers w' = timers w.
Proof.
  intros (Ha & Hl & Hn & Hb & He & Hs & Hc) Hsp Hsk w'. subst w'.
  unfold skipToSyncChosen in Hsk. rewrite Hsp in Hsk. cbn [negb andb] in Hsk.
  unfold speedToSyncChosen in Hsp.
  unfold syncPlaybackTime. rewrite Ha, Hl, Hn, Hb, He.
  cbn [negb String.eqb Ascii.eqb Bool.eqb orb]. cbv zeta.
  unfold playbackRateSupported in *. csimp.
  rewrite Hs, Hc. cbn [andb]. rewrite Hsp, Hsk.
  destruct (0 <? Z.of_nat (syncAttempts (core w))); csimp;
    cbn [filter isPlayerCommand]; rewrite ?Hs;
    do 4 (split; [reflexivity|]); reflexivity.
Qed.

(** ** The SpeedToSync rate *)

Lemma Qle_bool_false_iff (x y : Q) : Qle_bool x y = false <-> (y < x)%Q.
Proof.
  rewrite <- Qlt_bool_iff. unfold Qlt_bool.
  destruct (Qle_bool x y); cbn; intuition congruence.
Qed.

(** ** Binary64 rounding *)

Lemma pow2_pos (k : Z) : (0 < 2 ^ k)%Q.
Proof. apply Qpower_0_lt. reflexivity. Qed.

Lemma pow2_le (j k : Z) : j <= k -> (2 ^ j <= 2 ^ k)%Q.
Proof. intros H. apply Qpower_le_compat_l; [exact H | discriminate]. Qed.

Lemma pow2_Z (k : Z) : 0 <= k -> (inject_Z (2 ^ k) == 2 ^ k)%Q.
Proof. intros H. apply (Zpower_Qpower 2 k H). Qed.

Lemma pow2_succ (k : Z) : (2 ^ (k + 1) == 2 ^ k * 2)%Q.
Proof. rewrite Qpower_plus by discriminate. reflexivity. Qed.

(** [ilog2] brackets a positive rational between two powers of two. *)
Lemma ilog2_rough (x : Q) :
  (0 < x)%Q ->
  let k := Z.log2 (Qnum x) - Z.log2 (Zpos (Qden x)) in
  (2 ^ (k - 1) <= x)%Q /\ (x < 2 ^ (k + 1))%Q.
Proof.
  destruct x as [n d]. intros Hx k. cbn [Qnum Qden] in k.
  assert (Hn : 0 < n) by (unfold Qlt in Hx; cbn in Hx; lia).
  destruct (Z.log2_spec n Hn) as [Hn1 Hn2].
  destruct (Z.log2_spec (Zpos d) (Pos2Z.is_pos d)) as [Hd1 Hd2].
  pose proof (Z.log2_nonneg n) as Han.
  pose proof (Z.log2_nonneg (Zpos d)) as Hbn.
  set (a := Z.log2 n) in *. set (b := Z.log2 (Zpos d)) in *.
  assert (Qn1 : (2 ^ a <= inject_Z n)%Q).
  { rewrite <- pow2_Z by exact Han. rewrite <- Zle_Qle. exact Hn1. }
  assert (Qn2 : (inject_Z n < 2 ^ (a + 1))%Q).
  { rewrite <- pow2_Z by lia. rewrite <- Zlt_Qlt. fold (Z.succ a). exact Hn2. }
  assert (Qd1 : (2 ^ b <= inject_Z (Zpos d))%Q).
  { rewrite <- pow2_Z by exact Hbn. rewrite <- Zle_Qle. exact Hd1. }
  assert (Qd2 : (inject_Z (Zpos d) < 2 ^ (b + 1))%Q).
  { rewrite <- pow2_Z by lia. rewrite <- Zlt_Qlt. fold (Z.succ b). exact Hd2. }
  assert (Qd : (0 < inject_Z (Zpos d))%Q) by reflexivity.
  rewrite (Qmake_Qdiv n d). split.
  - apply Qle_shift_div_l; [exact Qd|].
    apply Qle_trans with (y := (2 ^ a)%Q); [|exact Qn1].
    replace (k - 1) with (a - (b + 1)) by (unfold k; lia).
    rewrite Qpower_minus by discriminate.
    assert (Hnz : ~ (2 ^ (b + 1) == 0)%Q).
    { intro H0. pose proof (pow2_pos (b + 1)) as Hp. rewrite H0 in Hp.
      discriminate. }
    setoid_replace (2 ^ a / 2 ^ (b + 1) * inject_Z (Zpos d))%Q
      with (2 ^ a * inject_Z (Zpos d) / 2 ^ (b + 1))%Q by (field; exact Hnz).
    apply Qle_shift_div_r; [apply pow2_pos|].
    apply Qmult_le_compat_nonneg.
    + split; [apply Qlt_le_weak, pow2_pos | apply Qle_refl].
    + split; [apply Qlt_le_weak, Qd | apply Qlt_le_weak, Qd2].
  - apply Qlt_shift_div_r; [exact Qd|].
    apply Qlt_le_trans with (y := (2 ^ (a + 1))%Q); [exact Qn2|].
    replace (a + 1) with ((k + 1) + b) by (unfold k; lia).
    rewrite Qpower_plus by discriminate.
    apply Qmult_le_compat_nonneg.
    + split; [apply Qlt_le_weak, pow2_pos | apply Qle_refl].
    + split; [apply Qlt_le_weak, pow2_pos | exact Qd1].
Qed.

Lemma ilog2_spec (x : Q) :
  (0 < x)%Q -> (2 ^ ilog2 x <= x)%Q /\ (x < 2 ^ (ilog2 x + 1))%Q.
Proof.
  intros Hx. destruct (ilog2_rough x Hx) as [Hlo Hhi].
  unfold ilog2.
  set (k := Z.log2 (Qnum x) - Z.log2 (Zpos (Qden x))) in *.
  destruct (Qle_bool (2 ^ k) x) eqn:E.
  - apply Qle_bool_iff in E. split; assumption.
  - split; [exact Hlo|].
    replace (k - 1 + 1) with k by lia.
    apply Qnot_le_lt. intro H. apply Qle_bool_iff in H. congruence.
Qed.

Lemma roundHalfEven_error (q : Q) :
  (Qabs (inject_Z (roundHalfEven q) - q) <= 1 # 2)%Q.
Proof.
  pose proof (Qfloor_le q) as Hlo. pose proof (Qlt_floor q) as Hhi.
  rewrite inject_Z_plus in Hhi. change (inject_Z 1) with 1%Q in Hhi.
  unfold roundHalfEven. set (f := Qfloor q) in *.
  assert (Hup : (inject_Z (f + 1) == inject_Z f + 1)%Q).
  { rewrite inject_Z_plus. reflexivity. }
  apply Qabs_Qle_condition.
  destruct (q - inject_Z f ?= 1 # 2)%Q eqn:E.
  - apply Qeq_alt in E.
    destruct (Z.even f); rewrite ?Hup; split; lra.
  - apply Qlt_alt in E. split; lra.
  - apply Qgt_alt in E. rewrite Hup. split; lra.
Qed.

(** In the normal range the rounding error is at most half a unit in the
    last place, that is [2^-53] of the value. *)
Lemma round64_error (x : Q) :
  (2 ^ (-1022) <= Qabs x)%Q ->
  (Qabs (round64 x - x) <= Qabs x * 2 ^ (-53))%Q.
Proof.
  intros Hx.
  assert (Hpos : (0 < Qabs x)%Q).
  { apply Qlt_le_trans with (y := (2 ^ (-1022))%Q); [apply pow2_pos | exact Hx]. }
  destruct (ilog2_spec (Qabs x) Hpos) as [Hlo Hhi].
  unfold round64, ulpExponent. set (k := ilog2 (Qabs x)) in *.
  assert (Hk : -1022 <= k).
  { destruct (Z_le_gt_dec (-1022) k) as [H|H]; [exact H|]. exfalso.
    apply (Qlt_irrefl (Qabs x)).
    apply Qlt_le_trans with (y := (2 ^ (k + 1))%Q); [exact Hhi|].
    apply Qle_trans with (y := (2 ^ (-1022))%Q); [apply pow2_le; lia | exact Hx]. }
  rewrite Z.max_l by lia.
  set (s := (2 ^ (k - 52))%Q).
  assert (Hs : (0 < s)%Q) by apply pow2_pos.
  pose proof (roundHalfEven_error (x / s)) as Hr.
  set (r := inject_Z (roundHalfEven (x / s))) in *.
  assert (E : (r * s - x == (r - x / s) * s)%Q).
  { field. intro H0. rewrite H0 in Hs. discriminate. }
  rewrite E, Qabs_Qmult, (Qabs_pos s) by (apply Qlt_le_weak; exact Hs).
  apply Qle_trans with (y := ((1 # 2) * s)%Q).
  - apply Qmult_le_compat_r; [exact Hr | apply Qlt_le_weak; exact Hs].
  - apply Qle_trans with (y := (2 ^ k * 2 ^ (-53))%Q).
    + unfold s. replace (k - 52) with (k + (-53) + 1) by lia.
      rewrite pow2_succ, Qpower_plus by discriminate.
      setoid_replace ((1 # 2) * (2 ^ k * 2 ^ (-53) * 2))%Q
        with (2 ^ k * 2 ^ (-53))%Q by ring.
      apply Qle_refl.
    + apply Qmult_le_compat_r; [exact Hlo | apply Qlt_le_weak, pow2_pos].
Qed.

Lemma round64_near (x : Q) :
  (minNormal64 <= Qabs x)%Q ->
  (Qabs (round64 x - x) <= Qabs x * u53)%Q.
Proof.
  intros Hx.
  assert (E : (2 ^ (-53) == u53)%Q) by (vm_compute; reflexivity).
  rewrite <- E. apply round64_error.
  assert (E2 : (2 ^ (-1022) == minNormal64)%Q) by (vm_compute; reflexivity).
  rewrite E2. exact Hx.
Qed.

Lemma round64_pos (x : Q) :
  (minNormal64 <= x)%Q ->
  (x * (1 - u53) <= round64 x)%Q /\ (round64 x <= x * (1 + u53))%Q.
Proof.
  intros Hx.
  assert (H0 : (0 <= x)%Q) by (unfold minNormal64 in Hx; lra).
  assert (Ha : (Qabs x == x)%Q) by (apply Qabs_pos; exact H0).
  assert (Hn : (minNormal64 <= Qabs x)%Q) by (rewrite Ha; exact Hx).
  pose proof (round64_near x Hn) as H. rewrite Ha in H.
  apply Qabs_Qle_condition in H. unfold u53 in *. split; lra.
Qed.

Lemma round64_neg (x : Q) :
  (x <= - minNormal64)%Q ->
  (x * (1 + u53) <= round64 x)%Q /\ (round64 x <= x * (1 - u53))%Q.
Proof.
  intros Hx.
  assert (H0 : (x <= 0)%Q) by (unfold minNormal64 in Hx; lra).
  assert (Ha : (Qabs x == - x)%Q) by (apply Qabs_neg; exact H0).
  assert (Hn : (minNormal64 <= Qabs x)%Q) by (rewrite Ha; lra).
  pose proof (round64_near x Hn) as H. rewrite Ha in H.
  apply Qabs_Qle_condition in H. unfold u53 in *. split; lra.
Qed.

Lemma MinSpeed64_value :
  MinSpeed64 = 7205759403792794 # 72057594037927936.
Proof. vm_compute. reflexivity. Qed.

Lemma one_minus_MinSpeed64_value :
  sub64 1 MinSpeed64 = 8106479329266893 # 9007199254740992.
Proof. vm_compute. reflexivity. Qed.

(** The threshold [-speedToSyncTime * MinSpeed] is negative and within one
    rounding of [-T / 10]. *)
Lemma threshold64_bounds (T : Q) :
  (0 < T)%Q -> inRange64 T ->
  let p := mul64 (- T) MinSpeed64 in
  (- T * (7205759403792794 # 72057594037927936) * (1 + u53) <= p)%Q
  /\ (p <= - T * (7205759403792794 # 72057594037927936) * (1 - u53))%Q.
Proof.
  intros HT [Hlo Hhi] p.
  rewrite (Qabs_pos T) in Hlo, Hhi by lra.
  unfold p, mul64. rewrite MinSpeed64_value.
  apply round64_neg. unfold rangeMin64, minNormal64 in *. lra.
Qed.

Lemma speed64_expanded_bound (T d : Q) :
  (0 < T)%Q -> inRange64 T -> inRange64 d ->
  (d <= mul64 (- T) MinSpeed64)%Q ->
  ((1 # 10) - (1 # 1000000000000000)
   <= add64 1 (div64 d (div64 (Qabs d) (sub64 1 MinSpeed64))))%Q.
Proof.
  intros HT HRT HRd Hle.
  pose proof (threshold64_bounds T HT HRT) as [_ Hp]. cbv zeta in Hp.
  destruct HRT as [HT1 HT2]. destruct HRd as [Hd1 Hd2].
  rewrite (Qabs_pos T) in HT1, HT2 by lra.
  unfold rangeMin64, rangeMax64 in HT1, HT2, Hd1, Hd2.
  set (p := mul64 (- T) MinSpeed64) in *.
  unfold u53 in Hp.
  assert (Hneg : (d < 0)%Q) by lra.
  assert (HA : (Qabs d == - d)%Q) by (apply Qabs_neg; lra).
  rewrite one_minus_MinSpeed64_value.
  unfold add64, div64.
  set (A := Qabs d) in *.
  set (z := (A / (8106479329266893 # 9007199254740992))%Q).
  assert (Hz : (z * (8106479329266893 # 9007199254740992) == A)%Q).
  { unfold z. field. }
  destruct (round64_pos z) as [Hz1 Hz2]; [unfold minNormal64 in *; lra|].
  set (T' := round64 z) in *.
  unfold u53 in Hz1, Hz2.
  assert (HT' : (0 < T')%Q) by lra.
  assert (HT'nz : ~ (T' == 0)%Q) by lra.
  assert (Hy : (d / T' == - (A / T'))%Q).
  { setoid_replace d with (- A)%Q by lra. field. exact HT'nz. }
  assert (Hr1 : (A / T'
                 <= (8106479329266893 # 9007199254740992)
                    * (9007199254740992 # 9007199254740991))%Q).
  { apply Qle_shift_div_r; [exact HT' | lra]. }
  assert (Hr2 : ((8 # 10) <= A / T')%Q).
  { apply Qle_shift_div_l; [exact HT' | lra]. }
  destruct (round64_neg (d / T')) as [Hq1 _]; [rewrite Hy; unfold minNormal64 in *; lra|].
  rewrite Hy in Hq1 at 1. unfold u53 in Hq1.
  set (q := round64 (d / T')) in *.
  destruct (round64_pos (1 + q)) as [Hs _]; [unfold minNormal64 in *; lra|].
  unfold u53 in Hs. lra.
Qed.

Lemma speed64_plain_bound (T d : Q) :
  (0 < T)%Q -> inRange64 T -> inRange64 d ->
  (mul64 (- T) MinSpeed64 < d)%Q ->
  ((8 # 10) <= add64 1 (div64 d T))%Q.
Proof.
  intros HT HRT HRd Hlt.
  pose proof (threshold64_bounds T HT HRT) as [Hp _]. cbv zeta in Hp.
  destruct HRT as [HT1 HT2]. destruct HRd as [Hd1 Hd2].
  rewrite (Qabs_pos T) in HT1, HT2 by lra.
  unfold rangeMin64, rangeMax64 in HT1, HT2, Hd1, Hd2.
  set (p := mul64 (- T) MinSpeed64) in *.
  unfold u53 in Hp. unfold add64, div64.
  destruct (Qlt_le_dec 0 d) as [Hpos | Hneg].
  - rewrite (Qabs_pos d) in Hd1, Hd2 by lra.
    assert (Hy : (minNormal64 <= d / T)%Q).
    { apply Qle_shift_div_l; [exact HT | unfold minNormal64 in *; lra]. }
    destruct (round64_pos (d / T) Hy) as [Hq _]. unfold u53 in Hq.
    set (q := round64 (d / T)) in *.
    destruct (round64_pos (1 + q)) as [Hs _]; [unfold minNormal64 in *; lra|].
    unfold u53 in Hs. unfold minNormal64 in *. lra.
  - rewrite (Qabs_neg d) in Hd1, Hd2 by lra.
    assert (Hy1 : (d / T <= - minNormal64)%Q).
    { apply Qle_shift_div_r; [exact HT | unfold minNormal64 in *; lra]. }
    assert (Hy2 : (- (11 # 100) < d / T)%Q).
    { apply Qlt_shift_div_l; [exact HT | lra]. }
    destruct (round64_neg (d / T) Hy1) as [Hq _]. unfold u53 in Hq.
    set (q := round64 (d / T)) in *.
    destruct (round64_pos (1 + q)) as [Hs _]; [unfold minNormal64 in *; lra|].
    unfold u53 in Hs. unfold minNormal64 in *. lra.
Qed.

(** C9. The rate of the SpeedToSync branch as binary64 computes it: it is
    [1 + diff / T] with [T = speedToSyncDuration], each operation rounded,
    except that for [diff <= -T * 0.1] the duration is first expanded to
    [|diff| / (1 - 0.1)].  For a positive [speedToSyncDuration], and
    magnitudes between [2^-500] and [2^500], the rate is positive and at
    least [0.1 - 10^-15]; it is at least [0.8] when the duration is not
    expanded. *)
Theorem speedToSync_rate_near_MinSpeed (T d : Q) :
  (0 < T)%Q -> inRange64 T -> inRange64 d ->
  let threshold := mul64 (- T) MinSpeed64 in
  ((threshold < d)%Q ->
   speed64 T d = add64 1 (div64 d T) /\ (8 # 10 <= speed64 T d)%Q)
  /\ ((d <= threshold)%Q ->
      speed64 T d
      = add64 1 (div64 d (div64 (Qabs d) (sub64 1 MinSpeed64))))
  /\ ((1 # 10) - (1 # 1000000000000000) <= speed64 T d)%Q
  /\ (0 < speed64 T d)%Q.
Proof.
  intros HT HRT HRd threshold.
  assert (Hplain : (threshold < d)%Q ->
                   speed64 T d = add64 1 (div64 d T)).
  { intros Hlt. unfold speed64, speedToSyncTime64. fold threshold.
    apply Qle_bool_false_iff in Hlt. rewrite Hlt. reflexivity. }
  assert (Hexp : (d <= threshold)%Q ->
                 speed64 T d
                 = add64 1 (div64 d (div64 (Qabs d) (sub64 1 MinSpeed64)))).
  { intros Hle. unfold speed64, speedToSyncTime64. fold threshold.
    apply Qle_bool_iff in Hle. rewrite Hle. reflexivity. }
  assert (Hlow : ((1 # 10) - (1 # 1000000000000000) <= speed64 T d)%Q).
  { destruct (Qlt_le_dec threshold d) as [Hlt | Hle].
    - rewrite (Hplain Hlt).
      pose proof (speed64_plain_bound T d HT HRT HRd Hlt) as H. lra.
    - rewrite (Hexp Hle). apply (speed64_expanded_bound T d); assumption. }
  split; [|split; [exact Hexp | split; [exact Hlow | lra]]].
  intros Hlt. split; [exact (Hplain Hlt)|].
  rewrite (Hplain Hlt). apply speed64_plain_bound; assumption.
Qed.

(** At the default duration of 1000 ms a player 300 ms ahead is given the
    rate 0.09999999999999998, below 0.1; a negative duration, which
    [loadPreferences] does not refuse, gives a negative rate; and at the
    smallest subnormal magnitudes the rate is 0. *)
Lemma speedToSync_rate_below_MinSpeed :
  (60 <= Qabs (-300))%Q /\ (Qabs (-300) < 3000)%Q
  /\ (speed64 1000 (-300) == 900719925474099 # 9007199254740992)%Q
  /\ (speed64 1000 (-300) < 1 # 10)%Q
  /\ (speed64 (-1000) 2000 == -1)%Q
  /\ (speed64 (2 ^ (-1074)) (- 2 ^ (-1074)) == 0)%Q.
Proof.
  split; [vm_compute; discriminate|].
  split; [vm_compute; reflexivity|].
  split; [vm_compute; reflexivity|].
  split; [vm_compute; reflexivity|].
  split; vm_compute; reflexivity.
Qed.

Lemma speedToSync_rate_near_MinSpeed_witness :
  speed64 1000 (-300)
  = add64 1 (div64 (-300) (div64 (Qabs (-300)) (sub64 1 MinSpeed64)))
  /\ ((1 # 10) - (1 # 1000000000000000) <= speed64 1000 (-300))%Q
  /\ (0 < speed64 1000 (-300))%Q.
Proof.
  destruct (speedToSync_rate_near_MinSpeed 1000 (-300)) as (_ & A & B & C).
  - reflexivity.
  - split; vm_compute; discriminate.
  - split; vm_compute; discriminate.
  - split; [|split; assumption].
    apply A. vm_compute. discriminate.
Defined.

Lemma filter_playerCommands_speed (r : Q) (e t : list Action) :
  (e = [] \/ exists m, e = [Console LError m]) ->
  filter isPlayerCommand
    ([Console LLog "SyncPlay SpeedToSync"; Trigger "syncing";
      SetPlaybackRate r] ++ e ++ t)
  = SetPlaybackRate r :: filter isPlayerCommand t.
Proof. intros [-> | [m ->]]; reflexivity. Qed.

(** C5. With drift correction due, the playback rate supported,
    [useSkipToSync] set and the thresholds 60 / 3000 / 400 ms: a diff of
    59 ms issues no player command and arms no timer; a diff of 60 ms calls
    [setPlaybackRate] (SpeedToSync); a diff of 3000 ms seeks to the
    estimated server position without changing the rate (SkipToSync); and
    with [useSpeedToSync] unset a diff of 400 ms seeks as well. *)
Theorem drift_correction_boundaries (l : Command) (w : World) :
  correctionDue l w ->
  playbackRateSupported (core w) = true ->
  useSkipToSync (core w) = true ->
  (minDelaySpeedToSync (core w) == 60)%Q ->
  (maxDelaySpeedToSync (core w) == 3000)%Q ->
  (minDelaySkipToSync (core w) == 400)%Q ->
  let d := diffMillisOf l w in
  let w' := syncPlaybackTime w in
  let seek := PmSeek (pm_syncPlayEnabled (env w))
                (Some (serverPositionTicksOf l w)) in
  (useSpeedToSync (core w) = true -> (d == 59)%Q ->
     filter isPlayerCommand (trace w') = filter isPlayerCommand (trace w)
     /\ timers w' = timers w
     /\ syncEnabled (core w') = true)
  /\ (useSpeedToSync (core w) = true -> (d == 60)%Q ->
      exists r,
        filter isPlayerCommand (trace w')
        = SetPlaybackRate r :: filter isPlayerCommand (trace w)
        /\ syncMethod (mgr w') = MethodSpeedToSync r)
  /\ (useSpeedToSync (core w) = true -> (d == 3000)%Q ->
      filter isPlayerCommand (trace w')
      = seek :: filter isPlayerCommand (trace w)
      /\ syncMethod (mgr w') = MethodSkipToSync (S (syncAttempts (core w))))
  /\ (useSpeedToSync (core w) = false -> (d == 400)%Q ->
      filter isPlayerCommand (trace w')
      = seek :: filter isPlayerCommand (trace w)
      /\ syncMethod (mgr w') = MethodSkipToSync (S (syncAttempts (core w)))).
Proof.
  intros Hdue Hrate Hskip Hmin Hmax Hminskip d w' seek.
  assert (Habs : forall x : Q, (0 <= x)%Q -> (d == x)%Q -> (Qabs d == x)%Q).
  { intros x Hx Hd. rewrite Hd. apply Qabs_pos. exact Hx. }
  assert (Hle : forall a b, (a <= b)%Q -> Qle_bool a b = true)
    by (intros a b; apply Qle_bool_iff).
  assert (Hgt : forall a b, (b < a)%Q -> Qle_bool a b = false)
    by (intros a b; apply Qle_bool_false_iff).
  split; [|split; [|split]].
  - intros Huse Hd. apply Habs in Hd; [|lra].
    assert (Hsp : speedToSyncChosen l w = false).
    { unfold speedToSyncChosen. fold d. rewrite Hrate, Huse.
      rewrite (Hgt (minDelaySpeedToSync (core w)) (Qabs d)) by lra.
      reflexivity. }
    assert (Hsk : skipToSyncChosen l w = false).
    { unfold skipToSyncChosen. fold d. rewrite Hsp, Hskip.
      rewrite (Hgt (minDelaySkipToSync (core w)) (Qabs d)) by lra.
      reflexivity. }
    destruct (syncPlaybackTime_inSync l w Hdue Hsp Hsk)
      as (Htr & Hen & _ & _ & Htm).
    auto.
  - intros Huse Hd. apply Habs in Hd; [|lra].
    assert (Hsp : speedToSyncChosen l w = true).
    { unfold speedToSyncChosen, Qlt_bool. fold d. rewrite Hrate, Huse.
      rewrite (Hle (minDelaySpeedToSync (core w)) (Qabs d)) by lra.
      rewrite (Hgt (maxDelaySpeedToSync (core w)) (Qabs d)) by lra.
      reflexivity. }
    destruct (syncPlaybackTime_speedToSync l w Hdue Hsp)
      as (Htr & _ & _ & Hm & _).
    eexists. split; [|exact Hm].
    unfold w'. cbv zeta in Htr. rewrite Htr. apply filter_playerCommands_speed.
    destruct (Qle_bool _ 0); [right; eexists; reflexivity | left; reflexivity].
  - intros Huse Hd. apply Habs in Hd; [|lra].
    assert (Hsk : skipToSyncChosen l w = true).
    { unfold skipToSyncChosen, speedToSyncChosen, Qlt_bool. fold d.
      rewrite Hrate, Huse, Hskip.
      rewrite (Hle (minDelaySpeedToSync (core w)) (Qabs d)) by lra.
      rewrite (Hle (maxDelaySpeedToSync (core w)) (Qabs d)) by lra.
      rewrite (Hle (minDelaySkipToSync (core w)) (Qabs d)) by lra.
      reflexivity. }
    destruct (syncPlaybackTime_skipToSync l w Hdue Hsk)
      as (Htr & _ & _ & Hm & _).
    unfold w'. cbv zeta in Htr. rewrite Htr. split; [reflexivity | exact Hm].
  - intros Huse Hd. apply Habs in Hd; [|lra].
    assert (Hsk : skipToSyncChosen l w = true).
    { unfold skipToSyncChosen, speedToSyncChosen. fold d.
      rewrite Hrate, Huse, Hskip.
      rewrite (Hle (minDelaySkipToSync (core w)) (Qabs d)) by lra.
      reflexivity. }
    destruct (syncPlaybackTime_skipToSync l w Hdue Hsk)
      as (Htr & _ & _ & Hm & _).
    unfold w'. cbv zeta in Htr. rewrite Htr. split; [reflexivity | exact Hm].
Qed.

Lemma driftWorld_correctionDue (diff : Q) (useSpeed : bool) :
  correctionDue playingCommand (driftWorld diff useSpeed).
Proof. unfold correctionDue. repeat split. Qed.

Lemma drift_correction_boundaries_witness :
  (filter isPlayerCommand (trace (syncPlaybackTime (driftWorld 59 true))) = []
   /\ timers (syncPlaybackTime (driftWorld 59 true)) = []
   /\ syncEnabled (core (syncPlaybackTime (driftWorld 59 true))) = true)
  /\ (exists r,
        filter isPlayerCommand (trace (syncPlaybackTime (driftWorld 60 true)))
        = [SetPlaybackRate r]
        /\ syncMethod (mgr (syncPlaybackTime (driftWorld 60 true)))
           = MethodSpeedToSync r)
  /\ (filter isPlayerCommand (trace (syncPlaybackTime (driftWorld 3000 true)))
      = [PmSeek false
           (Some (serverPositionTicksOf playingCommand (driftWorld 3000 true)))]
      /\ syncMethod (mgr (syncPlaybackTime (driftWorld 3000 true)))
         = MethodSkipToSync 1)
  /\ (filter isPlayerCommand (trace (syncPlaybackTime (driftWorld 400 false)))
      = [PmSeek false
           (Some (serverPositionTicksOf playingCommand (driftWorld 400 false)))]
      /\ syncMethod (mgr (syncPlaybackTime (driftWorld 400 false)))
         = MethodSkipToSync 1).
Proof.
  split; [|split; [|split]].
  - apply (proj1 (drift_correction_boundaries playingCommand
                    (driftWorld 59 true) (driftWorld_correctionDue _ _)
                    eq_refl eq_refl (Qeq_refl _) (Qeq_refl _) (Qeq_refl _))).
    + reflexivity.
    + vm_compute. reflexivity.
  - apply (proj1 (proj2 (drift_correction_boundaries playingCommand
                    (driftWorld 60 true) (driftWorld_correctionDue _ _)
                    eq_refl eq_refl (Qeq_refl _) (Qeq_refl _) (Qeq_refl _)))).
    + reflexivity.
    + vm_compute. reflexivity.
  - apply (proj1 (proj2 (proj2 (drift_correction_boundaries playingCommand
                    (driftWorld 3000 true) (driftWorld_correctionDue _ _)
                    eq_refl eq_refl (Qeq_refl _) (Qeq_refl _) (Qeq_refl _))))).
    + reflexivity.
    + vm_compute. reflexivity.
  - apply (proj2 (proj2 (proj2 (drift_correction_boundaries playingCommand
                    (driftWorld 400 false) (driftWorld_correctionDue _ _)
                    eq_refl eq_refl (Qeq_refl _) (Qeq_refl _) (Qeq_refl _))))).
    + reflexivity.
    + vm_compute. reflexivity.
Defined.

(** ** The session invariant *)

Lemma core_frame_syncPlaybackTime w : core_frame w (syncPlaybackTime w).
Proof. unfold syncPlaybackTime. frame. Qed.

#[local] Hint Extern 0 (core_frame _ (syncPlaybackTime _)) =>
  apply core_frame_syncPlaybackTime : frame.

Lemma core_frame_playerReports w :
  core_frame w (onTimeUpdate w) /\ core_frame w (onPlaying w)
  /\ core_frame w (onWaiting w) /\ core_frame w (onUnpause w)
  /\ core_frame w (onPause w) /\ core_frame w (onPlaybackStart w)
  /\ forall player, core_frame w (onPlayerChange player w).
Proof.
  unfold onTimeUpdate, onPlaying, onWaiting, onUnpause, onPause,
    onPlaybackStart.
  do 6 (split; [frame|]).
  intros [[[|] rate]|]; unfold onPlayerChange; frame.
Qed.

#[local] Hint Extern 0 (core_frame _ (onPlayerChange _ _)) =>
  apply core_frame_playerReports : frame.

Lemma session_frame_onPlaybackStop w : session_frame w (onPlaybackStop w).
Proof.
  apply session_frame_trans with (b := with_core (c_lastCommand None) w).
  - exact (session_frame_refl w).
  - unfold onPlaybackStop. cbv zeta.
    generalize (with_core (c_lastCommand None) w). intros w1.
    assert (H : core_frame w1
                  (releaseCurrentPlayer (emit (Trigger "playbackstop") w1)))
      by (unfold releaseCurrentPlayer; frame).
    apply H.
Qed.

Lemma session_frame_queued_not_ready (w w' : World) :
  session_frame w w' -> queued_not_ready w -> queued_not_ready w'.
Proof.
  intros (_ & (sm & Hm) & _) Hinv. unfold queued_not_ready in *.
  rewrite Hm. exact Hinv.
Qed.

Lemma session_frame_ready (w w' : World) :
  session_frame w w' -> syncPlayReady (mgr w') = syncPlayReady (mgr w).
Proof. intros (_ & (sm & Hm) & _). rewrite Hm. reflexivity. Qed.

Lemma processCommand_ready (cmd : option Command) (w : World) :
  syncPlayReady (mgr (processCommand cmd w)) = syncPlayReady (mgr w).
Proof.
  destruct cmd as [cmd|]; [|reflexivity].
  destruct (processCommand_cases cmd w)
    as [H | [(t & H & Hlt) | [(t & H & Hle & Hr) | [(t & H & Hle & Hr & Ha)
       | [(t & H & Hle & Hr & Ha & Hne) | (t & H & Hle & Hr & Ha & He)]]]]].
  - rewrite (processCommand_not_enabled _ _ H). reflexivity.
  - rewrite (processCommand_old _ _ _ H Hlt). reflexivity.
  - rewrite (processCommand_queued _ _ _ H Hle Hr). reflexivity.
  - rewrite (processCommand_no_player _ _ _ H Hle Hr Ha). reflexivity.
  - rewrite (processCommand_mismatch_eq _ _ _ H Hle Hr Ha Hne). reflexivity.
  - rewrite (processCommand_applied _ _ _ H Hle Hr Ha He).
    rewrite (session_frame_ready _ _ (applyCommand_session_frame _ _)).
    reflexivity.
Qed.

Lemma processCommand_queued_not_ready (cmd : option Command) (w : World) :
  queued_not_ready w -> queued_not_ready (processCommand cmd w).
Proof.
  intros Hinv. destruct cmd as [cmd|]; [|exact Hinv].
  destruct (processCommand_cases cmd w)
    as [H | [(t & H & Hlt) | [(t & H & Hle & Hr) | [(t & H & Hle & Hr & Ha)
       | [(t & H & Hle & Hr & Ha & Hne) | (t & H & Hle & Hr & Ha & He)]]]]].
  - rewrite (processCommand_not_enabled _ _ H). exact Hinv.
  - rewrite (processCommand_old _ _ _ H Hlt). exact Hinv.
  - rewrite (processCommand_queued _ _ _ H Hle Hr). intros _. exact Hr.
  - rewrite (processCommand_no_player _ _ _ H Hle Hr Ha). exact Hinv.
  - rewrite (processCommand_mismatch_eq _ _ _ H Hle Hr Ha Hne). exact Hinv.
  - rewrite (processCommand_applied _ _ _ H Hle Hr Ha He).
    eapply session_frame_queued_not_ready;
      [apply applyCommand_session_frame | exact Hinv].
Qed.

Lemma runContinuation_queued_not_ready (k : Continuation) (w : World) :
  queued_not_ready w -> queued_not_ready (runContinuation k w).
Proof.
  intros Hinv. destruct k.
  - intros Hq. exfalso. apply Hq. reflexivity.
  - eapply session_frame_queued_not_ready; [|exact Hinv].
    apply core_frame_localSeek.
  - eapply session_frame_queued_not_ready; [|exact Hinv].
    assert (H : core_frame w (runContinuation KPauseAndReport w))
      by (unfold runContinuation; frame).
    apply H.
  - eapply session_frame_queued_not_ready; [|exact Hinv].
    assert (H : core_frame w (runContinuation (KReseek positionTicks) w))
      by (unfold runContinuation; frame).
    apply H.
  - exact Hinv.
Qed.

Lemma clearTimeout_queued_not_ready (h : option nat) (w : World) :
  queued_not_ready w -> queued_not_ready (clearTimeout h w).
Proof. unfold queued_not_ready. rewrite mgr_clearTimeout. auto. Qed.

Lemma fold_queued_not_ready {A} (f : World -> A -> World) (l : list A) :
  (forall w x, queued_not_ready w -> queued_not_ready (f w x)) ->
  forall w, queued_not_ready w -> queued_not_ready (fold_left f l w).
Proof.
  intros Hf. induction l as [|x l IH]; intros w Hinv; cbn; auto.
Qed.

Lemma resolveWaiters_queued_not_ready (ev : EventName) (w : World) :
  queued_not_ready w -> queued_not_ready (resolveWaiters ev w).
Proof.
  intros Hinv. unfold resolveWaiters. cbv zeta.
  apply fold_queued_not_ready.
  - intros w1 x. apply runContinuation_queued_not_ready.
  - apply fold_queued_not_ready.
    + intros w1 x. apply clearTimeout_queued_not_ready.
    + exact Hinv.
Qed.

Lemma runCallback_queued_not_ready (cb : Callback) (w : World) :
  queued_not_ready w -> queued_not_ready (runCallback cb w).
Proof.
  intros Hinv.
  destruct cb;
    try (eapply session_frame_queued_not_ready; [|exact Hinv];
         match goal with
         | |- session_frame ?a ?b =>
             let H := fresh in
             assert (H : core_frame a b) by (unfold runCallback; frame);
             apply H
         end).
  unfold runCallback, rejectWaiter.
  destruct (find _ (waiters w)); [|exact Hinv].
  apply runContinuation_queued_not_ready. exact Hinv.
Qed.

Lemma step_queued_not_ready (ev : Event) (w : World) :
  queued_not_ready w -> queued_not_ready (step ev w).
Proof.
  intros Hinv.
  destruct (core_frame_playerReports w)
    as (Htu & Hpl & Hwa & Hun & Hpa & Hps & Hpc).
  destruct ev; cbn [step].
  - apply processCommand_queued_not_ready, Hinv.
  - intros _. rewrite mgr_enableSyncPlay. reflexivity.
  - intros _. destruct (disableSyncPlay_eq w) as (Hm & _). rewrite Hm.
    reflexivity.
  - exact Hinv.
  - apply resolveWaiters_queued_not_ready, Hinv.
  - unfold fireTimer. destruct (find _ (timers w)) as [t|]; [|exact Hinv].
    destruct (Qle_bool _ _); [|exact Hinv].
    apply runCallback_queued_not_ready. exact Hinv.
  - eapply session_frame_queued_not_ready; [apply Hpc | exact Hinv].
  - apply resolveWaiters_queued_not_ready.
    eapply session_frame_queued_not_ready; [apply Hun | exact Hinv].
  - apply resolveWaiters_queued_not_ready.
    eapply session_frame_queued_not_ready; [apply Hpa | exact Hinv].
  - apply resolveWaiters_queued_not_ready.
    eapply session_frame_queued_not_ready; [apply Hpl | exact Hinv].
  - eapply session_frame_queued_not_ready; [apply Hwa | exact Hinv].
  - eapply session_frame_queued_not_ready; [apply Htu | exact Hinv].
  - apply resolveWaiters_queued_not_ready.
    eapply session_frame_queued_not_ready; [apply Hps | exact Hinv].
  - eapply session_frame_queued_not_ready;
      [apply session_frame_onPlaybackStop | exact Hinv].
  - exact Hinv.
  - exact Hinv.
Qed.

Lemma reachable_queued_not_ready (w : World) :
  reachable w -> queued_not_ready w.
Proof.
  induction 1 as [e p | w ev Hr IH].
  - intros H. exfalso. apply H. reflexivity.
  - apply step_queued_not_ready, IH.
Qed.

Lemma reachable_run (es : list Event) (w : World) :
  reachable w -> reachable (run es w).
Proof.
  revert w. induction es as [|e es IH]; intros w H; cbn; [exact H|].
  apply IH. apply reach_step. exact H.
Qed.

(** ** The flush run when time sync completes *)

Lemma resolveWaiters_single (ev : EventName) (x : Waiter) (w : World) :
  filter (awaits ev) (waiters w) = [x] ->
  w_timer x = None ->
  resolveWaiters ev w =
  runContinuation (w_then x)
    (set_waiters (filter (fun y => negb (awaits ev y)) (waiters w)) w).
Proof.
  intros Hhit Ht. unfold resolveWaiters. cbv zeta.
  rewrite Hhit. cbn [fold_left]. rewrite Ht. reflexivity.
Qed.

Lemma waiters_enableSyncPlay (g : GroupInfo) (w : World) :
  waiters (enableSyncPlay g w) =
  waiters w
  ++ [mkWaiter (nextId w) EvTimeSyncServerUpdate None KReadyFlush KIgnore].
Proof.
  unfold enableSyncPlay, injectPlaybackManager, isSyncPlayEnabled,
    waitForEventOnce.
  cbn [with_mgr mgr m_syncPlayEnabledAt m_groupInfo syncPlayEnabledAt negb
       mgr_pmSyncPlayEnabled].
  destruct (mgr_pmSyncPlayEnabled (mgr w)), (hasPlayerWrapper (env w)) eqn:Ew,
    (enableWebRTC (env w)) eqn:Er; cbn; rewrite ?Ew, ?Er; cbn; rewrite ?Er;
    reflexivity.
Qed.

Lemma filter_app_single {A} (f : A -> bool) (l : list A) (x : A) :
  filter f l = [] -> f x = true -> filter f (l ++ [x]) = [x].
Proof.
  intros Hl Hx. rewrite filter_app, Hl. cbn. rewrite Hx. reflexivity.
Qed.

Lemma flush_result (w : World) :
  let w' := runContinuation KReadyFlush w in
  syncPlayReady (mgr w') = true
  /\ queuedCommand (mgr w') = None
  /\ runContinuation KReadyFlush w' = w'.
Proof.
  cbv zeta.
  assert (Hr : syncPlayReady (mgr (runContinuation KReadyFlush w)) = true).
  { unfold runContinuation. cbn [with_mgr mgr m_queuedCommand syncPlayReady].
    rewrite processCommand_ready. reflexivity. }
  assert (Hq : queuedCommand (mgr (runContinuation KReadyFlush w)) = None)
    by reflexivity.
  split; [exact Hr | split; [exact Hq|]].
  revert Hr Hq. generalize (runContinuation KReadyFlush w). intros w' Hr Hq.
  unfold runContinuation. cbn [with_mgr mgr m_syncPlayReady queuedCommand].
  rewrite Hq. cbn [processCommand].
  destruct w' as [e m c ts ws n tr]. destruct m. cbn in *. subst. reflexivity.
Qed.


(** ** Queue updates *)

Section QueueUpdates.
Context {QM : Type} `{QueueManager QM}.

(** What the queue core relies on: once [onPlayQueueUpdate] has been
    called with an update, [getLastUpdateTime] answers that update's
    [LastUpdate]. *)
Hypothesis onPlayQueueUpdate_time :
  forall u serverId m,
    getLastUpdateTime (onPlayQueueUpdate u serverId m) = LastUpdate u.

Lemma appliedTimes_app (a b : list QueueAction) :
  appliedTimes (a ++ b) = appliedTimes a ++ appliedTimes b.
Proof.
  induction a as [|x a IH]; [reflexivity|].
  destruct x; cbn; rewrite IH; reflexivity.
Qed.

Lemma StronglySorted_snoc (l : list Z) (x : Z) :
  StronglySorted Z.lt l -> Forall (fun y => y < x) l ->
  StronglySorted Z.lt (l ++ [x]).
Proof.
  induction 1 as [|y l Hs IH Hy]; intros Hall; cbn.
  - repeat constructor.
  - inversion Hall as [|? ? Hyx Hall']; subst.
    constructor; [apply IH, Hall'|].
    apply Forall_app. split; [exact Hy | repeat constructor; exact Hyx].
Qed.

Lemma playQueueUpdated_silent remote following hasPlayer u (q : QueueCore QM) :
  playQueueManager (playQueueUpdated remote following hasPlayer u q)
  = playQueueManager q
  /\ appliedTimes (queueLog (playQueueUpdated remote following hasPlayer u q))
     = appliedTimes (queueLog q).
Proof.
  unfold playQueueUpdated. cbv zeta.
  repeat match goal with
         | |- context [if ?b then _ else _] => destruct b
         end;
    cbn [playQueueManager queueLog]; rewrite ?appliedTimes_app; cbn;
    rewrite ?app_nil_r; split; reflexivity.
Qed.

Lemma queueStep_ordered (e : QueueEvent) (q : QueueCore QM) :
  queue_ordered q -> queue_ordered (queueStep e q).
Proof.
  intros [Hs Hb]. destruct e as [serverId u | remote following hasPlayer].
  - cbn [queueStep]. unfold updatePlayQueue.
    destruct (LastUpdate u <=? getLastUpdateTime (playQueueManager q)) eqn:E.
    + split; cbn [queueLog playQueueManager]; rewrite appliedTimes_app;
        cbn; rewrite app_nil_r; assumption.
    + apply Z.leb_gt in E.
      split; cbn [queueLog playQueueManager]; rewrite appliedTimes_app; cbn.
      * apply StronglySorted_snoc; [exact Hs|].
        eapply Forall_impl; [|exact Hb]. cbn. intros a Ha. lia.
      * rewrite onPlayQueueUpdate_time. apply Forall_app. split.
        -- eapply Forall_impl; [|exact Hb]. cbn. intros a Ha. lia.
        -- repeat constructor. lia.
  - cbn [queueStep]. unfold resolveNext.
    destruct (unresolved q) as [|u rest]; [split; assumption|].
    destruct (playQueueUpdated_silent remote following hasPlayer u
                (mkQueueCore (playQueueManager q) rest (queueLog q)))
      as [Hm Hl].
    unfold queue_ordered. rewrite Hm, Hl. split; assumption.
Qed.

Lemma queueRun_ordered (es : list QueueEvent) (q : QueueCore QM) :
  queue_ordered q -> queue_ordered (queueRun es q).
Proof.
  revert q. induction es as [|e es IH]; intros q Hq; [exact Hq|].
  cbn. apply IH. apply queueStep_ordered. exact Hq.
Qed.

(** C6. [updatePlayQueue] discards an update whose LastUpdate is not
    after the stored last-update time, leaving the queue manager as it
    was; otherwise it hands the update to the queue manager, whose
    last-update time becomes the update's.  Hence, starting from an empty
    log, the LastUpdate values of the updates applied over any sequence
    of events are strictly increasing. *)
Theorem updatePlayQueue_strictly_newer
    (serverId : string) (u : PlayQueueUpdate) (q : QueueCore QM) :
  (LastUpdate u <= getLastUpdateTime (playQueueManager q) ->
     playQueueManager (updatePlayQueue serverId u q) = playQueueManager q
     /\ unresolved (updatePlayQueue serverId u q) = unresolved q
     /\ queueLog (updatePlayQueue serverId u q)
        = queueLog q ++ [QIgnoringOldUpdate u])
  /\ (getLastUpdateTime (playQueueManager q) < LastUpdate u ->
      playQueueManager (updatePlayQueue serverId u q)
      = onPlayQueueUpdate u serverId (playQueueManager q)
      /\ getLastUpdateTime (playQueueManager (updatePlayQueue serverId u q))
         = LastUpdate u
      /\ queueLog (updatePlayQueue serverId u q) = queueLog q ++ [QUpdating u])
  /\ (forall es,
        StronglySorted Z.lt
          (appliedTimes
             (queueLog (queueRun es (mkQueueCore (playQueueManager q) [] []))))).
Proof.
  split; [|split].
  - intros Hle. unfold updatePlayQueue.
    apply Z.leb_le in Hle. rewrite Hle. repeat split.
  - intros Hlt. unfold updatePlayQueue.
    apply Z.leb_gt in Hlt. rewrite Hlt. cbn [playQueueManager queueLog].
    rewrite onPlayQueueUpdate_time. repeat split.
  - intros es. apply queueRun_ordered.
    unfold queue_ordered. cbn. split; constructor.
Qed.
End QueueUpdates.

Lemma updatePlayQueue_strictly_newer_witness :
  let q0 := mkQueueCore (mkQueueModel None None) [] [] in
  let q1 := updatePlayQueue "server" (sampleUpdate 100) q0 in
  (playQueueManager (updatePlayQueue "server" (sampleUpdate 50) q1)
   = playQueueManager q1
   /\ unresolved (updatePlayQueue "server" (sampleUpdate 50) q1) = unresolved q1
   /\ queueLog (updatePlayQueue "server" (sampleUpdate 50) q1)
      = queueLog q1 ++ [QIgnoringOldUpdate (sampleUpdate 50)])
  /\ (playQueueManager q1
      = onPlayQueueUpdate (sampleUpdate 100) "server" (playQueueManager q0)
      /\ getLastUpdateTime (playQueueManager q1) = 100
      /\ queueLog q1 = queueLog q0 ++ [QUpdating (sampleUpdate 100)])
  /\ StronglySorted Z.lt
       (appliedTimes
          (queueLog
             (queueRun
                [PlayQueueArrives "server" (sampleUpdate 100);
                 PlayQueueArrives "server" (sampleUpdate 50);
                 PromiseResolves false true true;
                 PlayQueueArrives "server" (sampleUpdate 200)]
                q0))).
Proof.
  assert (Htime : forall u serverId (m : QueueModel),
             getLastUpdateTime (onPlayQueueUpdate u serverId m) = LastUpdate u)
    by reflexivity.
  intros q0 q1. split; [|split].
  - apply (proj1 (updatePlayQueue_strictly_newer Htime "server"
                    (sampleUpdate 50) q1)).
    vm_compute. discriminate.
  - apply (proj1 (proj2 (updatePlayQueue_strictly_newer Htime "server"
                           (sampleUpdate 100) q0))).
    vm_compute. reflexivity.
  - apply (proj2 (proj2 (updatePlayQueue_strictly_newer Htime "server"
                           (sampleUpdate 100) q0))).
Defined.


(* ------------------------------------------------------------------ *)
(** ** Timers of the playback core

    Every [schedule*] starts with [clearScheduledCommand], the sync timers
    are armed only after the scheduled command fired or while [syncEnabled]
    is set, and [onWaiting] clears the previous buffering notice: what
    follows shows that the three handle fields always name everything of
    their kind that is pending. *)

Lemma NoDup_ids_filter {T} (id : T -> nat) (keep : T -> bool) (xs : list T)
    (Hnd : NoDup (map id xs)) :
  NoDup (map id (filter keep xs)).
Proof.
  induction xs as [|x xs IH]; cbn in *; [constructor|].
  apply NoDup_cons_iff in Hnd. destruct Hnd as [Hfresh Hrest].
  destruct (keep x); cbn; [|now apply IH].
  apply NoDup_cons_iff. split; [|now apply IH].
  rewrite in_map_iff. intros (y & Ey & Hy).
  apply filter_In in Hy. apply Hfresh.
  rewrite in_map_iff. exists y. tauto.
Qed.

Lemma NoDup_map_snoc {A} (f : A -> nat) (l : list A) (a : A) :
  NoDup (map f l) -> (forall x, In x l -> (f x < f a)%nat) ->
  NoDup (map f (l ++ [a])).
Proof.
  intros Hd Hlt. rewrite map_app. apply NoDup_app; [exact Hd | |].
  - cbn. constructor; [intros [] | constructor].
  - intros n Hin [Heq|[]]. apply in_map_iff in Hin.
    destruct Hin as (x & Hx & Hin). specialize (Hlt x Hin). lia.
Qed.

(** A world that differs in nothing the invariant reads. *)
Lemma safe_same (w w' : World) ns ny nn off :
  timers w' = timers w -> waiters w' = waiters w -> nextId w' = nextId w ->
  scheduledCommandTimeout (core w') = scheduledCommandTimeout (core w) ->
  syncTimeout (core w') = syncTimeout (core w) ->
  notifyBuffering (core w') = notifyBuffering (core w) ->
  syncEnabled (core w') = syncEnabled (core w) ->
  safe ns ny nn off w -> safe ns ny nn off w'.
Proof.
  intros Ht Hw Hn H1 H2 H3 H4.
  unfold safe, timers_inv, none_pending, handle_tracks.
  rewrite Ht, Hw, Hn, H1, H2, H3, H4. exact (fun H => H).
Qed.

Lemma safe_weaken ns ny nn off ns' ny' nn' off' (w : World) :
  safe ns ny nn off w ->
  (ns' = true -> ns = true) -> (ny' = true -> ny = true) ->
  (nn' = true -> nn = true) -> (off' = true -> off = true) ->
  safe ns' ny' nn' off' w.
Proof.
  intros (Hi & A & B & C & D) Ha Hb Hc Hd.
  split; [exact Hi|]. repeat split; auto.
Qed.

Lemma safe_inv ns ny nn off (w : World) : safe ns ny nn off w -> timers_inv w.
Proof. intros H. apply H. Qed.

Lemma inv_safe (w : World) : timers_inv w -> safe false false false false w.
Proof. intros H. split; [exact H|]. repeat split; discriminate. Qed.

Lemma safe_emit a ns ny nn off w :
  safe ns ny nn off w -> safe ns ny nn off (emit a w).
Proof. apply safe_same; reflexivity. Qed.

Lemma safe_with_mgr f ns ny nn off w :
  safe ns ny nn off w -> safe ns ny nn off (with_mgr f w).
Proof. apply safe_same; reflexivity. Qed.

Lemma safe_with_env e ns ny nn off w :
  safe ns ny nn off w -> safe ns ny nn off (with_env e w).
Proof. apply safe_same; reflexivity. Qed.

Lemma safe_with_core f ns ny nn off w :
  safe ns ny nn off w ->
  scheduledCommandTimeout (f (core w)) = scheduledCommandTimeout (core w) ->
  syncTimeout (f (core w)) = syncTimeout (core w) ->
  notifyBuffering (f (core w)) = notifyBuffering (core w) ->
  syncEnabled (f (core w)) = syncEnabled (core w) ->
  safe ns ny nn off (with_core f w).
Proof. intros H H1 H2 H3 H4. revert H. apply safe_same; auto. Qed.

Lemma safe_set_waiters p ns ny nn off w :
  safe ns ny nn off w ->
  safe ns ny nn off (set_waiters (filter p (waiters w)) w).
Proof.
  intros ((I1 & I2 & I3 & I4 & I5 & I6 & I7 & I8 & I9 & I10 & I11) & R).
  split; [|exact R].
  split; [exact I1|]. split; [exact I2|].
  split; [|split; [|split; [exact I5|split; [exact I6|split; [exact I7|
    split; [exact I8|split; [exact I9|split; [exact I10|]]]]]]]];
    cbn [set_waiters waiters nextId timers].
  - intros x Hx. apply filter_In in Hx. apply I3, Hx.
  - apply NoDup_ids_filter, I4.
  - intros t wid x Ht Hcb Hx. apply filter_In in Hx.
    apply (I11 t wid x Ht Hcb), Hx.
Qed.

Lemma safe_set_timers p ns ny nn off w :
  safe ns ny nn off w ->
  safe ns ny nn off (set_timers (filter p (timers w)) w).
Proof.
  intros ((I1 & I2 & I3 & I4 & I5 & I6 & I7 & I8 & I9 & I10 & I11)
          & A & B & C & D).
  assert (Hin : forall t, In t (timers (set_timers (filter p (timers w)) w))
                          -> In t (timers w)).
  { intros t Ht. cbn in Ht. apply filter_In in Ht. apply Ht. }
  unfold safe, timers_inv, none_pending, handle_tracks in *.
  cbn [set_timers waiters nextId core] in *.
  split; [|split; [|split; [|split]]]; eauto.
  split; [|split; [|split; [|split; [|split; [|split; [|split; [|split;
    [|split; [|split]]]]]]]]]; eauto.
  - cbn. apply NoDup_ids_filter, I2.
  - intros E. destruct (I8 E). split; eauto.
Qed.

Lemma clearTimeout_set_timers h w :
  clearTimeout h w =
  match h with
  | None => w
  | Some id => set_timers (filter (fun t => negb (Nat.eqb (t_id t) id)) (timers w)) w
  end.
Proof. destruct h; reflexivity. Qed.

Lemma safe_clearTimeout h ns ny nn off w :
  safe ns ny nn off w -> safe ns ny nn off (clearTimeout h w).
Proof.
  intros H. rewrite clearTimeout_set_timers. destruct h; [|exact H].
  apply safe_set_timers, H.
Qed.

(** Clearing the handle of a kind leaves nothing of that kind pending. *)
Lemma cleared_none_pending kind h w :
  handle_tracks kind h w -> none_pending kind (clearTimeout h w).
Proof.
  intros Hh t Ht. destruct (kind (t_callback t)) eqn:K; [|reflexivity].
  exfalso. destruct h as [id|]; cbn in Ht.
  - apply filter_In in Ht. destruct Ht as [Ht Hne].
    specialize (Hh t Ht K). injection Hh as Hh. subst id.
    rewrite Nat.eqb_refl in Hne. discriminate.
  - specialize (Hh t Ht K). discriminate.
Qed.

Lemma safe_clear_scheduled ns ny nn off w :
  safe ns ny nn off w ->
  safe true ny nn off (clearTimeout (scheduledCommandTimeout (core w)) w).
Proof.
  intros H. pose proof (safe_clearTimeout (scheduledCommandTimeout (core w)) _ _ _ _ _ H)
    as (Hi & A & B & C & D).
  split; [exact Hi|]. repeat split; auto.
  intros _. apply cleared_none_pending. apply H.
Qed.

Lemma safe_clear_sync ns ny nn off w :
  safe ns ny nn off w ->
  safe ns true nn off (clearTimeout (syncTimeout (core w)) w).
Proof.
  intros H. pose proof (safe_clearTimeout (syncTimeout (core w)) _ _ _ _ _ H)
    as (Hi & A & B & C & D).
  split; [exact Hi|]. repeat split; auto.
  intros _. apply cleared_none_pending. apply H.
Qed.

Lemma safe_clear_notify ns ny nn off w :
  safe ns ny nn off w ->
  safe ns ny true off (clearTimeout (notifyBuffering (core w)) w).
Proof.
  intros H. pose proof (safe_clearTimeout (notifyBuffering (core w)) _ _ _ _ _ H)
    as (Hi & A & B & C & D).
  split; [exact Hi|]. repeat split; auto.
  intros _. apply cleared_none_pending. apply H.
Qed.

(** [syncEnabled = false]: the invariant asks nothing of the flag. *)
Lemma safe_off ns ny nn off w :
  safe ns ny nn off w -> safe ns ny nn true (with_core (c_syncEnabled false) w).
Proof.
  intros ((I1 & I2 & I3 & I4 & I5 & I6 & I7 & I8 & I9 & I10 & I11) & A & B & C & D).
  unfold safe, timers_inv, none_pending, handle_tracks in *.
  cbn [with_core timers waiters nextId core c_syncEnabled syncEnabled
       scheduledCommandTimeout syncTimeout notifyBuffering].
  repeat split; auto; discriminate.
Qed.

(** [syncEnabled = true] is set only where nothing is pending. *)
Lemma safe_on ns ny nn off w :
  safe ns ny nn off w -> ns = true -> ny = true ->
  safe true true nn false (with_core (c_syncEnabled true) w).
Proof.
  intros ((I1 & I2 & I3 & I4 & I5 & I6 & I7 & I8 & I9 & I10 & I11) & A & B & C & D) -> ->.
  unfold safe, timers_inv, none_pending, handle_tracks in *.
  cbn [with_core timers waiters nextId core c_syncEnabled syncEnabled
       scheduledCommandTimeout syncTimeout notifyBuffering].
  repeat split; auto; discriminate.
Qed.

(** While [syncEnabled] is set nothing is pending. *)
Lemma safe_of_enabled ns ny nn off w :
  safe ns ny nn off w -> syncEnabled (core w) = true ->
  safe true true nn false w.
Proof.
  intros (Hi & A & B & C & D) E.
  pose proof Hi as (I1 & I2 & I3 & I4 & I5 & I6 & I7 & I8 & I9 & I10).
  destruct (I8 E). split; [exact Hi|]. repeat split; auto; discriminate.
Qed.

(** Timers and waiters are added with fresh handles; a timer of none of
    the three kinds changes nothing the invariant reads. *)
Lemma safe_extend (w w1 : World) (extra : list Timer) (wx : list Waiter)
    ns ny nn off :
  timers w1 = timers w ++ extra ->
  (forall t, In t extra ->
     (nextId w <= t_id t < nextId w1)%nat
     /\ isScheduledCommand (t_callback t) = false
     /\ isSyncEnabler (t_callback t) = false
     /\ isBufferingNotice (t_callback t) = false
     /\ forall wid, t_callback t = CbRejectWaiter wid ->
          (nextId w <= wid < nextId w1)%nat
          /\ forall x, In x wx -> w_id x = wid -> w_timer x <> None) ->
  NoDup (map t_id extra) ->
  waiters w1 = waiters w ++ wx ->
  (forall x, In x wx -> (nextId w <= w_id x < nextId w1)%nat) ->
  NoDup (map w_id wx) ->
  (nextId w <= nextId w1)%nat ->
  scheduledCommandTimeout (core w1) = scheduledCommandTimeout (core w) ->
  syncTimeout (core w1) = syncTimeout (core w) ->
  notifyBuffering (core w1) = notifyBuffering (core w) ->
  syncEnabled (core w1) = syncEnabled (core w) ->
  safe ns ny nn off w -> safe ns ny nn off w1.
Proof.
  intros Ht Hex Hnd Hw Hwx Hwnd Hn H1 H2 H3 H4
    ((I1 & I2 & I3 & I4 & I5 & I6 & I7 & I8 & I9 & I10 & I11) & A & B & C & D).
  assert (Hold : forall k, none_pending k w ->
            (forall t, In t extra -> k (t_callback t) = false) ->
            none_pending k w1).
  { intros k Hk Hke t Hin. rewrite Ht in Hin. apply in_app_or in Hin.
    destruct Hin; auto. }
  assert (Htr : forall k h, handle_tracks k h w ->
            (forall t, In t extra -> k (t_callback t) = false) ->
            handle_tracks k h w1).
  { intros k h Hk Hke t Hin K. rewrite Ht in Hin. apply in_app_or in Hin.
    destruct Hin as [Hin|Hin]; [apply Hk; assumption|].
    rewrite (Hke t Hin) in K. discriminate. }
  assert (Es : forall t, In t extra -> isScheduledCommand (t_callback t) = false)
    by (intros t Hin; apply Hex, Hin).
  assert (Ey : forall t, In t extra -> isSyncEnabler (t_callback t) = false)
    by (intros t Hin; apply Hex, Hin).
  assert (En : forall t, In t extra -> isBufferingNotice (t_callback t) = false)
    by (intros t Hin; apply Hex, Hin).
  unfold safe, timers_inv. rewrite H1, H2, H3, H4.
  split; [|split; [|split; [|split]]]; auto.
  split; [|split; [|split; [|split; [|split; [|split; [|split; [|split;
    [|split; [|split]]]]]]]]]; auto.
  - intros t Hin. rewrite Ht in Hin. apply in_app_or in Hin.
    destruct Hin as [Hin|Hin]; [specialize (I1 t Hin) | apply Hex in Hin]; lia.
  - rewrite Ht, map_app. apply NoDup_app; auto.
    intros n Hin Hin'. apply in_map_iff in Hin, Hin'.
    destruct Hin as (t & <- & Hin). destruct Hin' as (t' & Heq & Hin').
    specialize (I1 t Hin). apply Hex in Hin'. lia.
  - intros x Hin. rewrite Hw in Hin. apply in_app_or in Hin.
    destruct Hin as [Hin|Hin]; [specialize (I3 x Hin) | apply Hwx in Hin]; lia.
  - rewrite Hw, map_app. apply NoDup_app; auto.
    intros n Hin Hin'. apply in_map_iff in Hin, Hin'.
    destruct Hin as (t & <- & Hin). destruct Hin' as (t' & Heq & Hin').
    specialize (I3 t Hin). apply Hwx in Hin'. lia.
  - intros E. destruct (I8 E). split; auto.
  - intros t Hin K. rewrite Ht in Hin. apply in_app_or in Hin.
    destruct Hin as [Hin|Hin].
    + apply Hold; eauto.
    + rewrite (Es t Hin) in K. discriminate.
  - intros t wid Hin K. rewrite Ht in Hin. apply in_app_or in Hin.
    destruct Hin as [Hin|Hin].
    + specialize (I10 t wid Hin K). lia.
    + apply Hex in Hin. destruct Hin as (_ & _ & _ & _ & Hrj).
      specialize (Hrj wid K). lia.
  - intros t wid x Hin K Hx Hid. rewrite Ht in Hin. rewrite Hw in Hx.
    apply in_app_or in Hin. apply in_app_or in Hx.
    destruct Hin as [Hin|Hin], Hx as [Hx|Hx].
    + exact (I11 t wid x Hin K Hx Hid).
    + specialize (I10 t wid Hin K). apply Hwx in Hx. lia.
    + apply Hex in Hin. destruct Hin as (_ & _ & _ & _ & Hrj).
      destruct (Hrj wid K) as [Hr _]. specialize (I3 x Hx). lia.
    + apply Hex in Hin. destruct Hin as (_ & _ & _ & _ & Hrj).
      destruct (Hrj wid K) as [_ Hr]. exact (Hr x Hx Hid).
Qed.

Ltac extend_side :=
  cbn;
  first
    [ solve [reflexivity]
    | solve [lia]
    | solve [symmetry; apply app_nil_r]
    | solve [intros ? []]
    | solve [intros ? [<-|[]]; cbn; lia]
    | solve [constructor; [intros [] | constructor]]
    | solve [constructor] ].

Lemma safe_setTimeout cb d w id w1 ns ny nn off :
  setTimeout cb d w = (id, w1) ->
  isScheduledCommand cb = false -> isSyncEnabler cb = false ->
  isBufferingNotice cb = false ->
  match cb with CbRejectWaiter _ => False | _ => True end ->
  safe ns ny nn off w -> safe ns ny nn off w1.
Proof.
  intros E K1 K2 K3 K4. unfold setTimeout in E. injection E as <- <-.
  apply safe_extend
    with (extra := [mkTimer (nextId w) (inject_Z (now (env w)) + d)%Q cb])
         (wx := []); try extend_side.
  intros t [<-|[]]. cbn. split; [lia|]. do 3 (split; [assumption|]).
  intros wid Hcb. rewrite Hcb in K4. destruct K4.
Qed.

Lemma safe_waitForEventOnce ev t k kc ns ny nn off w :
  safe ns ny nn off w -> safe ns ny nn off (waitForEventOnce ev t k kc w).
Proof.
  unfold waitForEventOnce.
  assert (Hnone : safe ns ny nn off w ->
    safe ns ny nn off
      (mkWorld (env w) (mgr w) (core w) (timers w)
         (waiters w ++ [mkWaiter (nextId w) ev None k kc]) (S (nextId w))
         (trace w))).
  { apply safe_extend with (extra := [])
      (wx := [mkWaiter (nextId w) ev None k kc]); extend_side. }
  destruct t as [t|]; [|exact Hnone].
  destruct (Qeq_bool t 0); [exact Hnone|]. cbn.
  apply safe_extend
    with (extra := [mkTimer (S (nextId w)) (inject_Z (now (env w)) + t)%Q
                      (CbRejectWaiter (nextId w))])
         (wx := [mkWaiter (nextId w) ev (Some (S (nextId w))) k kc]);
    try extend_side.
  intros x [<-|[]]. cbn. split; [lia|]. do 3 (split; [reflexivity|]).
  intros wid Hcb. injection Hcb as <-. split; [lia|].
  intros y [<-|[]] _. cbn. discriminate.
Qed.

(** Arming a timer of one of the three kinds, its handle being stored in
    the field of that kind. *)
Lemma timers_inv_arm (w w1 : World) (due : Q) (cb : Callback) :
  timers_inv w ->
  timers w1 = timers w ++ [mkTimer (nextId w) due cb] ->
  waiters w1 = waiters w -> nextId w1 = S (nextId w) ->
  syncEnabled (core w1) = syncEnabled (core w) ->
  (if isScheduledCommand cb
   then scheduledCommandTimeout (core w1) = Some (nextId w)
        /\ none_pending isScheduledCommand w /\ none_pending isSyncEnabler w
        /\ syncEnabled (core w) = false
   else scheduledCommandTimeout (core w1) = scheduledCommandTimeout (core w)) ->
  (if isSyncEnabler cb
   then syncTimeout (core w1) = Some (nextId w)
        /\ none_pending isScheduledCommand w /\ none_pending isSyncEnabler w
        /\ syncEnabled (core w) = false
   else syncTimeout (core w1) = syncTimeout (core w)) ->
  (if isBufferingNotice cb
   then notifyBuffering (core w1) = Some (nextId w)
        /\ none_pending isBufferingNotice w
   else notifyBuffering (core w1) = notifyBuffering (core w)) ->
  match cb with CbRejectWaiter _ => False | _ => True end ->
  timers_inv w1.
Proof.
  intros (I1 & I2 & I3 & I4 & I5 & I6 & I7 & I8 & I9 & I10 & I11)
    Ht Hw Hn He Hs Hy Hb Hrj.
  assert (Hin : forall t, In t (timers w1) ->
            In t (timers w) \/ t = mkTimer (nextId w) due cb).
  { intros t H. rewrite Ht in H. apply in_app_or in H.
    destruct H as [H|[H|[]]]; auto. }
  unfold timers_inv, handle_tracks, none_pending in *.
  rewrite Hw, Hn, He.
  split; [|split; [|split; [|split; [|split; [|split; [|split; [|split;
    [|split; [|split]]]]]]]]].
  11:{ intros t wid x H K Hx Hid. destruct (Hin t H) as [H'| ->].
       - exact (I11 t wid x H' K Hx Hid).
       - cbn in K. rewrite K in Hrj. destruct Hrj. }
  10:{ intros t wid H K. destruct (Hin t H) as [H'| ->].
       - specialize (I10 t wid H' K). lia.
       - cbn in K. rewrite K in Hrj. destruct Hrj. }
  - intros t H. destruct (Hin t H) as [H'| ->]; [specialize (I1 t H')|cbn]; lia.
  - rewrite Ht. apply NoDup_map_snoc; auto.
  - intros x H. specialize (I3 x H). lia.
  - exact I4.
  - intros t H K. destruct (Hin t H) as [H'| ->].
    + destruct (isScheduledCommand cb).
      * destruct Hs as (_ & Hnone & _). rewrite (Hnone t H') in K. discriminate.
      * rewrite Hs. auto.
    + cbn in K. rewrite K in Hs. apply Hs.
  - intros t H K. destruct (Hin t H) as [H'| ->].
    + destruct (isSyncEnabler cb).
      * destruct Hy as (_ & _ & Hnone & _). rewrite (Hnone t H') in K.
        discriminate.
      * rewrite Hy. auto.
    + cbn in K. rewrite K in Hy. apply Hy.
  - intros t H K. destruct (Hin t H) as [H'| ->].
    + destruct (isBufferingNotice cb).
      * destruct Hb as (_ & Hnone). rewrite (Hnone t H') in K. discriminate.
      * rewrite Hb. auto.
    + cbn in K. rewrite K in Hb. apply Hb.
  - intros E. destruct (I8 E) as [N1 N2].
    split; intros t H; (destruct (Hin t H) as [H'| ->]; [auto|]); cbn.
    + destruct (isScheduledCommand cb); [|reflexivity].
      destruct Hs as (_ & _ & _ & Hoff). congruence.
    + destruct (isSyncEnabler cb); [|reflexivity].
      destruct Hy as (_ & _ & _ & Hoff). congruence.
  - intros t H K t' H'.
    destruct (Hin t' H') as [H2| ->].
    + destruct (Hin t H) as [H1| ->]; [eapply I9; eassumption|].
      cbn in K. rewrite K in Hs. apply Hs, H2.
    + cbn. destruct (isSyncEnabler cb) eqn:Ky; [|reflexivity].
      destruct (Hin t H) as [H1| ->].
      * destruct Hy as (_ & Hnone & _). rewrite (Hnone t H1) in K. discriminate.
      * cbn in K. destruct cb; discriminate.
Qed.

Lemma none_pending_arm (k : Callback -> bool) (w w1 : World) due cb :
  timers w1 = timers w ++ [mkTimer (nextId w) due cb] ->
  k cb = false -> none_pending k w -> none_pending k w1.
Proof.
  intros Ht K H t Hin. rewrite Ht in Hin. apply in_app_or in Hin.
  destruct Hin as [Hin|[<-|[]]]; auto.
Qed.

Lemma safe_arm_scheduled cb d e id w1 ns ny nn off :
  setTimeout cb d e = (id, w1) ->
  isScheduledCommand cb = true ->
  safe ns ny nn off e -> ns = true -> ny = true -> off = true ->
  safe false true nn true (with_core (c_scheduledCommandTimeout (Some id)) w1).
Proof.
  intros E K (Hi & A & B & C & D) -> -> ->.
  unfold setTimeout in E. injection E as <- <-.
  assert (Ky : isSyncEnabler cb = false) by (destruct cb; try discriminate; reflexivity).
  assert (Kn : isBufferingNotice cb = false) by (destruct cb; try discriminate; reflexivity).
  split; [|split; [discriminate|split; [|split]]].
  - eapply timers_inv_arm with (w := e) (cb := cb); try reflexivity; auto.
    + rewrite K. cbn. auto.
    + rewrite Ky. reflexivity.
    + rewrite Kn. reflexivity.
    + destruct cb; try exact I; discriminate.
  - intros _. eapply none_pending_arm with (w := e); [reflexivity|exact Ky|auto].
  - intros ->. eapply none_pending_arm with (w := e); [reflexivity|exact Kn|auto].
  - intros _. cbn. auto.
Qed.

Lemma safe_arm_sync cb d e id w1 ns ny nn off :
  setTimeout cb d e = (id, w1) ->
  isSyncEnabler cb = true ->
  safe ns ny nn off e -> ns = true -> ny = true -> off = true ->
  safe true false nn true (with_core (c_syncTimeout (Some id)) w1).
Proof.
  intros E K (Hi & A & B & C & D) -> -> ->.
  unfold setTimeout in E. injection E as <- <-.
  assert (Ks : isScheduledCommand cb = false) by (destruct cb; try discriminate; reflexivity).
  assert (Kn : isBufferingNotice cb = false) by (destruct cb; try discriminate; reflexivity).
  split; [|split; [|split; [discriminate|split]]].
  - eapply timers_inv_arm with (w := e) (cb := cb); try reflexivity; auto.
    + rewrite Ks. reflexivity.
    + rewrite K. cbn. auto.
    + rewrite Kn. reflexivity.
    + destruct cb; try exact I; discriminate.
  - intros _. eapply none_pending_arm with (w := e); [reflexivity|exact Ks|auto].
  - intros ->. eapply none_pending_arm with (w := e); [reflexivity|exact Kn|auto].
  - intros _. cbn. auto.
Qed.

Lemma safe_arm_notify d e id w1 ns ny nn off :
  setTimeout CbNotifyBuffering d e = (id, w1) ->
  safe ns ny nn off e -> nn = true ->
  safe ns ny false off (with_core (c_notifyBuffering (Some id)) w1).
Proof.
  intros E (Hi & A & B & C & D) ->.
  unfold setTimeout in E. injection E as <- <-.
  split; [|split; [|split; [|split; [discriminate|]]]].
  - eapply timers_inv_arm with (w := e) (cb := CbNotifyBuffering);
      try reflexivity; auto.
    cbn. auto.
  - intros ->. eapply none_pending_arm with (w := e); [reflexivity|reflexivity|auto].
  - intros ->. eapply none_pending_arm with (w := e); [reflexivity|reflexivity|auto].
  - intros ->. cbn. auto.
Qed.

(** What is known once a pending timer has been taken out to fire. *)
Lemma safe_fired (w : World) (t : Timer) :
  timers_inv w -> In t (timers w) ->
  let tracked := isScheduledCommand (t_callback t) || isSyncEnabler (t_callback t) in
  safe tracked tracked (isBufferingNotice (t_callback t)) tracked
    (set_timers (filter (fun u => negb (Nat.eqb (t_id u) (t_id t))) (timers w)) w).
Proof.
  intros Hi Hin tracked.
  pose proof Hi as (I1 & I2 & I3 & I4 & I5 & I6 & I7 & I8 & I9 & I10).
  pose proof (safe_set_timers (fun u => negb (Nat.eqb (t_id u) (t_id t)))
                _ _ _ _ _ (inv_safe w Hi)) as (Hi' & _).
  assert (Hgone : forall k h, handle_tracks k h w -> k (t_callback t) = true ->
            forall u, In u (filter (fun u => negb (Nat.eqb (t_id u) (t_id t))) (timers w)) ->
            k (t_callback u) = false).
  { intros k h Hk K u Hu. apply filter_In in Hu. destruct Hu as [Hu Hne].
    destruct (k (t_callback u)) eqn:Ku; [|reflexivity].
    pose proof (Hk t Hin K) as E1. pose proof (Hk u Hu Ku) as E2.
    rewrite E1 in E2. injection E2 as E2. rewrite E2, Nat.eqb_refl in Hne.
    discriminate. }
  assert (Hsub : forall u, In u (filter (fun u => negb (Nat.eqb (t_id u) (t_id t))) (timers w)) ->
            In u (timers w)).
  { intros u Hu. apply filter_In in Hu. apply Hu. }
  assert (Hoff : tracked = true -> syncEnabled (core w) = false).
  { intros Ht. destruct (syncEnabled (core w)) eqn:E; [|reflexivity].
    destruct (I8 eq_refl) as [N1 N2]. unfold tracked in Ht.
    rewrite (N1 t Hin), (N2 t Hin) in Ht. discriminate. }
  split; [exact Hi'|]. unfold none_pending. cbn [set_timers timers core].
  split; [|split; [|split]]; auto.
  - intros Ht u Hu. unfold tracked in Ht. apply orb_prop in Ht.
    destruct Ht as [K|K].
    + eapply Hgone; eauto.
    + destruct (isScheduledCommand (t_callback u)) eqn:Ku; [|reflexivity].
      rewrite (I9 u (Hsub u Hu) Ku t Hin) in K. discriminate.
  - intros Ht u Hu. unfold tracked in Ht. apply orb_prop in Ht.
    destruct Ht as [K|K].
    + apply (I9 t Hin K), Hsub, Hu.
    + eapply Hgone; eauto.
  - intros K u Hu. eapply Hgone; eauto.
Qed.

Create HintDb timers.

Ltac safe_side := intro; first [assumption | reflexivity | discriminate].

(** Walk down the body of a state-passing function, keeping for every
    intermediate world what is known about its timers. *)
Ltac safe_walk leaf :=
  lazymatch goal with
  | |- safe ?a ?b ?c ?d (let x := ?e in @?g x) =>
      lazymatch type of e with
      | World =>
          let H := fresh "H" in
          let w1 := fresh "w" in
          eassert (H : safe _ _ _ _ e) by safe_walk safe_step;
          change (safe a b c d (g e)); revert H; generalize e;
          intros w1 H; cbv beta; safe_walk leaf
      | _ => change (safe a b c d (g e)); cbv beta; safe_walk leaf
      end
  | |- safe _ _ _ _ (match setTimeout ?cb ?d ?e with pair _ _ => _ end) =>
      let H := fresh "H" in
      let E := fresh "E" in
      let id := fresh "id" in
      let w1 := fresh "w" in
      eassert (H : safe _ _ _ _ e) by safe_walk safe_step;
      destruct (setTimeout cb d e) as [id w1] eqn:E;
      try (pose proof (safe_setTimeout _ _ _ _ _ _ _ _ _ E eq_refl eq_refl
                         eq_refl I H));
      safe_walk leaf
  | |- safe _ _ _ _ (if syncEnabled (core ?x) && ?c then _ else _) =>
      let E := fresh "E" in
      destruct (syncEnabled (core x)) eqn:E;
      [ match goal with
        | H : safe _ _ _ _ x |- _ => apply safe_of_enabled in H; [|exact E]
        end; destruct c
      | cbn [andb] ];
      safe_walk leaf
  | |- safe _ _ _ _ (if ?b then _ else _) => destruct b; safe_walk leaf
  | |- safe _ _ _ _ (match ?k with KUnpause => _ | _ => _ end) =>
      destruct k; safe_walk leaf
  | |- safe _ _ _ _ (match ?k with NoPlayer => _ | _ => _ end) =>
      destruct k; safe_walk leaf
  | |- safe _ _ _ _ (match ?k with Some _ => _ | None => _ end) =>
      destruct k; safe_walk leaf
  | |- safe _ _ _ _ (match ?k with pair _ _ => _ end) =>
      destruct k; safe_walk leaf
  | |- safe _ _ _ _ (match ?k with KReadyFlush => _ | _ => _ end) =>
      destruct k; safe_walk leaf
  | |- _ => leaf
  end
with safe_step :=
  idtac;
  lazymatch goal with
  | H : safe _ _ _ _ ?x |- safe _ _ _ _ ?x => exact H
  | |- safe _ _ _ _ (emit _ _) => eapply safe_emit; safe_walk safe_step
  | |- safe _ _ _ _ (with_mgr _ _) => eapply safe_with_mgr; safe_walk safe_step
  | |- safe _ _ _ _ (with_core (c_syncEnabled false) _) =>
      eapply safe_off; safe_walk safe_step
  | |- safe _ _ _ _ (with_core (c_syncEnabled true) _) =>
      eapply safe_on; [safe_walk safe_step | reflexivity | reflexivity]
  | E : setTimeout _ _ _ = (?id, ?w1)
    |- safe _ _ _ _ (with_core (c_scheduledCommandTimeout (Some ?id)) ?w1) =>
      eapply (safe_arm_scheduled _ _ _ _ _ _ _ _ _ E);
      [reflexivity | safe_walk safe_step | reflexivity | reflexivity | reflexivity]
  | E : setTimeout _ _ _ = (?id, ?w1)
    |- safe _ _ _ _ (with_core (c_syncTimeout (Some ?id)) ?w1) =>
      eapply (safe_arm_sync _ _ _ _ _ _ _ _ _ E);
      [reflexivity | safe_walk safe_step | reflexivity | reflexivity | reflexivity]
  | E : setTimeout _ _ _ = (?id, ?w1)
    |- safe _ _ _ _ (with_core (c_notifyBuffering (Some ?id)) ?w1) =>
      eapply (safe_arm_notify _ _ _ _ _ _ _ _ E);
      [safe_walk safe_step | reflexivity]
  | |- safe _ _ _ _ (with_core _ _) =>
      eapply safe_with_core;
      [safe_walk safe_step | reflexivity | reflexivity | reflexivity | reflexivity]
  | |- safe _ _ _ _ (clearTimeout (scheduledCommandTimeout (core ?x)) ?x) =>
      eapply safe_clear_scheduled; safe_walk safe_step
  | |- safe _ _ _ _ (clearTimeout (syncTimeout (core ?x)) ?x) =>
      eapply safe_clear_sync; safe_walk safe_step
  | |- safe _ _ _ _ (clearTimeout (notifyBuffering (core ?x)) ?x) =>
      eapply safe_clear_notify; safe_walk safe_step
  | |- safe _ _ _ _ (clearTimeout _ _) =>
      eapply safe_clearTimeout; safe_walk safe_step
  | |- safe _ _ _ _ (waitForEventOnce _ _ _ _ _) =>
      eapply safe_waitForEventOnce; safe_walk safe_step
  | |- safe _ _ _ _ (set_waiters (filter _ (waiters ?x)) ?x) =>
      eapply safe_set_waiters; safe_walk safe_step
  | |- _ => solve [eauto with timers nocore]
  end.

(** The conclusion may know less than the walk found out. *)
Ltac safe_check :=
  safe_walk ltac:(eapply safe_weaken;
                  [safe_step | safe_side | safe_side | safe_side | safe_side]).

Lemma safe_clearSyncIcon ns ny nn off w :
  safe ns ny nn off w -> safe ns ny nn off (clearSyncIcon w).
Proof. intros H. unfold clearSyncIcon. safe_check. Qed.

Lemma safe_showSyncIcon m ns ny nn off w :
  safe ns ny nn off w -> safe ns ny nn off (showSyncIcon m w).
Proof. intros H. unfold showSyncIcon. safe_check. Qed.

Lemma safe_localUnpause ns ny nn off w :
  safe ns ny nn off w -> safe ns ny nn off (localUnpause w).
Proof. intros H. unfold localUnpause. safe_check. Qed.

Lemma safe_localPause ns ny nn off w :
  safe ns ny nn off w -> safe ns ny nn off (localPause w).
Proof. intros H. unfold localPause. safe_check. Qed.

Lemma safe_localSeek p ns ny nn off w :
  safe ns ny nn off w -> safe ns ny nn off (localSeek p w).
Proof. intros H. unfold localSeek. safe_check. Qed.

Lemma safe_localStop ns ny nn off w :
  safe ns ny nn off w -> safe ns ny nn off (localStop w).
Proof. intros H. unfold localStop. safe_check. Qed.

Lemma safe_sendBufferingRequest b ns ny nn off w :
  safe ns ny nn off w -> safe ns ny nn off (sendBufferingRequest b w).
Proof. intros H. unfold sendBufferingRequest. safe_check. Qed.

#[local] Hint Extern 0 (safe _ _ _ _ (clearSyncIcon _)) =>
  eapply safe_clearSyncIcon; safe_walk safe_step : timers.
#[local] Hint Extern 0 (safe _ _ _ _ (showSyncIcon _ _)) =>
  eapply safe_showSyncIcon; safe_walk safe_step : timers.
#[local] Hint Extern 0 (safe _ _ _ _ (localUnpause _)) =>
  eapply safe_localUnpause; safe_walk safe_step : timers.
#[local] Hint Extern 0 (safe _ _ _ _ (localPause _)) =>
  eapply safe_localPause; safe_walk safe_step : timers.
#[local] Hint Extern 0 (safe _ _ _ _ (localSeek _ _)) =>
  eapply safe_localSeek; safe_walk safe_step : timers.
#[local] Hint Extern 0 (safe _ _ _ _ (localStop _)) =>
  eapply safe_localStop; safe_walk safe_step : timers.
#[local] Hint Extern 0 (safe _ _ _ _ (sendBufferingRequest _ _)) =>
  eapply safe_sendBufferingRequest; safe_walk safe_step : timers.

(** After [clearScheduledCommand] neither a scheduled command nor a sync
    timer is pending and [syncEnabled] is false. *)
Lemma safe_clearScheduledCommand ns ny nn off w :
  safe ns ny nn off w -> safe true true nn true (clearScheduledCommand w).
Proof. intros H. cbv beta delta [clearScheduledCommand]. safe_check. Qed.

#[local] Hint Extern 0 (safe _ _ _ _ (clearScheduledCommand _)) =>
  eapply safe_clearScheduledCommand; safe_walk safe_step : timers.

Lemma safe_pauseCallback p ns ny nn off w :
  safe ns ny nn off w -> safe ns ny nn off (pauseCallback p w).
Proof. intros H. cbv beta delta [pauseCallback]. safe_check. Qed.

Lemma safe_stopCallback ns ny nn off w :
  safe ns ny nn off w -> safe ns ny nn off (stopCallback w).
Proof. intros H. cbv beta delta [stopCallback]. safe_check. Qed.

Lemma safe_seekCallback p ns ny nn off w :
  safe ns ny nn off w -> safe ns ny nn off (seekCallback p w).
Proof. intros H. cbv beta delta [seekCallback]. safe_check. Qed.

#[local] Hint Extern 0 (safe _ _ _ _ (pauseCallback _ _)) =>
  eapply safe_pauseCallback; safe_walk safe_step : timers.
#[local] Hint Extern 0 (safe _ _ _ _ (stopCallback _)) =>
  eapply safe_stopCallback; safe_walk safe_step : timers.
#[local] Hint Extern 0 (safe _ _ _ _ (seekCallback _ _)) =>
  eapply safe_seekCallback; safe_walk safe_step : timers.

Lemma safe_scheduleUnpause t p ns ny nn off w :
  safe ns ny nn off w -> safe false false nn false (scheduleUnpause t p w).
Proof. intros H. cbv beta delta [scheduleUnpause]. safe_check. Qed.

Lemma safe_schedulePause t p ns ny nn off w :
  safe ns ny nn off w -> safe false false nn false (schedulePause t p w).
Proof. intros H. cbv beta delta [schedulePause]. safe_check. Qed.

Lemma safe_scheduleStop t ns ny nn off w :
  safe ns ny nn off w -> safe false false nn false (scheduleStop t w).
Proof. intros H. cbv beta delta [scheduleStop]. safe_check. Qed.

Lemma safe_scheduleSeek t p ns ny nn off w :
  safe ns ny nn off w -> safe false false nn false (scheduleSeek t p w).
Proof. intros H. cbv beta delta [scheduleSeek]. safe_check. Qed.

#[local] Hint Extern 0 (safe _ _ _ _ (scheduleUnpause _ _ _)) =>
  eapply safe_scheduleUnpause; safe_walk safe_step : timers.
#[local] Hint Extern 0 (safe _ _ _ _ (schedulePause _ _ _)) =>
  eapply safe_schedulePause; safe_walk safe_step : timers.
#[local] Hint Extern 0 (safe _ _ _ _ (scheduleStop _ _)) =>
  eapply safe_scheduleStop; safe_walk safe_step : timers.
#[local] Hint Extern 0 (safe _ _ _ _ (scheduleSeek _ _ _)) =>
  eapply safe_scheduleSeek; safe_walk safe_step : timers.

Lemma safe_applyCommand c ns ny nn off w :
  safe ns ny nn off w -> safe false false nn false (applyCommand c w).
Proof. intros H. cbv beta delta [applyCommand]. safe_check. Qed.

#[local] Hint Extern 0 (safe _ _ _ _ (applyCommand _ _)) =>
  eapply safe_applyCommand; safe_walk safe_step : timers.

Lemma safe_processCommand cmd ns ny nn off w :
  safe ns ny nn off w -> safe false false nn false (processCommand cmd w).
Proof. intros H. cbv beta delta [processCommand]. safe_check. Qed.

#[local] Hint Extern 0 (safe _ _ _ _ (processCommand _ _)) =>
  eapply safe_processCommand; safe_walk safe_step : timers.

Lemma safe_syncPlaybackTime ns ny nn off w :
  safe ns ny nn off w -> safe false false nn false (syncPlaybackTime w).
Proof. intros H. cbv beta delta [syncPlaybackTime]. safe_check. Qed.

Lemma safe_onTimeUpdate ns ny nn off w :
  safe ns ny nn off w -> safe false false nn false (onTimeUpdate w).
Proof.
  intros H. unfold onTimeUpdate. apply safe_emit.
  eapply safe_syncPlaybackTime, H.
Qed.

Lemma safe_onPlaying ns ny nn off w :
  safe ns ny nn off w -> safe ns ny true off (onPlaying w).
Proof. intros H. cbv beta delta [onPlaying]. safe_check. Qed.

Lemma safe_onWaiting ns ny nn off w :
  safe ns ny nn off w -> safe ns ny false off (onWaiting w).
Proof. intros H. cbv beta delta [onWaiting]. safe_check. Qed.

Lemma safe_onPlayerChange player ns ny nn off w :
  safe ns ny nn off w -> safe ns ny nn off (onPlayerChange player w).
Proof.
  intros H. destruct player as [[[|] rate]|];
    cbv beta delta [onPlayerChange]; safe_check.
Qed.

#[local] Hint Extern 0 (safe _ _ _ _ (onPlayerChange _ _)) =>
  eapply safe_onPlayerChange; safe_walk safe_step : timers.

Lemma safe_releaseCurrentPlayer ns ny nn off w :
  safe ns ny nn off w -> safe ns ny nn off (releaseCurrentPlayer w).
Proof. intros H. cbv beta delta [releaseCurrentPlayer]. safe_check. Qed.

#[local] Hint Extern 0 (safe _ _ _ _ (releaseCurrentPlayer _)) =>
  eapply safe_releaseCurrentPlayer; safe_walk safe_step : timers.

Lemma safe_onPlaybackStop ns ny nn off w :
  safe ns ny nn off w -> safe ns ny nn off (onPlaybackStop w).
Proof. intros H. cbv beta delta [onPlaybackStop]. safe_check. Qed.

Lemma safe_injectPlaybackManager ns ny nn off w :
  safe ns ny nn off w -> safe ns ny nn off (injectPlaybackManager w).
Proof. intros H. cbv beta delta [injectPlaybackManager]. safe_check. Qed.

Lemma safe_restorePlaybackManager ns ny nn off w :
  safe ns ny nn off w -> safe ns ny nn off (restorePlaybackManager w).
Proof. intros H. cbv beta delta [restorePlaybackManager]. safe_check. Qed.

#[local] Hint Extern 0 (safe _ _ _ _ (injectPlaybackManager _)) =>
  eapply safe_injectPlaybackManager; safe_walk safe_step : timers.
#[local] Hint Extern 0 (safe _ _ _ _ (restorePlaybackManager _)) =>
  eapply safe_restorePlaybackManager; safe_walk safe_step : timers.

Lemma safe_enableSyncPlay g ns ny nn off w :
  safe ns ny nn off w -> safe ns ny nn off (enableSyncPlay g w).
Proof. intros H. cbv beta delta [enableSyncPlay]. safe_check. Qed.

Lemma safe_disableSyncPlay ns ny nn off w :
  safe ns ny nn off w -> safe ns ny nn true (disableSyncPlay w).
Proof. intros H. cbv beta delta [disableSyncPlay]. safe_check. Qed.

Lemma safe_runContinuation k ns ny nn off w :
  safe ns ny nn off w -> safe false false nn false (runContinuation k w).
Proof. intros H. cbv beta delta [runContinuation]. safe_check. Qed.

Lemma safe_rejectWaiter wid ns ny nn off w :
  safe ns ny nn off w -> safe false false nn false (rejectWaiter wid w).
Proof.
  intros H. unfold rejectWaiter.
  destruct (find _ (waiters w)) as [x|].
  - eapply safe_runContinuation, safe_set_waiters, H.
  - eapply safe_weaken; [exact H | safe_side ..].
Qed.

(** A callback runs on the state its own timer has been taken out of. *)
Lemma safe_runCallback cb nn w :
  safe (isScheduledCommand cb || isSyncEnabler cb)
       (isScheduledCommand cb || isSyncEnabler cb) nn
       (isScheduledCommand cb || isSyncEnabler cb) w ->
  safe false false false false (runCallback cb w).
Proof.
  intros H. destruct cb; cbn [isScheduledCommand isSyncEnabler orb] in H;
    cbv beta iota delta [runCallback]; try safe_check.
  eapply safe_weaken; [eapply safe_rejectWaiter, H | safe_side ..].
Qed.

Lemma fold_clearTimeout_safe (hit : list Waiter) ns ny nn off w :
  safe ns ny nn off w ->
  safe ns ny nn off (fold_left (fun w x => clearTimeout (w_timer x) w) hit w).
Proof.
  revert w. induction hit as [|x hit IH]; intros w H; cbn; [exact H|].
  apply IH, safe_clearTimeout, H.
Qed.

Lemma fold_runContinuation_safe (hit : list Waiter) ns ny nn off w :
  safe ns ny nn off w ->
  safe false false false false
    (fold_left (fun w x => runContinuation (w_then x) w) hit w).
Proof.
  revert ns ny nn off w. induction hit as [|x hit IH]; intros ns ny nn off w H; cbn.
  - eapply safe_weaken; [exact H | safe_side ..].
  - eapply IH, safe_runContinuation, H.
Qed.

Lemma safe_resolveWaiters ev ns ny nn off w :
  safe ns ny nn off w -> safe false false false false (resolveWaiters ev w).
Proof.
  intros H. unfold resolveWaiters.
  eapply fold_runContinuation_safe, fold_clearTimeout_safe, safe_set_waiters, H.
Qed.

Lemma timers_inv_fireTimer id w :
  timers_inv w -> timers_inv (fireTimer id w).
Proof.
  intros H. unfold fireTimer.
  destruct (find _ (timers w)) as [t|] eqn:F; [|exact H].
  destruct (Qle_bool _ _); [|exact H].
  apply find_some in F. destruct F as [Hin Hid].
  apply Nat.eqb_eq in Hid. subst id.
  eapply safe_inv, safe_runCallback, safe_fired; assumption.
Qed.

(** Every event keeps the invariant. *)
Lemma timers_inv_step ev w : timers_inv w -> timers_inv (step ev w).
Proof.
  intros H. apply inv_safe in H.
  destruct ev; cbn [step]; eapply safe_inv.
  - eapply safe_processCommand, H.
  - eapply safe_enableSyncPlay, H.
  - eapply safe_disableSyncPlay, H.
  - eapply safe_with_mgr, H.
  - eapply safe_resolveWaiters, H.
  - apply inv_safe, timers_inv_fireTimer. eapply safe_inv, H.
  - eapply safe_onPlayerChange, H.
  - eapply safe_resolveWaiters. unfold onUnpause. eapply safe_emit, H.
  - eapply safe_resolveWaiters. unfold onPause. eapply safe_emit, H.
  - eapply safe_resolveWaiters, safe_onPlaying, H.
  - eapply safe_onWaiting, H.
  - eapply safe_onTimeUpdate, H.
  - eapply safe_resolveWaiters. unfold onPlaybackStart. eapply safe_emit, H.
  - eapply safe_onPlaybackStop, H.
  - unfold loadPreferences. eapply safe_with_core; [exact H | reflexivity ..].
  - eapply safe_with_env, H.
Qed.

Lemma reachable_timers_inv w : reachable w -> timers_inv w.
Proof.
  induction 1 as [e p | w ev Hr IH]; [|apply timers_inv_step, IH].
  unfold timers_inv, handle_tracks, none_pending. cbn.
  repeat split; try constructor; try contradiction.
Qed.

Lemma pending_at_most_one (kind : Callback -> bool) (h : option nat) (w : World) :
  NoDup (map t_id (timers w)) -> handle_tracks kind h w ->
  (length (pending kind w) <= 1)%nat.
Proof.
  intros Hnd Hh. unfold pending.
  assert (Hall : forall t, In t (filter (fun t => kind (t_callback t)) (timers w)) ->
                           h = Some (t_id t)).
  { intros t Ht. apply filter_In in Ht. apply Hh; apply Ht. }
  pose proof (NoDup_ids_filter t_id (fun t => kind (t_callback t)) _ Hnd) as Hf.
  destruct (filter _ (timers w)) as [|a [|b l]]; cbn; try lia.
  exfalso. pose proof (Hall a (or_introl eq_refl)) as Ea.
  pose proof (Hall b (or_intror (or_introl eq_refl))) as Eb.
  rewrite Ea in Eb. injection Eb as Eb. cbn in Hf.
  inversion Hf as [|? ? Hn _]. apply Hn. left. symmetry. exact Eb.
Qed.

Lemma none_pending_nil (kind : Callback -> bool) (w : World) :
  none_pending kind w -> pending kind w = [].
Proof.
  intros H. unfold pending.
  destruct (filter _ (timers w)) as [|a l] eqn:E; [reflexivity|].
  assert (Ha : In a (filter (fun t => kind (t_callback t)) (timers w)))
    by (rewrite E; left; reflexivity).
  apply filter_In in Ha. destruct Ha as [Ha K]. rewrite (H a Ha) in K.
  discriminate.
Qed.

(** X1. In every state the session can reach, at most one scheduled
    command is pending, at most one timer that re-enables sync and at most
    one buffering notice; a scheduled command and a sync timer are never
    pending together; and while [syncEnabled] is set neither is pending. *)
Theorem reachable_one_timer_of_each_kind (w : World) :
  reachable w ->
  (length (pending isScheduledCommand w) <= 1)%nat
  /\ (length (pending isSyncEnabler w) <= 1)%nat
  /\ (length (pending isBufferingNotice w) <= 1)%nat
  /\ (pending isScheduledCommand w = [] \/ pending isSyncEnabler w = [])
  /\ (syncEnabled (core w) = true ->
      pending isScheduledCommand w = [] /\ pending isSyncEnabler w = []).
Proof.
  intros Hr. apply reachable_timers_inv in Hr.
  destruct Hr as (I1 & I2 & I3 & I4 & I5 & I6 & I7 & I8 & I9 & _).
  split; [eapply pending_at_most_one; eassumption|].
  split; [eapply pending_at_most_one; eassumption|].
  split; [eapply pending_at_most_one; eassumption|].
  split.
  - destruct (pending isScheduledCommand w) as [|t l] eqn:E; [left; reflexivity|].
    right. apply none_pending_nil.
    assert (Ht : In t (pending isScheduledCommand w)) by (rewrite E; left; reflexivity).
    apply filter_In in Ht. destruct Ht as [Ht K]. exact (I9 t Ht K).
  - intros E. destruct (I8 E). split; apply none_pending_nil; assumption.
Qed.

Lemma reachable_one_timer_of_each_kind_witness :
  (length (pending isScheduledCommand scheduledSession) <= 1)%nat
  /\ (length (pending isSyncEnabler scheduledSession) <= 1)%nat
  /\ (length (pending isBufferingNotice scheduledSession) <= 1)%nat
  /\ (pending isScheduledCommand scheduledSession = []
      \/ pending isSyncEnabler scheduledSession = [])
  /\ (syncEnabled (core scheduledSession) = true ->
      pending isScheduledCommand scheduledSession = []
      /\ pending isSyncEnabler scheduledSession = []).
Proof.
  apply (reachable_one_timer_of_each_kind scheduledSession).
  unfold scheduledSession, readySession. do 2 apply reachable_run.
  apply reach_init.
Defined.

(* ------------------------------------------------------------------ *)
(** ** Timers that fire *)

Lemma find_fresh_timer (ts : list Timer) (n : nat) (due : Q) (cb : Callback) :
  (forall t, In t ts -> (t_id t < n)%nat) ->
  find (fun t => Nat.eqb (t_id t) n) (ts ++ [mkTimer n due cb])
  = Some (mkTimer n due cb)
  /\ filter (fun t => negb (Nat.eqb (t_id t) n)) (ts ++ [mkTimer n due cb]) = ts.
Proof.
  intros Hlt. induction ts as [|a ts IH]; cbn.
  - rewrite Nat.eqb_refl. cbn. split; reflexivity.
  - assert (Ha : Nat.eqb (t_id a) n = false).
    { apply Nat.eqb_neq. specialize (Hlt a (or_introl eq_refl)). lia. }
    rewrite Ha. cbn. destruct IH as [IH1 IH2].
    { intros t Ht. apply Hlt. right. exact Ht. }
    rewrite IH1, IH2. split; reflexivity.
Qed.

(** Firing the timer that was armed last, once its delay has elapsed. *)
Lemma fireTimer_fresh (w : World) (ts : list Timer) (n : nat) (due : Q)
    (cb : Callback) :
  timers w = ts ++ [mkTimer n due cb] ->
  (forall t, In t ts -> (t_id t < n)%nat) ->
  Qle_bool due (inject_Z (now (env w))) = true ->
  fireTimer n w = runCallback cb (set_timers ts w).
Proof.
  intros Ht Hlt Hdue. unfold fireTimer. rewrite Ht.
  destruct (find_fresh_timer ts n due cb Hlt) as [F1 F2].
  rewrite F1, F2. cbn [t_due t_callback]. rewrite Hdue. reflexivity.
Qed.

Lemma filter_timers_lt (p : Timer -> bool) (ts : list Timer) (n : nat) :
  (forall t, In t ts -> (t_id t < n)%nat) ->
  forall t, In t (filter p ts) -> (t_id t < n)%nat.
Proof. intros H t Ht. apply filter_In in Ht. apply H, Ht. Qed.

(** *** Buffering reports (onWaiting, onPlaying) *)

Lemma onWaiting_eq (w : World) :
  lastPlaybackWaiting (core w) = None ->
  onWaiting w =
  emit (Trigger "waiting")
    (with_core (c_notifyBuffering (Some (nextId w)))
       (mkWorld (env w) (mgr w)
          (c_lastPlaybackWaiting (Some (now (env w))) (core w))
          (timers (clearTimeout (notifyBuffering (core w)) w)
           ++ [mkTimer (nextId w)
                 (inject_Z (now (env w)) + minBufferingThresholdMillis (core w))%Q
                 CbNotifyBuffering])
          (waiters w) (S (nextId w)) (trace w))).
Proof.
  intros Hl. unfold onWaiting. rewrite Hl. cbv zeta.
  unfold setTimeout. csimp.
  destruct (notifyBuffering (core w)); reflexivity.
Qed.

(** X2. A stall shorter than the buffering threshold is not reported: when
    the player reports 'playing' at most [minBufferingThresholdMillis]
    after it reported 'waiting', no buffering request is sent, the pending
    notice is cancelled and the stall is forgotten. *)
Theorem short_stall_not_reported (w : World) (e' : Env) :
  reachable w ->
  lastPlaybackWaiting (core w) = None ->
  (inject_Z (now e' - now (env w)) <= minBufferingThresholdMillis (core w))%Q ->
  let w' := onPlaying (with_env e' (onWaiting w)) in
  trace w' = [Trigger "playing"; Trigger "waiting"] ++ trace w
  /\ pending isBufferingNotice w' = []
  /\ lastPlaybackWaiting (core w') = None.
Proof.
  intros Hr Hl Hle w'.
  assert (Hsafe : safe false false true false w').
  { eapply safe_onPlaying, safe_with_env, safe_onWaiting, inv_safe,
      reachable_timers_inv, Hr. }
  split; [|split].
  - subst w'. rewrite (onWaiting_eq w Hl). unfold onPlaying, isBuffering.
    csimp. cbn [c_lastPlaybackWaiting lastPlaybackWaiting minBufferingThresholdMillis].
    assert (Hb : Qlt_bool (minBufferingThresholdMillis (core w))
                   (inject_Z (now e' - now (env w))) = false).
    { unfold Qlt_bool. apply negb_false_iff. apply Qle_bool_iff. exact Hle. }
    rewrite Hb. csimp. reflexivity.
  - apply none_pending_nil. apply Hsafe. reflexivity.
  - subst w'. unfold onPlaying. csimp. reflexivity.
Qed.

Lemma short_stall_not_reported_witness :
  let w' := onPlaying (with_env (sampleEnv 3500 true false) (onWaiting readySession)) in
  trace w' = [Trigger "playing"; Trigger "waiting"] ++ trace readySession
  /\ pending isBufferingNotice w' = []
  /\ lastPlaybackWaiting (core w') = None.
Proof.
  apply (short_stall_not_reported readySession (sampleEnv 3500 true false)).
  - unfold readySession. apply reachable_run, reach_init.
  - reflexivity.
  - vm_compute. discriminate.
Defined.

Lemma timers_clearTimeout_In h w t :
  In t (timers (clearTimeout h w)) -> In t (timers w).
Proof.
  destruct h; cbn; [|exact (fun H => H)].
  intros H. apply filter_In in H. apply H.
Qed.

Lemma Qle_bool_inject_Z_le (a b : Z) :
  a <= b -> Qle_bool (inject_Z a) (inject_Z b) = true.
Proof. intros H. apply Qle_bool_iff. rewrite <- Zle_Qle. exact H. Qed.

(** X3. A stall that outlasts the buffering threshold is reported twice:
    when the notice armed by 'waiting' fires, a buffering request with
    BufferingDone = false is sent; when 'playing' arrives after more than
    the threshold, a request with BufferingDone = true follows and the
    stall is forgotten. *)
Theorem long_stall_reported (w : World) (e1 e2 : Env) :
  reachable w ->
  lastPlaybackWaiting (core w) = None ->
  (inject_Z (now (env w)) + minBufferingThresholdMillis (core w)
   <= inject_Z (now e1))%Q ->
  (minBufferingThresholdMillis (core w) < inject_Z (now e2 - now (env w)))%Q ->
  let w1 := fireTimer (nextId w) (with_env e1 (onWaiting w)) in
  let w2 := onPlaying (with_env e2 w1) in
  trace w1 =
    RequestSyncPlayBuffering (localDateToRemote e1 (now e1))
      (inject_Z (Math_round (pm_currentTime e1)) * TicksPerMillisecond)%Q
      (negb (pm_IsPaused e1)) (currentPlaylistItemId e1) false
    :: Trigger "waiting" :: trace w
  /\ trace w2 =
    Trigger "playing"
    :: RequestSyncPlayBuffering (localDateToRemote e2 (now e2))
         (inject_Z (Math_round (pm_currentTime e2)) * TicksPerMillisecond)%Q
         (negb (pm_IsPaused e2)) (currentPlaylistItemId e2) true
    :: trace w1
  /\ pending isBufferingNotice w2 = []
  /\ lastPlaybackWaiting (core w2) = None.
Proof.
  intros Hr Hl Hdue Hlong w1 w2.
  pose proof (reachable_timers_inv w Hr) as Hi.
  assert (E1 : w1 =
    sendBufferingRequest true
      (set_timers (timers (clearTimeout (notifyBuffering (core w)) w))
         (with_env e1 (onWaiting w)))).
  { subst w1.
    eapply (fireTimer_fresh _ _ _
              (inject_Z (now (env w)) + minBufferingThresholdMillis (core w))%Q
              CbNotifyBuffering).
    - rewrite (onWaiting_eq w Hl). csimp. reflexivity.
    - intros t Ht. apply timers_clearTimeout_In in Ht. apply Hi, Ht.
    - apply Qle_bool_iff. cbn [with_env env]. exact Hdue. }
  assert (Hsafe : safe false false true false w2).
  { subst w2 w1. eapply safe_onPlaying, safe_with_env, inv_safe,
      timers_inv_fireTimer, safe_inv, safe_with_env, safe_onWaiting,
      inv_safe, Hi. }
  assert (T1 : trace w1 =
    RequestSyncPlayBuffering (localDateToRemote e1 (now e1))
      (inject_Z (Math_round (pm_currentTime e1)) * TicksPerMillisecond)%Q
      (negb (pm_IsPaused e1)) (currentPlaylistItemId e1) false
    :: Trigger "waiting" :: trace w).
  { rewrite E1, (onWaiting_eq w Hl). unfold sendBufferingRequest. csimp.
    reflexivity. }
  assert (C1 : lastPlaybackWaiting (core w1) = Some (now (env w))
               /\ minBufferingThresholdMillis (core w1)
                  = minBufferingThresholdMillis (core w)).
  { rewrite E1, (onWaiting_eq w Hl). unfold sendBufferingRequest. csimp.
    cbn [set_timers core c_lastPlaybackWaiting lastPlaybackWaiting
         minBufferingThresholdMillis with_core c_notifyBuffering].
    split; reflexivity. }
  destruct C1 as [C1 C2].
  split; [exact T1|]. split; [|split].
  - subst w2. unfold onPlaying, isBuffering. csimp. rewrite C1, C2.
    apply Qlt_bool_iff in Hlong. rewrite Hlong.
    unfold sendBufferingRequest. csimp. reflexivity.
  - apply none_pending_nil. apply Hsafe. reflexivity.
  - subst w2. unfold onPlaying. csimp. reflexivity.
Qed.

Lemma long_stall_reported_witness :
  let w1 := fireTimer (nextId readySession)
              (with_env (sampleEnv 4000 true false) (onWaiting readySession)) in
  let w2 := onPlaying (with_env (sampleEnv 4500 true false) w1) in
  trace w1 =
    RequestSyncPlayBuffering 4000 0 false (Some "A"%string) false
    :: Trigger "waiting" :: trace readySession
  /\ trace w2 =
    Trigger "playing"
    :: RequestSyncPlayBuffering 4500 0 false (Some "A"%string) true
    :: trace w1
  /\ pending isBufferingNotice w2 = []
  /\ lastPlaybackWaiting (core w2) = None.
Proof.
  apply (long_stall_reported readySession (sampleEnv 4000 true false)
           (sampleEnv 4500 true false)).
  - unfold readySession. apply reachable_run, reach_init.
  - reflexivity.
  - vm_compute. discriminate.
  - vm_compute. reflexivity.
Defined.

(** *** The end of a SpeedToSync correction *)

Lemma syncPlaybackTime_speedToSync_player (l : Command) (w : World) :
  correctionDue l w ->
  speedToSyncChosen l w = true ->
  currentPlayer (core (syncPlaybackTime w)) = Player true
  /\ env (syncPlaybackTime w) = env w.
Proof.
  intros (Ha & Hl & Hn & Hb & He & Hs & Hc) Hsp.
  unfold speedToSyncChosen in Hsp.
  unfold syncPlaybackTime. rewrite Ha, Hl, Hn, Hb, He.
  cbn [negb String.eqb Ascii.eqb Bool.eqb orb]. cbv zeta.
  unfold playbackRateSupported in *. csimp.
  rewrite Hs, Hc. cbn [andb]. rewrite Hsp.
  destruct (currentPlayer (core w)) as [|[|]] eqn:P; try discriminate.
  destruct (Qle_bool _ 0); csimp; rewrite ?P; split; reflexivity.
Qed.

(** X4. SpeedToSync is temporary: once the interval chosen by
    [syncPlaybackTime] has elapsed and its timer fires (the player still
    being active), the playback rate is set back to 1, [syncEnabled] is
    set again, the sync icon is cleared and no sync timer is left. *)
Theorem speedToSync_restores_rate (l : Command) (w : World) (e' : Env) :
  reachable w ->
  correctionDue l w ->
  speedToSyncChosen l w = true ->
  wrapper_isPlaybackActive e' = true ->
  (inject_Z (now (env w))
   + speedToSyncTimeFor (speedToSyncDuration (core w)) (diffMillisOf l w)
   <= inject_Z (now e'))%Q ->
  let w1 := run [PlayerTimeUpdate; Surroundings e'] w in
  let w2 := step (TimerFired (nextId w)) w1 in
  trace w2 = Trigger "syncing" :: SetPlaybackRate 1 :: trace w1
  /\ syncEnabled (core w1) = false
  /\ syncEnabled (core w2) = true
  /\ syncMethod (mgr w2) = MethodNone
  /\ pending isSyncEnabler w2 = [].
Proof.
  intros Hr Hdue Hsp Hact Hlate w1 w2.
  destruct (syncPlaybackTime_speedToSync l w Hdue Hsp) as (_ & Hoff & _ & _ & Ht).
  destruct (syncPlaybackTime_speedToSync_player l w Hdue Hsp) as (Hp & _).
  pose proof (reachable_timers_inv w Hr) as Hi.
  assert (E2 : w2 = runCallback CbSpeedToSyncDone (set_timers (timers w) w1)).
  { subst w2 w1. cbn [run fold_left step].
    eapply fireTimer_fresh.
    - unfold onTimeUpdate. cbn [with_env emit timers]. exact Ht.
    - apply Hi.
    - apply Qle_bool_iff. cbn [with_env env]. exact Hlate. }
  assert (Hinv2 : timers_inv w2).
  { subst w2. apply timers_inv_step. subst w1. cbn [run fold_left].
    do 2 apply timers_inv_step. exact Hi. }
  assert (P1 : currentPlayer (core w1) = Player true) by exact Hp.
  assert (S2 : syncEnabled (core w2) = true).
  { rewrite E2. unfold runCallback, isPlaybackActive.
    cbn [set_timers env core]. subst w1. cbn [run fold_left step with_env env].
    rewrite Hact. unfold onTimeUpdate. cbn [with_env emit core]. rewrite Hp.
    reflexivity. }
  split; [|split; [exact Hoff | split; [exact S2 | split]]].
  - rewrite E2. unfold runCallback, isPlaybackActive.
    cbn [set_timers env core]. subst w1. cbn [run fold_left step with_env env].
    rewrite Hact. unfold onTimeUpdate. cbn [with_env emit core]. rewrite Hp.
    reflexivity.
  - rewrite E2. unfold runCallback, isPlaybackActive.
    cbn [set_timers env core]. subst w1. cbn [run fold_left step with_env env].
    rewrite Hact. unfold onTimeUpdate. cbn [with_env emit core]. rewrite Hp.
    reflexivity.
  - apply none_pending_nil.
    destruct Hinv2 as (_ & _ & _ & _ & _ & _ & _ & I8 & _).
    apply (I8 S2).
Qed.

Lemma playingSession_reachable : reachable playingSession.
Proof. unfold playingSession. apply reachable_run, reach_init. Qed.

Lemma playingSession_correctionDue : correctionDue playingCommand playingSession.
Proof.
  unfold correctionDue.
  split; [vm_compute; reflexivity|]. split; [vm_compute; reflexivity|].
  split; [vm_compute; reflexivity|]. split; [vm_compute; reflexivity|].
  split; [vm_compute; reflexivity|]. split; vm_compute; reflexivity.
Qed.

Lemma speedToSync_restores_rate_witness :
  let w1 := run [PlayerTimeUpdate; Surroundings (playingEnv 16000 10950)]
              playingSession in
  let w2 := step (TimerFired (nextId playingSession)) w1 in
  trace w2 = Trigger "syncing" :: SetPlaybackRate 1 :: trace w1
  /\ syncEnabled (core w1) = false
  /\ syncEnabled (core w2) = true
  /\ syncMethod (mgr w2) = MethodNone
  /\ pending isSyncEnabler w2 = [].
Proof.
  apply (speedToSync_restores_rate playingCommand playingSession
           (playingEnv 16000 10950)).
  - apply playingSession_reachable.
  - apply playingSession_correctionDue.
  - vm_compute. reflexivity.
  - reflexivity.
  - vm_compute. discriminate.
Defined.

(** *** A scheduled Unpause *)

Lemma clearScheduledCommand_proj (w : World) :
  env (clearScheduledCommand w) = env w
  /\ nextId (clearScheduledCommand w) = nextId w
  /\ maxDelaySpeedToSync (core (clearScheduledCommand w))
     = maxDelaySpeedToSync (core w)
  /\ minDelaySkipToSync (core (clearScheduledCommand w))
     = minDelaySkipToSync (core w)
  /\ exists l, trace (clearScheduledCommand w) = l ++ trace w
               /\ forall b, ~ In (PmUnpause b) l.
Proof.
  unfold clearScheduledCommand. cbv zeta.
  destruct (playbackRateSupported _); csimp; repeat split.
  - exists [Trigger "syncing"; SetPlaybackRate 1]. split; [reflexivity|].
    intros b [H|[H|[]]]; discriminate.
  - exists [Trigger "syncing"]. split; [reflexivity|].
    intros b [H|[]]; discriminate.
Qed.

Lemma pending_app kind (w : World) ts t :
  timers w = ts ++ [t] ->
  pending kind w = filter (fun u => kind (t_callback u)) ts
                   ++ (if kind (t_callback t) then [t] else []).
Proof. intros H. unfold pending. rewrite H, filter_app. reflexivity. Qed.

Lemma filter_none (kind : Callback -> bool) (ts : list Timer) :
  (forall t, In t ts -> kind (t_callback t) = false) ->
  filter (fun u => kind (t_callback u)) ts = [].
Proof.
  induction ts as [|a ts IH]; intros H; cbn; [reflexivity|].
  rewrite (H a (or_introl eq_refl)). apply IH. intros t Ht. apply H. right. exact Ht.
Qed.

(** X5. An Unpause for an instant still to come, received while a local
    player is active, does not unpause the player at once: it arms one
    timer.  When that timer fires, at or after the local image of the
    instant, the player is unpaused, 'notify-osd' is triggered and one
    timer is armed that will set [syncEnabled] again after half of
    [maxDelaySpeedToSync]. *)
Theorem scheduled_unpause_fires_at_its_instant (c : Command) (w : World)
    (e' : Env) :
  reachable w ->
  isDuplicate (lastCommand (core w)) c = false ->
  isRemote w = false ->
  CommandName c = "Unpause"%string ->
  now (env w) < remoteDateToLocal (env w) (When c) ->
  wrapper_isPlaybackActive e' = true ->
  remoteDateToLocal (env w) (When c) <= now e' ->
  let w1 := applyCommand c w in
  let w2 := step (TimerFired (nextId w)) (with_env e' w1) in
  (exists l, trace w1 = l ++ trace w /\ forall b, ~ In (PmUnpause b) l)
  /\ pending isScheduledCommand w1 =
       [mkTimer (nextId w)
          (inject_Z (now (env w))
           + inject_Z (remoteDateToLocal (env w) (When c) - now (env w)))%Q
          (CbScheduledUnpause (maxDelaySpeedToSync (core w) / 2))]
  /\ trace w2 =
       Trigger "notify-osd" :: PmUnpause (pm_syncPlayEnabled e') :: trace w1
  /\ pending isScheduledCommand w2 = []
  /\ pending isSyncEnabler w2 =
       [mkTimer (S (nextId w))
          (inject_Z (now e') + maxDelaySpeedToSync (core w) / 2)%Q
          CbEnableSync]
  /\ syncEnabled (core w2) = false.
Proof.
  intros Hr Hfresh Hrem Hname Hfut Hact Hlate w1 w2.
  pose proof (reachable_timers_inv w Hr) as Hi.
  set (w0 := with_core (c_lastCommand (Some c)) w).
  set (wc := clearScheduledCommand w0).
  set (pos := ofTicks (PositionTicks c)).
  set (ws := if Qlt_bool (minDelaySkipToSync (core wc) * TicksPerMillisecond)
                  (pm_currentTime (env w) * TicksPerMillisecond - toNum pos)
             then localSeek pos wc else wc).
  set (due := (inject_Z (now (env w))
               + inject_Z (remoteDateToLocal (env w) (When c) - now (env w)))%Q).
  set (cb := CbScheduledUnpause (maxDelaySpeedToSync (core w) / 2)).
  destruct (clearScheduledCommand_proj w0) as (Ce & Cn & Cm & Ck & (lc & Ct & Cu)).
  fold wc in Ce, Cn, Cm, Ck, Ct.
  assert (Hws : env ws = env w /\ nextId ws = nextId w
                /\ core ws = core wc /\ timers ws = timers wc
                /\ waiters ws = waiters wc /\ mgr ws = mgr wc
                /\ exists l, trace ws = l ++ trace w
                             /\ forall b, ~ In (PmUnpause b) l).
  { subst ws. destruct (Qlt_bool _ _).
    - unfold localSeek. destruct (negb (isPlaybackActive wc)); csimp;
        rewrite Ce, Cn, Ct; (do 6 (split; [reflexivity|])).
      + exists (Console LDebug "SyncPlay localSeek: no active player!" :: lc).
        split; [reflexivity|]. intros b [H|H]; [discriminate | exact (Cu b H)].
      + exists (PmSeek (pm_syncPlayEnabled (env w0)) pos :: lc).
        split; [reflexivity|]. intros b [H|H]; [discriminate | exact (Cu b H)].
    - rewrite Ce, Cn, Ct. do 6 (split; [reflexivity|]).
      exists lc. split; [reflexivity | exact Cu]. }
  destruct Hws as (We & Wn & Wc & Wt & Ww & Wm & (ls & Wtr & Wu)).
  assert (E1 : w1 =
    emit (Console LDebug "Scheduled unpause")
      (with_core (c_scheduledCommandTimeout (Some (nextId w)))
         (mkWorld (env w) (mgr ws) (core ws)
            (timers ws ++ [mkTimer (nextId w) due cb])
            (waiters ws) (S (nextId w)) (trace ws)))).
  { subst w1. unfold applyCommand. rewrite Hfresh. cbv zeta.
    fold w0. unfold isRemote in Hrem |- *. cbn [with_core env] in *.
    replace (wrapper_isRemote (env w0)) with (wrapper_isRemote (env w))
      by reflexivity.
    rewrite Hrem. unfold kindOf. rewrite Hname. cbn [String.eqb Ascii.eqb Bool.eqb].
    fold pos. unfold scheduleUnpause. fold wc. cbv zeta. rewrite Ce.
    change (env w0) with (env w).
    apply Z.ltb_lt in Hfut. rewrite Hfut. fold ws.
    unfold setTimeout. rewrite We, Wn, Cm. reflexivity. }
  assert (Hq : safe true true false true wc).
  { subst wc. eapply safe_weaken.
    - eapply safe_clearScheduledCommand.
      eapply (safe_with_core _ _ _ _ _ w); [apply inv_safe, Hi | reflexivity ..].
    - safe_side.
    - safe_side.
    - safe_side.
    - safe_side. }
  assert (Hlt : forall t, In t (timers ws) -> (t_id t < nextId w)%nat).
  { intros t Ht. rewrite Wt in Ht.
    destruct Hq as ((I1 & _) & _). specialize (I1 t Ht). rewrite Cn in I1.
    exact I1. }
  assert (P1 : pending isScheduledCommand w1 = [mkTimer (nextId w) due cb]).
  { rewrite (pending_app isScheduledCommand w1 (timers ws)
               (mkTimer (nextId w) due cb)).
    - rewrite filter_none; [reflexivity|].
      rewrite Wt. apply Hq. reflexivity.
    - rewrite E1. reflexivity. }
  assert (E2 : w2 = runCallback cb (set_timers (timers ws) (with_env e' w1))).
  { subst w2. cbn [step]. eapply fireTimer_fresh.
    - rewrite E1. reflexivity.
    - exact Hlt.
    - apply Qle_bool_iff. cbn [with_env env]. subst due.
      rewrite <- inject_Z_plus, <- Zle_Qle. lia. }
  assert (Hinv2 : timers_inv w2).
  { subst w2. apply timers_inv_step.
    eapply safe_inv, safe_with_env. subst w1.
    eapply safe_applyCommand, inv_safe, Hi. }
  assert (E3 : w2 =
    with_core (c_syncTimeout (Some (S (nextId w))))
      (mkWorld e' (mgr ws)
         (c_scheduledCommandTimeout (Some (nextId w)) (core ws))
         (timers ws ++ [mkTimer (S (nextId w))
                          (inject_Z (now e') + maxDelaySpeedToSync (core w) / 2)%Q
                          CbEnableSync])
         (waiters ws) (S (S (nextId w)))
         (Trigger "notify-osd" :: PmUnpause (pm_syncPlayEnabled e') :: trace w1))).
  { rewrite E2. subst cb. unfold runCallback, localUnpause, isPlaybackActive.
    cbn [set_timers with_env env]. rewrite Hact. cbn [negb]. cbv zeta.
    unfold setTimeout. rewrite E1. reflexivity. }
  split; [|split; [exact P1 | split; [|split; [|split]]]].
  - rewrite E1. cbn [emit with_core trace].
    exists (Console LDebug "Scheduled unpause" :: ls). split.
    + rewrite Wtr. reflexivity.
    + intros b [H|H]; [discriminate | exact (Wu b H)].
  - rewrite E3. reflexivity.
  - apply none_pending_nil.
    destruct Hinv2 as (_ & _ & _ & _ & _ & _ & _ & _ & I9 & _).
    intros t Ht.
    destruct (isScheduledCommand (t_callback t)) eqn:K; [|reflexivity].
    exfalso. specialize (I9 t Ht K
      (mkTimer (S (nextId w))
         (inject_Z (now e') + maxDelaySpeedToSync (core w) / 2)%Q CbEnableSync)).
    assert (Hin : In (mkTimer (S (nextId w))
         (inject_Z (now e') + maxDelaySpeedToSync (core w) / 2)%Q CbEnableSync)
         (timers w2)).
    { rewrite E3. cbn [with_core timers]. apply in_or_app. right. left.
      reflexivity. }
    specialize (I9 Hin). discriminate.
  - rewrite (pending_app isSyncEnabler w2 (timers ws)
               (mkTimer (S (nextId w))
                  (inject_Z (now e') + maxDelaySpeedToSync (core w) / 2)%Q
                  CbEnableSync)).
    + rewrite filter_none; [reflexivity|].
      rewrite Wt. apply Hq. reflexivity.
    + rewrite E3. reflexivity.
  - rewrite E3. cbn [with_core core c_syncTimeout syncEnabled
                     c_scheduledCommandTimeout]. rewrite Wc.
    apply Hq. reflexivity.
Qed.

Lemma scheduled_unpause_fires_at_its_instant_witness :
  let c := sampleCommand "Unpause" 5000 2000 "A" in
  let w := readySession in
  let e' := sampleEnv 5000 true false in
  let w1 := applyCommand c w in
  let w2 := step (TimerFired (nextId w)) (with_env e' w1) in
  (exists l, trace w1 = l ++ trace w /\ forall b, ~ In (PmUnpause b) l)
  /\ pending isScheduledCommand w1 =
       [mkTimer (nextId w)
          (inject_Z (now (env w))
           + inject_Z (remoteDateToLocal (env w) (When c) - now (env w)))%Q
          (CbScheduledUnpause (maxDelaySpeedToSync (core w) / 2))]
  /\ trace w2 =
       Trigger "notify-osd" :: PmUnpause (pm_syncPlayEnabled e') :: trace w1
  /\ pending isScheduledCommand w2 = []
  /\ pending isSyncEnabler w2 =
       [mkTimer (S (nextId w))
          (inject_Z (now e') + maxDelaySpeedToSync (core w) / 2)%Q
          CbEnableSync]
  /\ syncEnabled (core w2) = false.
Proof.
  apply (scheduled_unpause_fires_at_its_instant
           (sampleCommand "Unpause" 5000 2000 "A") readySession
           (sampleEnv 5000 true false)).
  - unfold readySession. apply reachable_run, reach_init.
  - reflexivity.
  - reflexivity.
  - reflexivity.
  - vm_compute. reflexivity.
  - reflexivity.
  - vm_compute. discriminate.
Defined.

(* ------------------------------------------------------------------ *)
(** ** Without an active player *)

Lemma mute_refl w : mute w w.
Proof. split; reflexivity. Qed.

Lemma mute_same w0 x y :
  env y = env x -> trace y = trace x -> mute w0 x -> mute w0 y.
Proof.
  intros He Ht [H1 H2]. unfold mute, playerCommands in *.
  rewrite He, Ht. split; assumption.
Qed.

Lemma mute_emit a w0 x :
  isPlayerCommand a = false -> mute w0 x -> mute w0 (emit a x).
Proof.
  intros Ha [H1 H2]. unfold mute, playerCommands in *. cbn [emit env trace filter].
  rewrite Ha. split; assumption.
Qed.

Lemma mute_with_mgr f w0 x : mute w0 x -> mute w0 (with_mgr f x).
Proof. apply mute_same; reflexivity. Qed.

Lemma mute_with_core f w0 x : mute w0 x -> mute w0 (with_core f x).
Proof. apply mute_same; reflexivity. Qed.

Lemma mute_set_waiters ws w0 x : mute w0 x -> mute w0 (set_waiters ws x).
Proof. apply mute_same; reflexivity. Qed.

Lemma mute_set_timers ts w0 x : mute w0 x -> mute w0 (set_timers ts x).
Proof. apply mute_same; reflexivity. Qed.

Lemma mute_clearTimeout h w0 x : mute w0 x -> mute w0 (clearTimeout h x).
Proof. apply mute_same; [apply env_clearTimeout | apply trace_clearTimeout]. Qed.

Lemma mute_waitForEventOnce ev t k kc w0 x :
  mute w0 x -> mute w0 (waitForEventOnce ev t k kc x).
Proof.
  apply mute_same; [apply env_waitForEventOnce | apply trace_waitForEventOnce].
Qed.

Lemma mute_setTimeout cb d x id x1 w0 :
  setTimeout cb d x = (id, x1) -> mute w0 x -> mute w0 x1.
Proof. intros E. injection E as <- <-. apply mute_same; reflexivity. Qed.

Lemma mute_inactive w0 x :
  isPlaybackActive w0 = false -> mute w0 x -> isPlaybackActive x = false.
Proof. intros H [He _]. unfold isPlaybackActive in *. rewrite He. exact H. Qed.

Create HintDb mute.

(** Walk down a function body for a world without an active player. *)
Ltac mute_walk :=
  idtac;
  lazymatch goal with
  | H : mute ?w0 ?x |- mute ?w0 ?x => exact H
  | |- mute ?w ?w => apply mute_refl
  | |- mute ?w0 (let x := ?a in @?g x) =>
      lazymatch type of a with
      | World =>
          let H := fresh "H" in
          let w1 := fresh "w" in
          assert (H : mute w0 a) by mute_walk;
          change (mute w0 (g a)); revert H; generalize a;
          intros w1 H; cbv beta; mute_walk
      | _ => change (mute w0 (g a)); cbv beta; mute_walk
      end
  | |- mute ?w0 (match setTimeout ?cb ?d ?e with pair _ _ => _ end) =>
      let H := fresh "H" in
      let E := fresh "E" in
      let id := fresh "id" in
      let w1 := fresh "w" in
      assert (H : mute w0 e) by mute_walk;
      destruct (setTimeout cb d e) as [id w1] eqn:E;
      apply (mute_setTimeout _ _ _ _ _ w0) in E; [|exact H];
      mute_walk
  | Hin : isPlaybackActive ?w0 = false
    |- mute ?w0 (if negb (isPlaybackActive ?x) then _ else _) =>
      let H := fresh "H" in
      assert (H : mute w0 x) by mute_walk;
      rewrite (mute_inactive w0 x Hin H); cbn [negb]; mute_walk
  | Hin : isPlaybackActive ?w0 = false
    |- mute ?w0 (if isPlaybackActive ?x then _ else _) =>
      let H := fresh "H" in
      assert (H : mute w0 x) by mute_walk;
      rewrite (mute_inactive w0 x Hin H); mute_walk
  | |- mute _ (if ?b then _ else _) => destruct b; mute_walk
  | |- mute _ (match ?k with KUnpause => _ | _ => _ end) =>
      destruct k; mute_walk
  | |- mute _ (match ?k with NoPlayer => _ | _ => _ end) =>
      destruct k; mute_walk
  | |- mute _ (match ?k with Some _ => _ | None => _ end) =>
      destruct k; mute_walk
  | |- mute _ (match ?k with pair _ _ => _ end) =>
      destruct k; mute_walk
  | |- mute _ (match ?k with KReadyFlush => _ | _ => _ end) =>
      destruct k; mute_walk
  | |- mute _ (match ?k with CbEnableSync => _ | _ => _ end) =>
      destruct k; mute_walk
  | |- mute _ (emit _ _) => apply mute_emit; [reflexivity | mute_walk]
  | |- mute _ (with_mgr _ _) => apply mute_with_mgr; mute_walk
  | |- mute _ (with_core _ _) => apply mute_with_core; mute_walk
  | |- mute _ (set_waiters _ _) => apply mute_set_waiters; mute_walk
  | |- mute _ (set_timers _ _) => apply mute_set_timers; mute_walk
  | |- mute _ (clearTimeout _ _) => apply mute_clearTimeout; mute_walk
  | |- mute _ (waitForEventOnce _ _ _ _ _) =>
      apply mute_waitForEventOnce; mute_walk
  | |- _ => solve [auto with mute nocore]
  end.

Section Inactive.

Variable w0 : World.
Hypothesis inactive : isPlaybackActive w0 = false.

Lemma mute_localUnpause x : mute w0 x -> mute w0 (localUnpause x).
Proof. intros H. cbv beta delta [localUnpause]. mute_walk. Qed.

Lemma mute_localPause x : mute w0 x -> mute w0 (localPause x).
Proof. intros H. cbv beta delta [localPause]. mute_walk. Qed.

Lemma mute_localSeek p x : mute w0 x -> mute w0 (localSeek p x).
Proof. intros H. cbv beta delta [localSeek]. mute_walk. Qed.

Lemma mute_localStop x : mute w0 x -> mute w0 (localStop x).
Proof. intros H. cbv beta delta [localStop]. mute_walk. Qed.

Lemma mute_sendBufferingRequest b x :
  mute w0 x -> mute w0 (sendBufferingRequest b x).
Proof. intros H. cbv beta delta [sendBufferingRequest]. mute_walk. Qed.

Lemma mute_clearSyncIcon x : mute w0 x -> mute w0 (clearSyncIcon x).
Proof. intros H. cbv beta delta [clearSyncIcon]. mute_walk. Qed.

Hint Extern 0 (mute _ (localUnpause _)) => apply mute_localUnpause; mute_walk : mute.
Hint Extern 0 (mute _ (localPause _)) => apply mute_localPause; mute_walk : mute.
Hint Extern 0 (mute _ (localSeek _ _)) => apply mute_localSeek; mute_walk : mute.
Hint Extern 0 (mute _ (localStop _)) => apply mute_localStop; mute_walk : mute.
Hint Extern 0 (mute _ (sendBufferingRequest _ _)) =>
  apply mute_sendBufferingRequest; mute_walk : mute.
Hint Extern 0 (mute _ (clearSyncIcon _)) => apply mute_clearSyncIcon; mute_walk : mute.

Lemma mute_pauseCallback p x : mute w0 x -> mute w0 (pauseCallback p x).
Proof. intros H. cbv beta delta [pauseCallback]. mute_walk. Qed.

Lemma mute_stopCallback x : mute w0 x -> mute w0 (stopCallback x).
Proof. intros H. cbv beta delta [stopCallback]. mute_walk. Qed.

Lemma mute_seekCallback p x : mute w0 x -> mute w0 (seekCallback p x).
Proof. intros H. cbv beta delta [seekCallback]. mute_walk. Qed.

Hint Extern 0 (mute _ (pauseCallback _ _)) => apply mute_pauseCallback; mute_walk : mute.
Hint Extern 0 (mute _ (stopCallback _)) => apply mute_stopCallback; mute_walk : mute.
Hint Extern 0 (mute _ (seekCallback _ _)) => apply mute_seekCallback; mute_walk : mute.

(** A command is dropped before it reaches [applyCommand]. *)
Lemma mute_processCommand cmd x : mute w0 x -> mute w0 (processCommand cmd x).
Proof.
  intros H. pose proof (mute_inactive w0 x inactive H) as Hx.
  destruct cmd as [cmd|]; [|exact H].
  destruct (processCommand_cases cmd x)
    as [E|[(t & E & Hlt)|[(t & E & Hle & Hr)|[(t & E & Hle & Hr & Ha)
       |[(t & E & Hle & Hr & Ha & _)|(t & E & Hle & Hr & Ha & _)]]]]];
    try congruence.
  - rewrite (processCommand_not_enabled cmd x E). mute_walk.
  - rewrite (processCommand_old cmd x t E Hlt). mute_walk.
  - rewrite (processCommand_queued cmd x t E Hle Hr). mute_walk.
  - rewrite (processCommand_no_player cmd x t E Hle Hr Ha). mute_walk.
Qed.

Hint Extern 0 (mute _ (processCommand _ _)) => apply mute_processCommand; mute_walk : mute.

Lemma mute_syncPlaybackTime x : mute w0 x -> mute w0 (syncPlaybackTime x).
Proof. intros H. cbv beta delta [syncPlaybackTime]. mute_walk. Qed.

Lemma mute_onPlaying x : mute w0 x -> mute w0 (onPlaying x).
Proof. intros H. cbv beta delta [onPlaying]. mute_walk. Qed.

Lemma mute_onWaiting x : mute w0 x -> mute w0 (onWaiting x).
Proof. intros H. cbv beta delta [onWaiting]. mute_walk. Qed.

Lemma mute_injectPlaybackManager x : mute w0 x -> mute w0 (injectPlaybackManager x).
Proof. intros H. cbv beta delta [injectPlaybackManager]. mute_walk. Qed.

Lemma mute_restorePlaybackManager x : mute w0 x -> mute w0 (restorePlaybackManager x).
Proof. intros H. cbv beta delta [restorePlaybackManager]. mute_walk. Qed.

Hint Extern 0 (mute _ (injectPlaybackManager _)) =>
  apply mute_injectPlaybackManager; mute_walk : mute.
Hint Extern 0 (mute _ (restorePlaybackManager _)) =>
  apply mute_restorePlaybackManager; mute_walk : mute.

Lemma mute_enableSyncPlay g x : mute w0 x -> mute w0 (enableSyncPlay g x).
Proof. intros H. cbv beta delta [enableSyncPlay]. mute_walk. Qed.

Lemma mute_disableSyncPlay x : mute w0 x -> mute w0 (disableSyncPlay x).
Proof. intros H. cbv beta delta [disableSyncPlay]. mute_walk. Qed.

Lemma mute_runContinuation k x : mute w0 x -> mute w0 (runContinuation k x).
Proof. intros H. cbv beta delta [runContinuation]. mute_walk. Qed.

Lemma mute_rejectWaiter wid x : mute w0 x -> mute w0 (rejectWaiter wid x).
Proof.
  intros H. unfold rejectWaiter. destruct (find _ (waiters x)); [|exact H].
  apply mute_runContinuation, mute_set_waiters, H.
Qed.

Lemma mute_runCallback cb x : mute w0 x -> mute w0 (runCallback cb x).
Proof.
  intros H. destruct cb; cbv beta iota delta [runCallback]; try mute_walk.
  apply mute_rejectWaiter, H.
Qed.

Lemma mute_fold_clearTimeout (hit : list Waiter) x :
  mute w0 x -> mute w0 (fold_left (fun w y => clearTimeout (w_timer y) w) hit x).
Proof.
  revert x. induction hit as [|y hit IH]; intros x H; cbn; [exact H|].
  apply IH, mute_clearTimeout, H.
Qed.

Lemma mute_fold_runContinuation (hit : list Waiter) x :
  mute w0 x ->
  mute w0 (fold_left (fun w y => runContinuation (w_then y) w) hit x).
Proof.
  revert x. induction hit as [|y hit IH]; intros x H; cbn; [exact H|].
  apply IH, mute_runContinuation, H.
Qed.

Lemma mute_resolveWaiters ev x : mute w0 x -> mute w0 (resolveWaiters ev x).
Proof.
  intros H. unfold resolveWaiters.
  apply mute_fold_runContinuation, mute_fold_clearTimeout, mute_set_waiters, H.
Qed.

Lemma mute_fireTimer id x : mute w0 x -> mute w0 (fireTimer id x).
Proof.
  intros H. unfold fireTimer. destruct (find _ (timers x)); [|exact H].
  destruct (Qle_bool _ _); [|exact H].
  apply mute_runCallback, mute_set_timers, H.
Qed.

End Inactive.

(** X6. While no player is active the playback manager is left alone:
    whatever arrives (commands, group events, time-sync updates, timers,
    awaited events) issues no player command; only handing a player over
    or releasing it can, by restoring its playback rate. *)
Theorem inactive_player_gets_no_command (ev : Event) (w : World) :
  isPlaybackActive w = false ->
  isPlayerHandover ev = false ->
  playerCommands (step ev w) = playerCommands w.
Proof.
  intros Hin Hev.
  destruct ev; try discriminate; cbn [step].
  - apply (mute_processCommand w Hin), mute_refl.
  - apply (mute_enableSyncPlay w), mute_refl.
  - apply (mute_disableSyncPlay w), mute_refl.
  - reflexivity.
  - apply (mute_resolveWaiters w Hin), mute_refl.
  - apply (mute_fireTimer w Hin), mute_refl.
  - apply (mute_resolveWaiters w Hin). unfold onUnpause.
    apply mute_emit; [reflexivity | apply mute_refl].
  - apply (mute_resolveWaiters w Hin). unfold onPause.
    apply mute_emit; [reflexivity | apply mute_refl].
  - apply (mute_resolveWaiters w Hin), (mute_onPlaying w), mute_refl.
  - apply (mute_onWaiting w), mute_refl.
  - unfold onTimeUpdate. apply mute_emit; [reflexivity|].
    apply (mute_syncPlaybackTime w Hin), mute_refl.
  - apply (mute_resolveWaiters w Hin). unfold onPlaybackStart.
    apply mute_emit; [reflexivity | apply mute_refl].
  - reflexivity.
  - reflexivity.
Qed.

Lemma inactive_player_gets_no_command_witness :
  let w := run [InCommand (Some (sampleCommand "Unpause" 5000 2000 "A"));
                Surroundings (sampleEnv 5000 false false)] readySession in
  playerCommands (step (TimerFired 2) w) = playerCommands w.
Proof.
  apply (inactive_player_gets_no_command (TimerFired 2)
           (run [InCommand (Some (sampleCommand "Unpause" 5000 2000 "A"));
                 Surroundings (sampleEnv 5000 false false)] readySession)).
  - reflexivity.
  - reflexivity.
Defined.

(* ------------------------------------------------------------------ *)
(** ** One pass of [syncPlaybackTime] *)

Ltac new_actions :=
  match goal with
  | |- exists l, ?t = l ++ ?t /\ _ => exists []
  | |- exists l, ?a :: ?t = l ++ ?t /\ _ => exists [a]
  | |- exists l, ?a :: ?b :: ?t = l ++ ?t /\ _ => exists [a; b]
  | |- exists l, ?a :: ?b :: ?c :: ?t = l ++ ?t /\ _ => exists [a; b; c]
  | |- exists l, ?a :: ?b :: ?c :: ?d :: ?t = l ++ ?t /\ _ =>
      exists [a; b; c; d]
  end.

(** X7. A pass of [syncPlaybackTime] issues at most one player command (a
    seek or a rate change, never both).  While [syncEnabled] is false,
    that is while a correction or a scheduled command is in progress, or
    with sync correction disabled, it issues none, arms no timer and
    leaves the attempt counter alone. *)
Theorem syncPlaybackTime_at_most_one_command (w : World) :
  (exists l, trace (syncPlaybackTime w) = l ++ trace w
             /\ (length (filter isPlayerCommand l) <= 1)%nat)
  /\ (syncEnabled (core w) && enableSyncCorrection (core w) = false ->
      playerCommands (syncPlaybackTime w) = playerCommands w
      /\ timers (syncPlaybackTime w) = timers w
      /\ syncEnabled (core (syncPlaybackTime w)) = syncEnabled (core w)
      /\ syncAttempts (core (syncPlaybackTime w)) = syncAttempts (core w)
      /\ mgr (syncPlaybackTime w) = mgr w).
Proof.
  unfold syncPlaybackTime, playerCommands. cbv zeta.
  destruct (isPlaybackActive w) eqn:Ha; cbn [negb].
  2:{ split; [exists [Console LDebug "SyncPlay syncPlaybackTime: no active player!"];
              split; [reflexivity | cbn; lia]
             | intros _; repeat split]. }
  destruct (lastCommand (core w)) as [l|].
  2:{ split; [exists []; split; [reflexivity | cbn; lia] | intros _; repeat split]. }
  destruct (negb (String.eqb (CommandName l) "Unpause") || isBuffering w).
  { split; [exists []; split; [reflexivity | cbn; lia] | intros _; repeat split]. }
  destruct (Qlt_bool _ _).
  { split; [exists []; split; [reflexivity | cbn; lia] | intros _; repeat split]. }
  unfold playbackRateSupported. csimp.
  destruct (syncEnabled (core w) && enableSyncCorrection (core w)).
  2:{ split; [exists []; split; [reflexivity | cbn; lia] | intros _; repeat split]. }
  split; [|discriminate].
  destruct (_ && _ && _ && _).
  { destruct (Qle_bool _ 0); csimp; new_actions; split; try reflexivity;
      cbn; lia. }
  destruct (_ && _).
  { unfold localSeek. csimp. rewrite Ha. cbn [negb]. csimp.
    new_actions; split; try reflexivity; cbn; lia. }
  destruct (0 <? _); csimp; new_actions; split; try reflexivity; cbn; lia.
Qed.

Lemma syncPlaybackTime_at_most_one_command_witness :
  (exists l, trace (syncPlaybackTime scheduledSession)
             = l ++ trace scheduledSession
             /\ (length (filter isPlayerCommand l) <= 1)%nat)
  /\ playerCommands (syncPlaybackTime scheduledSession)
     = playerCommands scheduledSession
  /\ timers (syncPlaybackTime scheduledSession) = timers scheduledSession
  /\ syncEnabled (core (syncPlaybackTime scheduledSession))
     = syncEnabled (core scheduledSession)
  /\ syncAttempts (core (syncPlaybackTime scheduledSession))
     = syncAttempts (core scheduledSession)
  /\ mgr (syncPlaybackTime scheduledSession) = mgr scheduledSession.
Proof.
  destruct (syncPlaybackTime_at_most_one_command scheduledSession) as [A B].
  split; [exact A|]. apply B. reflexivity.
Defined.

Lemma syncPlaybackTime_pass (l : Command) (w : World) :
  isPlaybackActive w = true ->
  lastCommand (core w) = Some l ->
  CommandName l = "Unpause"%string ->
  isBuffering w = false ->
  Qlt_bool (inject_Z (now (env w) - lastSyncTime (core w)))
    (maxDelaySpeedToSync (core w) / 2) = false ->
  lastSyncTime (core (syncPlaybackTime w)) = now (env w)
  /\ maxDelaySpeedToSync (core (syncPlaybackTime w)) = maxDelaySpeedToSync (core w)
  /\ lastCommand (core (syncPlaybackTime w)) = Some l.
Proof.
  intros Ha Hl Hn Hb He.
  unfold syncPlaybackTime. rewrite Ha, Hl, Hn, Hb, He.
  cbn [negb String.eqb Ascii.eqb Bool.eqb orb]. cbv zeta.
  unfold playbackRateSupported. csimp.
  destruct (syncEnabled (core w) && enableSyncCorrection (core w));
    [|csimp; rewrite Hl; repeat split].
  destruct (_ && _ && _ && _).
  { destruct (Qle_bool _ 0); csimp; rewrite Hl; repeat split. }
  destruct (_ && _).
  { unfold localSeek. csimp. rewrite Ha. cbn [negb]. csimp. rewrite Hl.
    repeat split. }
  destruct (0 <? _); csimp; rewrite Hl; repeat split.
Qed.

(** X8. Drift is evaluated at most once per half of [maxDelaySpeedToSync]:
    after a pass of [syncPlaybackTime] that got as far as measuring the
    drift, a further pass less than that interval later changes nothing,
    whatever the drift has become. *)
Theorem syncPlaybackTime_throttled (l : Command) (w : World) (e' : Env) :
  isPlaybackActive w = true ->
  lastCommand (core w) = Some l ->
  CommandName l = "Unpause"%string ->
  isBuffering w = false ->
  (maxDelaySpeedToSync (core w) / 2
   <= inject_Z (now (env w) - lastSyncTime (core w)))%Q ->
  wrapper_isPlaybackActive e' = true ->
  (inject_Z (now e' - now (env w)) < maxDelaySpeedToSync (core w) / 2)%Q ->
  syncPlaybackTime (with_env e' (syncPlaybackTime w))
  = with_env e' (syncPlaybackTime w).
Proof.
  intros Ha Hl Hn Hb He Ha' Hsoon.
  assert (He' : Qlt_bool (inject_Z (now (env w) - lastSyncTime (core w)))
                  (maxDelaySpeedToSync (core w) / 2) = false).
  { unfold Qlt_bool. apply negb_false_iff, Qle_bool_iff, He. }
  destruct (syncPlaybackTime_pass l w Ha Hl Hn Hb He') as (Ht & Hm & Hc).
  revert Ht Hm Hc. generalize (syncPlaybackTime w). intros w1 Ht Hm Hc.
  unfold syncPlaybackTime at 1. unfold isPlaybackActive, isBuffering.
  cbn [with_env env core]. rewrite Ha', Hc, Hn, Ht, Hm.
  cbn [negb String.eqb Ascii.eqb Bool.eqb orb].
  apply Qlt_bool_iff in Hsoon. rewrite Hsoon.
  destruct (match lastPlaybackWaiting (core w1) with
            | Some t => _ | None => false end); reflexivity.
Qed.

Lemma syncPlaybackTime_throttled_witness :
  syncPlaybackTime
    (with_env (playingEnv 16000 10500) (syncPlaybackTime playingSession))
  = with_env (playingEnv 16000 10500) (syncPlaybackTime playingSession).
Proof.
  apply (syncPlaybackTime_throttled playingCommand playingSession
           (playingEnv 16000 10500)).
  - reflexivity.
  - vm_compute. reflexivity.
  - reflexivity.
  - vm_compute. reflexivity.
  - vm_compute. discriminate.
  - reflexivity.
  - vm_compute. reflexivity.
Defined.

(* ------------------------------------------------------------------ *)
(** ** Player slot and session flags *)

Lemma keeps_refl {T} (proj : World -> T) w : keeps proj w w.
Proof. reflexivity. Qed.

Lemma keeps_step {T} (proj : World -> T) (w0 x y : World) :
  keeps proj w0 x -> proj y = proj x -> keeps proj w0 y.
Proof. unfold keeps. congruence. Qed.

Lemma keeps_setTimeout {T} (proj : World -> T) cb d x id x1 w0 :
  setTimeout cb d x = (id, x1) ->
  proj x1 = proj x -> keeps proj w0 x -> keeps proj w0 x1.
Proof. unfold keeps. congruence. Qed.

Lemma timeSyncWaiters_waitForEventOnce ev t k kc w :
  EventName_eqb ev EvTimeSyncServerUpdate = false ->
  timeSyncWaiters (waitForEventOnce ev t k kc w) = timeSyncWaiters w.
Proof.
  intros Hev. unfold timeSyncWaiters, waitForEventOnce, awaits. cbv zeta.
  destruct t as [t|]; [destruct (Qeq_bool t 0)|]; cbn [waiters setTimeout];
    rewrite filter_app; cbn [filter w_event]; rewrite Hev; apply app_nil_r.
Qed.

Ltac keeps_side :=
  first
    [ solve [ unfold playerAndSession, playerSlot, sessionFlags;
              cbv beta; autorewrite with world; reflexivity ]
    | solve [ unfold timeSyncWaiters;
              cbv beta; autorewrite with world; reflexivity ]
    | solve [ apply timeSyncWaiters_waitForEventOnce; reflexivity ] ].

(** Walk down a function body, entering the functions it calls, for an
    observation that none of the primitive operations met on the way
    changes. *)
Ltac keeps_walk :=
  idtac;
  lazymatch goal with
  | H : keeps ?p ?w0 ?x |- keeps ?p ?w0 ?x => exact H
  | |- keeps _ ?w ?w => apply keeps_refl
  | |- keeps ?p ?w0 (let x := ?a in @?g x) =>
      lazymatch type of a with
      | World =>
          let H := fresh "H" in
          let w1 := fresh "w" in
          assert (H : keeps p w0 a) by keeps_walk;
          change (keeps p w0 (g a)); revert H; generalize a;
          intros w1 H; cbv beta; keeps_walk
      | _ => change (keeps p w0 (g a)); cbv beta; keeps_walk
      end
  | |- keeps ?p ?w0 (match setTimeout ?cb ?d ?e with pair _ _ => _ end) =>
      let H := fresh "H" in
      let E := fresh "E" in
      let id := fresh "id" in
      let w1 := fresh "w" in
      assert (H : keeps p w0 e) by keeps_walk;
      destruct (setTimeout cb d e) as [id w1] eqn:E;
      apply (keeps_setTimeout p _ _ _ _ _ w0) in E;
        [ | unfold setTimeout in E; injection E as <- <-; reflexivity
          | exact H ];
      keeps_walk
  | |- keeps _ _ (if ?b then _ else _) => destruct b; keeps_walk
  | |- keeps _ _ (match ?k with KUnpause => _ | _ => _ end) =>
      destruct k; keeps_walk
  | |- keeps _ _ (match ?k with NoPlayer => _ | _ => _ end) =>
      destruct k; keeps_walk
  | |- keeps _ _ (match ?k with Some _ => _ | None => _ end) =>
      destruct k; keeps_walk
  | |- keeps _ _ (match ?k with pair _ _ => _ end) =>
      destruct k; keeps_walk
  | |- keeps _ _ (match ?k with KReadyFlush => _ | _ => _ end) =>
      destruct k; keeps_walk
  | |- keeps ?p ?w0 (emit ?a ?x) =>
      apply (keeps_step p w0 x); [keeps_walk | keeps_side]
  | |- keeps ?p ?w0 (with_mgr ?f ?x) =>
      apply (keeps_step p w0 x); [keeps_walk | keeps_side]
  | |- keeps ?p ?w0 (with_core ?f ?x) =>
      apply (keeps_step p w0 x); [keeps_walk | keeps_side]
  | |- keeps ?p ?w0 (set_waiters ?f ?x) =>
      apply (keeps_step p w0 x); [keeps_walk | keeps_side]
  | |- keeps ?p ?w0 (set_timers ?f ?x) =>
      apply (keeps_step p w0 x); [keeps_walk | keeps_side]
  | |- keeps ?p ?w0 (clearTimeout ?h ?x) =>
      apply (keeps_step p w0 x); [keeps_walk | keeps_side]
  | |- keeps ?p ?w0 (waitForEventOnce ?ev ?t ?k ?kc ?x) =>
      apply (keeps_step p w0 x); [keeps_walk | keeps_side]
  | |- keeps _ _ (localUnpause _) => cbv beta delta [localUnpause]; keeps_walk
  | |- keeps _ _ (localPause _) => cbv beta delta [localPause]; keeps_walk
  | |- keeps _ _ (localSeek _ _) => cbv beta delta [localSeek]; keeps_walk
  | |- keeps _ _ (localStop _) => cbv beta delta [localStop]; keeps_walk
  | |- keeps _ _ (sendBufferingRequest _ _) =>
      cbv beta delta [sendBufferingRequest]; keeps_walk
  | |- keeps _ _ (clearSyncIcon _) => cbv beta delta [clearSyncIcon]; keeps_walk
  | |- keeps _ _ (showSyncIcon _ _) => cbv beta delta [showSyncIcon]; keeps_walk
  | |- keeps _ _ (clearScheduledCommand _) =>
      cbv beta delta [clearScheduledCommand]; keeps_walk
  | |- keeps _ _ (pauseCallback _ _) => cbv beta delta [pauseCallback]; keeps_walk
  | |- keeps _ _ (stopCallback _) => cbv beta delta [stopCallback]; keeps_walk
  | |- keeps _ _ (seekCallback _ _) => cbv beta delta [seekCallback]; keeps_walk
  | |- keeps _ _ (scheduleUnpause _ _ _) =>
      cbv beta delta [scheduleUnpause]; keeps_walk
  | |- keeps _ _ (schedulePause _ _ _) =>
      cbv beta delta [schedulePause]; keeps_walk
  | |- keeps _ _ (scheduleStop _ _) => cbv beta delta [scheduleStop]; keeps_walk
  | |- keeps _ _ (scheduleSeek _ _ _) =>
      cbv beta delta [scheduleSeek]; keeps_walk
  | |- keeps _ _ (applyCommand _ _) => cbv beta delta [applyCommand]; keeps_walk
  | |- keeps _ _ (processCommand _ _) =>
      cbv beta delta [processCommand]; keeps_walk
  | |- keeps _ _ (syncPlaybackTime _) =>
      cbv beta delta [syncPlaybackTime]; keeps_walk
  | |- keeps _ _ (onTimeUpdate _) => cbv beta delta [onTimeUpdate]; keeps_walk
  | |- keeps _ _ (onPlaying _) => cbv beta delta [onPlaying]; keeps_walk
  | |- keeps _ _ (onWaiting _) => cbv beta delta [onWaiting]; keeps_walk
  | |- keeps _ _ (onUnpause _) => cbv beta delta [onUnpause]; keeps_walk
  | |- keeps _ _ (onPause _) => cbv beta delta [onPause]; keeps_walk
  | |- keeps _ _ (onPlaybackStart _) =>
      cbv beta delta [onPlaybackStart]; keeps_walk
  | |- keeps _ _ (loadPreferences _ _ _ _ _ _ _ _) =>
      cbv beta delta [loadPreferences]; keeps_walk
  | |- keeps _ _ (runContinuation _ _) =>
      cbv beta delta [runContinuation]; keeps_walk
  | |- keeps _ _ (injectPlaybackManager _) =>
      cbv beta delta [injectPlaybackManager]; keeps_walk
  | |- keeps _ _ (restorePlaybackManager _) =>
      cbv beta delta [restorePlaybackManager]; keeps_walk
  | |- keeps _ _ (enableSyncPlay _ _) =>
      cbv beta delta [enableSyncPlay]; keeps_walk
  | |- keeps _ _ (disableSyncPlay _) =>
      cbv beta delta [disableSyncPlay]; keeps_walk
  | |- keeps _ _ (onPlayerChange _ _) =>
      cbv beta delta [onPlayerChange]; keeps_walk
  | |- keeps _ _ (releaseCurrentPlayer _) =>
      cbv beta delta [releaseCurrentPlayer]; keeps_walk
  | |- keeps _ _ (onPlaybackStop _) =>
      cbv beta delta [onPlaybackStop]; keeps_walk
  end.

Lemma keeps_fold {T A} (proj : World -> T) (f : World -> A -> World)
    (l : list A) (w0 : World) :
  (forall x a, keeps proj w0 x -> keeps proj w0 (f x a)) ->
  forall x, keeps proj w0 x -> keeps proj w0 (fold_left f l x).
Proof. intros Hf. induction l as [|a l IH]; intros x H; cbn; auto. Qed.

Lemma playerAndSession_runContinuation k w0 x :
  keeps playerAndSession w0 x -> keeps playerAndSession w0 (runContinuation k x).
Proof. intros H. keeps_walk. Qed.

Lemma playerAndSession_resolveWaiters ev w0 x :
  keeps playerAndSession w0 x -> keeps playerAndSession w0 (resolveWaiters ev x).
Proof.
  intros H. unfold resolveWaiters. cbv zeta.
  apply keeps_fold; [intros; apply playerAndSession_runContinuation; assumption|].
  apply keeps_fold; [intros; keeps_walk|]. keeps_walk.
Qed.

Lemma playerAndSession_fireTimer id w0 x :
  keeps playerAndSession w0 x -> keeps playerAndSession w0 (fireTimer id x).
Proof.
  intros H. unfold fireTimer. destruct (find _ (timers x)) as [t|]; [|exact H].
  destruct (Qle_bool _ _); [|exact H].
  destruct (t_callback t); cbv beta iota delta [runCallback]; try keeps_walk.
  unfold rejectWaiter. cbn [set_timers waiters].
  destruct (find _ (waiters x)); [|keeps_walk].
  apply playerAndSession_runContinuation. keeps_walk.
Qed.

(** Apart from the hand-over of a player and from joining or leaving a
    group, no event touches the player slot, the saved playback rate, the
    enable time or the overriding of the playback manager. *)
Lemma playerAndSession_step ev w :
  isPlayerHandover ev = false -> isGroupMembership ev = false ->
  playerAndSession (step ev w) = playerAndSession w.
Proof.
  intros Hh Hg. change (keeps playerAndSession w (step ev w)).
  destruct ev; try discriminate; cbn [step].
  - keeps_walk.
  - keeps_walk.
  - apply playerAndSession_resolveWaiters, keeps_refl.
  - apply playerAndSession_fireTimer, keeps_refl.
  - apply playerAndSession_resolveWaiters. keeps_walk.
  - apply playerAndSession_resolveWaiters. keeps_walk.
  - apply playerAndSession_resolveWaiters. keeps_walk.
  - keeps_walk.
  - keeps_walk.
  - apply playerAndSession_resolveWaiters. keeps_walk.
  - keeps_walk.
  - reflexivity.
Qed.

Lemma playerSlot_step ev w :
  isPlayerHandover ev = false -> playerSlot (step ev w) = playerSlot w.
Proof.
  intros Hh. destruct (isGroupMembership ev) eqn:Hg.
  - change (keeps playerSlot w (step ev w)).
    destruct ev; try discriminate; cbn [step]; keeps_walk.
  - pose proof (playerAndSession_step ev w Hh Hg) as H.
    unfold playerAndSession in H. congruence.
Qed.

Lemma sessionFlags_step ev w :
  isGroupMembership ev = false -> sessionFlags (step ev w) = sessionFlags w.
Proof.
  intros Hg. destruct (isPlayerHandover ev) eqn:Hh.
  - change (keeps sessionFlags w (step ev w)).
    destruct ev as [| | | | | |[[[|] rate]|]| | | | | | | | |];
      try discriminate; cbn [step]; keeps_walk.
  - pose proof (playerAndSession_step ev w Hh Hg) as H.
    unfold playerAndSession in H. congruence.
Qed.

Lemma playerSlot_run es w :
  Forall (fun ev => isPlayerHandover ev = false) es ->
  playerSlot (run es w) = playerSlot w.
Proof.
  revert w. induction es as [|ev es IH]; intros w H; [reflexivity|].
  inversion H as [|? ? Hev Hes]; subst. cbn [run fold_left].
  change (playerSlot (run es (step ev w)) = playerSlot w).
  rewrite (IH _ Hes). apply playerSlot_step, Hev.
Qed.

(** X9. The playback rate found on a player when it is picked up is the
    rate set on it when it is let go: whatever happens in between (short
    of another hand-over), releasing the player or replacing it first
    restores that rate, and nothing else is asked of the player. *)
Theorem playback_rate_restored (rate : Q) (es : list Event) (ev : Event)
    (w : World) :
  Forall (fun e => isPlayerHandover e = false) es ->
  isPlayerHandover ev = true ->
  let w1 := run es (step (PlayerChanged (Some (true, rate))) w) in
  playerCommands (step ev w1) = SetPlaybackRate rate :: playerCommands w1.
Proof.
  intros Hes Hev w1.
  assert (Hslot : playerSlot w1 = (Player true, rate)).
  { subst w1. rewrite (playerSlot_run es _ Hes). cbn [step].
    unfold onPlayerChange, playerSlot.
    destruct (currentPlayer (core w)) as [|[|]]; reflexivity. }
  revert Hslot. generalize w1. clear w1. intros w1 Hslot.
  unfold playerSlot in Hslot. injection Hslot as Hp Hr.
  unfold playerCommands.
  destruct ev as [| | | | | |[[[|] r]|]| | | | | | | | |]; try discriminate;
    cbn [step]; unfold onPlaybackStop, releaseCurrentPlayer, onPlayerChange;
    cbv zeta; cbn [with_core emit core env c_lastCommand currentPlayer
                   localPlayerPlaybackRate];
    rewrite ?Hp, ?Hr;
    try (destruct (hasPlayerWrapper (env w1)));
    cbn [with_core emit core env trace c_lastCommand currentPlayer
         localPlayerPlaybackRate filter isPlayerCommand];
    rewrite ?Hp, ?Hr; reflexivity.
Qed.

Lemma playback_rate_restored_witness :
  let w1 := run [InGroupJoined (sampleGroup 1000); TimeSyncServerUpdate;
                 InCommand (Some (sampleCommand "Unpause" 5000 2000 "A"))]
              (step (PlayerChanged (Some (true, 2%Q)))
                 (initialWorld (sampleEnv 3000 true false)
                    (defaultCore true true true))) in
  playerCommands (step PlayerPlaybackStop w1)
  = SetPlaybackRate 2 :: playerCommands w1.
Proof.
  apply (playback_rate_restored 2
           [InGroupJoined (sampleGroup 1000); TimeSyncServerUpdate;
            InCommand (Some (sampleCommand "Unpause" 5000 2000 "A"))]
           PlayerPlaybackStop).
  - repeat constructor.
  - reflexivity.
Defined.

(** *** Overriding the playback manager *)

Lemma injectedAfter_filter (l : list Action) :
  injectedAfter (filter isInjection l) = injectedAfter l.
Proof.
  induction l as [|a l IH]; [reflexivity|].
  destruct a; cbn [filter isInjection injectedAfter]; rewrite ?IH; reflexivity.
Qed.

Lemma sessionFlags_enableSyncPlay g w :
  sessionFlags (enableSyncPlay g w) =
  (Some (LastUpdatedAt g), true,
   if mgr_pmSyncPlayEnabled (mgr w) then filter isInjection (trace w)
   else InjectPlaybackManager :: filter isInjection (trace w)).
Proof.
  unfold sessionFlags. rewrite mgr_enableSyncPlay.
  cbn [syncPlayEnabledAt mgr_pmSyncPlayEnabled]. f_equal.
  unfold enableSyncPlay, injectPlaybackManager, isSyncPlayEnabled. cbv zeta.
  cbn [with_mgr mgr m_syncPlayEnabledAt m_groupInfo syncPlayEnabledAt negb
       mgr_pmSyncPlayEnabled env].
  destruct (mgr_pmSyncPlayEnabled (mgr w));
    cbn [with_mgr emit env]; destruct (hasPlayerWrapper (env w));
    cbn [emit with_mgr env]; autorewrite with world;
    cbn [emit with_mgr env trace]; destruct (enableWebRTC (env w));
    cbn [emit with_mgr env trace]; autorewrite with world;
    cbn [emit with_mgr env trace filter isInjection]; reflexivity.
Qed.

Lemma sessionFlags_disableSyncPlay w :
  sessionFlags (disableSyncPlay w) =
  (None, false,
   if mgr_pmSyncPlayEnabled (mgr w)
   then RestorePlaybackManager :: filter isInjection (trace w)
   else filter isInjection (trace w)).
Proof.
  unfold sessionFlags, disableSyncPlay, restorePlaybackManager,
    isSyncPlayEnabled.
  cbn [with_mgr with_core emit mgr core env timers waiters trace
       m_syncPlayEnabledAt m_syncPlayReady m_followingGroupPlayback
       m_lastPlaybackCommand m_queuedCommand syncPlayEnabledAt
       mgr_pmSyncPlayEnabled negb].
  destruct (mgr_pmSyncPlayEnabled (mgr w)) eqn:Epm,
           (hasPlayerWrapper (env w)) eqn:Ew;
    cbn; rewrite ?Ew; cbn; rewrite ?Epm; reflexivity.
Qed.

(** X10. The playback manager's methods are overridden exactly while a
    group is joined: in every reachable state the overrides and restores
    performed so far alternate, starting with an override, the methods
    are overridden if and only if SyncPlay is enabled, and the flag kept
    on the playback manager says so.  In particular joining a second
    group without leaving the first does not override twice. *)
Theorem playback_manager_overridden_iff_enabled (w : World) :
  reachable w ->
  injectedAfter (trace w) = Some (isSyncPlayEnabled w)
  /\ mgr_pmSyncPlayEnabled (mgr w) = isSyncPlayEnabled w.
Proof.
  intros Hr.
  induction Hr as [e p | w ev Hr IH]; [split; reflexivity|].
  rewrite <- injectedAfter_filter in *.
  destruct IH as [IH1 IH2]. unfold isSyncPlayEnabled in *.
  assert (H : sessionFlags (step ev w) =
              if isGroupMembership ev
              then match ev with
                   | InGroupJoined g =>
                       (Some (LastUpdatedAt g), true,
                        if mgr_pmSyncPlayEnabled (mgr w)
                        then filter isInjection (trace w)
                        else InjectPlaybackManager
                             :: filter isInjection (trace w))
                   | _ =>
                       (None, false,
                        if mgr_pmSyncPlayEnabled (mgr w)
                        then RestorePlaybackManager
                             :: filter isInjection (trace w)
                        else filter isInjection (trace w))
                   end
              else sessionFlags w).
  { destruct (isGroupMembership ev) eqn:Hg.
    - destruct ev; try discriminate; cbn [step].
      + apply sessionFlags_enableSyncPlay.
      + apply sessionFlags_disableSyncPlay.
    - apply sessionFlags_step, Hg. }
  revert H. generalize (step ev w). intros w' H.
  unfold sessionFlags in H.
  destruct (isGroupMembership ev).
  - destruct ev; injection H as -> -> ->;
      (split; [|reflexivity]);
      destruct (mgr_pmSyncPlayEnabled (mgr w)); cbn [injectedAfter];
      rewrite IH1, <- IH2; reflexivity.
  - injection H as -> -> ->. split; assumption.
Qed.

Lemma playback_manager_overridden_iff_enabled_witness :
  let w := run [InGroupJoined (sampleGroup 1000);
                InGroupJoined (sampleGroup 2000);
                InGroupLeft;
                InGroupJoined (sampleGroup 3000)]
             (initialWorld (sampleEnv 3000 true false)
                (defaultCore true true true)) in
  injectedAfter (trace w) = Some (isSyncPlayEnabled w)
  /\ mgr_pmSyncPlayEnabled (mgr w) = isSyncPlayEnabled w.
Proof.
  apply (playback_manager_overridden_iff_enabled
           (run [InGroupJoined (sampleGroup 1000);
                 InGroupJoined (sampleGroup 2000);
                 InGroupLeft;
                 InGroupJoined (sampleGroup 3000)]
              (initialWorld (sampleEnv 3000 true false)
                 (defaultCore true true true)))).
  apply reachable_run, reach_init.
Defined.

(* ------------------------------------------------------------------ *)
(** ** A duplicate Seek whose instant has passed *)

Lemma random_offset_bound (r : Q) :
  (0 <= r)%Q -> (r < 1)%Q ->
  -50 <= Math_round ((r - (1 # 2)) * 100) <= 50.
Proof.
  intros H0 H1. unfold Math_round. split.
  - change (-50) with (Qfloor (inject_Z (-50))).
    apply Qfloor_resp_le. unfold inject_Z. lra.
  - change 50 with (Qfloor (inject_Z 50 + (1 # 2))).
    apply Qfloor_resp_le. unfold inject_Z. lra.
Qed.

(** X11. A duplicate of a Seek whose instant has passed: if the player is
    paused exactly at the commanded position the client only tells the
    server that it is ready; otherwise it seeks again, to the commanded
    position moved by a whole number of milliseconds between -50 and 50
    ([Math.random] being in [0, 1)). *)
Theorem duplicate_seek_is_repaired (c : Command) (w : World) :
  isDuplicate (lastCommand (core w)) c = true ->
  remoteDateToLocal (env w) (When c) <= now (env w) ->
  CommandName c = "Seek"%string ->
  (0 <= Math_random (env w))%Q -> (Math_random (env w) < 1)%Q ->
  let w0 := emit (Console LDebug
                    "SyncPlay applyCommand: duplicate command received!") w in
  let inPlace :=
    pm_IsPaused (env w)
    && num_strict_eq (pm_currentTime (env w) * TicksPerMillisecond)
         (ofTicks (PositionTicks c)) in
  (inPlace = true -> applyCommand c w = sendBufferingRequest false w0)
  /\ (inPlace = false ->
      exists k : Z,
        -50 <= k <= 50
        /\ applyCommand c w =
           emit (Console LDebug
                   "SyncPlay applyCommand: adding random offset to force seek:")
             (scheduleSeek (When c)
                (Some (toNum (ofTicks (PositionTicks c))
                       + inject_Z k * TicksPerMillisecond)%Q) w0)).
Proof.
  intros Hdup Hpast Hname Hr0 Hr1 w0 inPlace.
  assert (E : applyCommand c w =
    if negb (pm_IsPaused (env w))
       || negb (num_strict_eq (pm_currentTime (env w) * TicksPerMillisecond)
                  (ofTicks (PositionTicks c)))
    then
      emit (Console LDebug
              "SyncPlay applyCommand: adding random offset to force seek:")
        (scheduleSeek (When c)
           (Some (toNum (ofTicks (PositionTicks c))
                  + inject_Z (Math_round ((Math_random (env w) - (1 # 2)) * 100))
                    * TicksPerMillisecond)%Q) w0)
    else sendBufferingRequest false w0).
  { unfold applyCommand. rewrite Hdup. cbv zeta. fold w0.
    change (env w0) with (env w).
    apply Z.ltb_ge in Hpast. rewrite Hpast.
    unfold kindOf. rewrite Hname. cbn [String.eqb Ascii.eqb Bool.eqb].
    reflexivity. }
  rewrite E. subst inPlace.
  destruct (pm_IsPaused (env w)), (num_strict_eq _ _); cbn [negb orb andb];
    (split; intros H;
       first [ discriminate
             | reflexivity
             | exists (Math_round ((Math_random (env w) - (1 # 2)) * 100));
               split; [apply random_offset_bound; assumption | reflexivity] ]).
Qed.

Lemma duplicate_seek_is_repaired_witness :
  let c := mkCommand false 5000 2000 (Some 70000000) "Seek" (Some "A"%string) in
  let w := with_env (playingEnv 6000 7000)
             (with_core (c_lastCommand (Some c)) readySession) in
  let w0 := emit (Console LDebug
                    "SyncPlay applyCommand: duplicate command received!") w in
  let inPlace :=
    pm_IsPaused (env w)
    && num_strict_eq (pm_currentTime (env w) * TicksPerMillisecond)
         (ofTicks (PositionTicks c)) in
  (inPlace = true -> applyCommand c w = sendBufferingRequest false w0)
  /\ (inPlace = false ->
      exists k : Z,
        -50 <= k <= 50
        /\ applyCommand c w =
           emit (Console LDebug
                   "SyncPlay applyCommand: adding random offset to force seek:")
             (scheduleSeek (When c)
                (Some (toNum (ofTicks (PositionTicks c))
                       + inject_Z k * TicksPerMillisecond)%Q) w0)).
Proof.
  apply (duplicate_seek_is_repaired
           (mkCommand false 5000 2000 (Some 70000000) "Seek" (Some "A"%string))
           (with_env (playingEnv 6000 7000)
              (with_core
                 (c_lastCommand
                    (Some (mkCommand false 5000 2000 (Some 70000000) "Seek"
                             (Some "A"%string))))
                 readySession))).
  - reflexivity.
  - vm_compute. discriminate.
  - reflexivity.
  - vm_compute. discriminate.
  - vm_compute. reflexivity.
Defined.

(* ------------------------------------------------------------------ *)
(** ** The seek that follows a pause *)

Lemma find_fresh_waiter (ws : list Waiter) (x : Waiter) :
  (forall y, In y ws -> (w_id y < w_id x)%nat) ->
  find (fun y => Nat.eqb (w_id y) (w_id x)) (ws ++ [x]) = Some x
  /\ filter (fun y => negb (Nat.eqb (w_id y) (w_id x))) (ws ++ [x]) = ws.
Proof.
  intros Hlt. induction ws as [|a ws IH]; cbn.
  - rewrite Nat.eqb_refl. cbn. split; reflexivity.
  - assert (Ha : Nat.eqb (w_id a) (w_id x) = false).
    { apply Nat.eqb_neq. specialize (Hlt a (or_introl eq_refl)). lia. }
    rewrite Ha. cbn. destruct IH as [IH1 IH2].
    { intros t Ht. apply Hlt. right. exact Ht. }
    rewrite IH1, IH2. split; reflexivity.
Qed.

Lemma filter_negb_all {A} (p : A -> bool) (l : list A) :
  filter p l = [] -> filter (fun x => negb (p x)) l = l.
Proof.
  induction l as [|a l IH]; cbn; [reflexivity|].
  destruct (p a); [discriminate|]. cbn. intros H. rewrite IH by exact H.
  reflexivity.
Qed.

Lemma find_stale_timer (ts : list Timer) (n : nat) :
  (forall t, In t ts -> (t_id t < n)%nat) ->
  find (fun t => Nat.eqb (t_id t) n) ts = None.
Proof.
  intros Hlt. induction ts as [|a ts IH]; cbn; [reflexivity|].
  assert (Ha : Nat.eqb (t_id a) n = false).
  { apply Nat.eqb_neq. specialize (Hlt a (or_introl eq_refl)). lia. }
  rewrite Ha. apply IH. intros t Ht. apply Hlt. right. exact Ht.
Qed.

Lemma pauseCallback_eq (pos : option Q) (w : World) :
  pauseCallback pos w =
  localPause
    (mkWorld (env w) (mgr w) (core w)
       (timers w ++ [mkTimer (S (nextId w))
                       (inject_Z (now (env w)) + WaitForPlayerEventTimeout)%Q
                       (CbRejectWaiter (nextId w))])
       (waiters w ++ [mkWaiter (nextId w) EvPause (Some (S (nextId w)))
                        (KSeek pos) (KSeek pos)])
       (S (S (nextId w))) (trace w)).
Proof. reflexivity. Qed.

Lemma localPause_proj (w : World) :
  env (localPause w) = env w /\ mgr (localPause w) = mgr w
  /\ core (localPause w) = core w /\ timers (localPause w) = timers w
  /\ waiters (localPause w) = waiters w /\ nextId (localPause w) = nextId w.
Proof. unfold localPause. destruct (negb _); repeat split. Qed.

(** X12. The pause callback of [schedulePause] seeks exactly once.  It
    waits for the player's 'pause' event for at most
    [WaitForPlayerEventTimeout]: if the event comes first the player is
    sought to the commanded position and the timeout, cancelled, does
    nothing any more; if the timeout comes first the player is sought and a
    later 'pause' event seeks no second time. *)
Theorem pause_seeks_exactly_once (pos : option Q) (w : World) (e1 e2 : Env) :
  reachable w ->
  filter (awaits EvPause) (waiters w) = [] ->
  wrapper_isPlaybackActive e1 = true ->
  let w1 := pauseCallback pos w in
  let seek := PmSeek (pm_syncPlayEnabled e1) pos in
  (let w2 := step PlayerPaused (with_env e1 w1) in
   playerCommands w2 = seek :: playerCommands w1
   /\ step (TimerFired (S (nextId w))) (with_env e2 w2) = with_env e2 w2)
  /\ ((inject_Z (now (env w)) + WaitForPlayerEventTimeout
       <= inject_Z (now e1))%Q ->
      let w2 := step (TimerFired (S (nextId w))) (with_env e1 w1) in
      playerCommands w2 = seek :: playerCommands w1
      /\ playerCommands (step PlayerPaused (with_env e2 w2))
         = playerCommands w2).
Proof.
  intros Hr Hnone Hact w1 seek.
  pose proof (reachable_timers_inv w Hr) as (I1 & _ & I3 & _).
  assert (Hlt : forall t, In t (timers w) -> (t_id t < S (nextId w))%nat).
  { intros t Ht. specialize (I1 t Ht). lia. }
  destruct (find_fresh_timer (timers w) (S (nextId w))
              (inject_Z (now (env w)) + WaitForPlayerEventTimeout)%Q
              (CbRejectWaiter (nextId w)) Hlt) as [FT1 FT2].
  destruct (find_fresh_waiter (waiters w)
              (mkWaiter (nextId w) EvPause (Some (S (nextId w)))
                 (KSeek pos) (KSeek pos)) I3) as [FW1 FW2].
  cbn [w_id] in FW1, FW2.
  destruct (localPause_proj
              (mkWorld (env w) (mgr w) (core w)
                 (timers w ++ [mkTimer (S (nextId w))
                       (inject_Z (now (env w)) + WaitForPlayerEventTimeout)%Q
                       (CbRejectWaiter (nextId w))])
                 (waiters w ++ [mkWaiter (nextId w) EvPause (Some (S (nextId w)))
                        (KSeek pos) (KSeek pos)])
                 (S (S (nextId w))) (trace w)))
    as (Pe & Pm & Pc & Pt & Pw & Pn).
  cbn [env mgr core timers waiters nextId] in Pe, Pm, Pc, Pt, Pw, Pn.
  rewrite <- (pauseCallback_eq pos w) in Pe, Pm, Pc, Pt, Pw, Pn.
  fold w1 in Pe, Pm, Pc, Pt, Pw, Pn.
  clearbody w1.
  split.
  - (* the event comes first *)
    assert (E2 : step PlayerPaused (with_env e1 w1) =
      localSeek pos
        (set_timers (timers w)
           (set_waiters (waiters w) (onPause (with_env e1 w1))))).
    { cbn [step]. unfold resolveWaiters, onPause. cbv zeta.
      cbn [emit with_env waiters]. rewrite Pw, !filter_app, Hnone.
      rewrite (filter_negb_all _ _ Hnone).
      cbn [filter awaits w_event EventName_eqb negb app fold_left w_timer
           w_then runContinuation].
      unfold clearTimeout. cbn [set_waiters timers emit with_env].
      rewrite Pt, FT2, app_nil_r. reflexivity. }
    cbv zeta. rewrite E2. split.
    + unfold localSeek, isPlaybackActive, playerCommands, seek.
      cbn [set_timers set_waiters onPause emit with_env env trace].
      rewrite Hact. cbn [negb emit trace filter isPlayerCommand]. reflexivity.
    + cbn [step]. unfold fireTimer.
      assert (Ht2 : timers (with_env e2
                 (localSeek pos
                    (set_timers (timers w)
                       (set_waiters (waiters w) (onPause (with_env e1 w1))))))
               = timers w).
      { unfold localSeek. destruct (negb _); reflexivity. }
      rewrite Ht2, (find_stale_timer (timers w) (S (nextId w)) Hlt).
      reflexivity.
  - (* the timeout comes first *)
    intros Hdue. cbv zeta.
    assert (E2 : step (TimerFired (S (nextId w))) (with_env e1 w1) =
      localSeek pos
        (set_waiters (waiters w) (set_timers (timers w) (with_env e1 w1)))).
    { cbn [step].
      rewrite (fireTimer_fresh (with_env e1 w1) (timers w) (S (nextId w))
                 (inject_Z (now (env w)) + WaitForPlayerEventTimeout)%Q
                 (CbRejectWaiter (nextId w))).
      - unfold runCallback, rejectWaiter. cbn [set_timers with_env waiters].
        rewrite Pw, FW1. cbn [set_waiters waiters w_catch runContinuation].
        rewrite FW2. reflexivity.
      - cbn [with_env timers]. exact Pt.
      - exact Hlt.
      - apply Qle_bool_iff. cbn [with_env env]. exact Hdue. }
    rewrite E2. split.
    + unfold localSeek, isPlaybackActive, playerCommands, seek.
      cbn [set_timers set_waiters emit with_env env trace].
      rewrite Hact. cbn [negb emit trace filter isPlayerCommand]. reflexivity.
    + cbn [step]. unfold resolveWaiters, onPause. cbv zeta.
      assert (Hw2 : waiters (emit (Trigger "pause") (with_env e2
                 (localSeek pos
                    (set_waiters (waiters w)
                       (set_timers (timers w) (with_env e1 w1))))))
               = waiters w).
      { unfold localSeek. destruct (negb _); reflexivity. }
      rewrite Hw2, Hnone. cbn [fold_left]. reflexivity.
Qed.

Lemma pause_seeks_exactly_once_witness :
  let pos := Some (70000000 : Q) in
  let w := readySession in
  let e1 := sampleEnv 3600 true false in
  let e2 := sampleEnv 4000 true false in
  let w1 := pauseCallback pos w in
  let seek := PmSeek (pm_syncPlayEnabled e1) pos in
  (let w2 := step PlayerPaused (with_env e1 w1) in
   playerCommands w2 = seek :: playerCommands w1
   /\ step (TimerFired (S (nextId w))) (with_env e2 w2) = with_env e2 w2)
  /\ (let w2 := step (TimerFired (S (nextId w))) (with_env e1 w1) in
      playerCommands w2 = seek :: playerCommands w1
      /\ playerCommands (step PlayerPaused (with_env e2 w2))
         = playerCommands w2).
Proof.
  intros pos w e1 e2.
  destruct (pause_seeks_exactly_once pos w e1 e2) as [A B].
  - unfold w, readySession. apply reachable_run, reach_init.
  - reflexivity.
  - reflexivity.
  - split; [exact A|]. apply B. vm_compute. discriminate.
Defined.

(* ------------------------------------------------------------------ *)
(** ** An update overtaken by a newer one *)

Section QueueOvertaken.
Context {QM : Type} `{QueueManager QM}.

Hypothesis update_time_recorded :
  forall u serverId m,
    getLastUpdateTime (onPlayQueueUpdate u serverId m) = LastUpdate u.

(** X13. A play-queue update that a newer update overtakes before the
    queue manager has finished with it is not enacted: when its promise
    is resolved the handler only warns that the update is old, whatever
    the player and however the update was caused, and the newer update is
    still to be enacted. *)
Theorem overtaken_update_not_enacted
    (s1 s2 : string) (u1 u2 : PlayQueueUpdate) (q : QueueCore QM)
    (remote following hasPlayer : bool) :
  unresolved q = [] ->
  getLastUpdateTime (playQueueManager q) < LastUpdate u1 ->
  LastUpdate u1 < LastUpdate u2 ->
  let q' := queueRun [PlayQueueArrives s1 u1; PlayQueueArrives s2 u2;
                      PromiseResolves remote following hasPlayer] q in
  queueLog q' =
    queueLog q ++ [QUpdating u1; QUpdating u2; QTryingToApplyOldUpdate u1]
  /\ unresolved q' = [u2]
  /\ playQueueManager q' =
     onPlayQueueUpdate u2 s2 (onPlayQueueUpdate u1 s1 (playQueueManager q)).
Proof.
  intros Hu H1 H2 q'. subst q'.
  cbn [queueRun fold_left queueStep].
  assert (E1 : updatePlayQueue s1 u1 q =
               mkQueueCore (onPlayQueueUpdate u1 s1 (playQueueManager q))
                 [u1] (queueLog q ++ [QUpdating u1])).
  { unfold updatePlayQueue. apply Z.leb_gt in H1. rewrite H1, Hu. reflexivity. }
  rewrite E1.
  assert (E2 : updatePlayQueue s2 u2
                 (mkQueueCore (onPlayQueueUpdate u1 s1 (playQueueManager q))
                    [u1] (queueLog q ++ [QUpdating u1])) =
               mkQueueCore
                 (onPlayQueueUpdate u2 s2
                    (onPlayQueueUpdate u1 s1 (playQueueManager q)))
                 [u1; u2] ((queueLog q ++ [QUpdating u1]) ++ [QUpdating u2])).
  { unfold updatePlayQueue. cbn [playQueueManager unresolved queueLog].
    rewrite update_time_recorded.
    apply Z.leb_gt in H2. rewrite H2. reflexivity. }
  rewrite E2. unfold resolveNext, playQueueUpdated.
  cbn [playQueueManager unresolved queueLog].
  rewrite update_time_recorded.
  apply Z.ltb_lt in H2. rewrite H2.
  cbn [playQueueManager unresolved queueLog].
  rewrite <- !app_assoc. repeat split.
Qed.

End QueueOvertaken.

Lemma overtaken_update_not_enacted_witness :
  let q := mkQueueCore (mkQueueModel None None) [] [] in
  let q' := queueRun [PlayQueueArrives "server" (sampleUpdate 100);
                      PlayQueueArrives "server" (sampleUpdate 200);
                      PromiseResolves false true true] q in
  queueLog q' =
    queueLog q ++ [QUpdating (sampleUpdate 100); QUpdating (sampleUpdate 200);
                   QTryingToApplyOldUpdate (sampleUpdate 100)]
  /\ unresolved q' = [sampleUpdate 200]
  /\ playQueueManager q' =
     onPlayQueueUpdate (sampleUpdate 200) "server"
       (onPlayQueueUpdate (sampleUpdate 100) "server" (playQueueManager q)).
Proof.
  assert (Htime : forall u serverId (m : QueueModel),
             getLastUpdateTime (onPlayQueueUpdate u serverId m) = LastUpdate u)
    by reflexivity.
  apply (overtaken_update_not_enacted Htime "server" "server"
           (sampleUpdate 100) (sampleUpdate 200)
           (mkQueueCore (mkQueueModel None None) [] []) false true true).
  - reflexivity.
  - vm_compute. reflexivity.
  - vm_compute. reflexivity.
Defined.

(* ------------------------------------------------------------------ *)
(** ** User ids *)

Local Open Scope string_scope.

Lemma append_empty_r (s : string) : s ++ EmptyString = s.
Proof. induction s as [|c s IH]; cbn; [reflexivity | rewrite IH; reflexivity]. Qed.

Lemma length_substring_le (n m : nat) (s : string) :
  (String.length (substring n m s) <= m)%nat.
Proof.
  revert n m. induction s as [|c s IH]; intros n m.
  - destruct n, m; cbn; lia.
  - destruct n as [|n]; [destruct m as [|m]|]; cbn.
    + lia.
    + specialize (IH 0%nat m). lia.
    + apply IH.
Qed.

Lemma stringToGuid_unfold (s : string) :
  stringToGuid s =
  match takeClass 32 s with
  | Some (run, rest) => dashed run ++ rest
  | None =>
      match s with
      | EmptyString => EmptyString
      | String c s' => String c (stringToGuid s')
      end
  end.
Proof. destruct s; reflexivity. Qed.

Lemma takeClass_all (s : string) :
  forallb inGuidClass (list_ascii_of_string s) = true ->
  takeClass (String.length s) s = Some (s, EmptyString).
Proof.
  induction s as [|c s IH]; cbn [list_ascii_of_string forallb String.length takeClass];
    [reflexivity|].
  intros H. apply andb_prop in H. destruct H as [Hc Hs].
  rewrite Hc, (IH Hs). reflexivity.
Qed.

Lemma takeClass_short (n : nat) (s : string) :
  (String.length s < n)%nat -> takeClass n s = None.
Proof.
  revert n. induction s as [|c s IH]; intros n H.
  - destruct n; [cbn in H; lia | reflexivity].
  - destruct n as [|n]; [cbn in H; lia|]. cbn [takeClass].
    destruct (inGuidClass c); [|reflexivity].
    rewrite IH; [reflexivity | cbn in H; lia].
Qed.

Lemma takeClass_dash (a rest : string) (n : nat) :
  (String.length a < n)%nat -> takeClass n (a ++ String dash rest) = None.
Proof.
  revert n. induction a as [|c a IH]; intros n H.
  - destruct n; [cbn in H; lia | reflexivity].
  - destruct n as [|n]; [cbn in H; lia|]. cbn [append takeClass].
    destruct (inGuidClass c); [|reflexivity].
    rewrite IH; [reflexivity | cbn in H; lia].
Qed.

Lemma stringToGuid_short (s : string) :
  (String.length s < 32)%nat -> stringToGuid s = s.
Proof.
  induction s as [|c s IH]; intros H; [reflexivity|].
  rewrite stringToGuid_unfold, (takeClass_short 32 _ H).
  rewrite IH; [reflexivity | cbn in H; lia].
Qed.

Lemma stringToGuid_dash (a rest : string) :
  (String.length a < 32)%nat ->
  stringToGuid (a ++ String dash rest) = a ++ String dash (stringToGuid rest).
Proof.
  induction a as [|c a IH]; intros H.
  - cbn [append]. rewrite stringToGuid_unfold.
    change (takeClass 32 (String dash rest)) with (@None (string * string)).
    reflexivity.
  - rewrite stringToGuid_unfold, (takeClass_dash _ _ 32 H).
    cbn [append]. rewrite IH; [reflexivity | cbn in H; lia].
Qed.

Lemma stringToGuid_dashed (s : string) : stringToGuid (dashed s) = dashed s.
Proof.
  unfold dashed.
  pose proof (length_substring_le 0 8 s).
  pose proof (length_substring_le 8 4 s).
  pose proof (length_substring_le 12 4 s).
  pose proof (length_substring_le 16 4 s).
  pose proof (length_substring_le 20 12 s).
  change (?a ++ "-" ++ ?b) with (a ++ String dash b).
  repeat (rewrite stringToGuid_dash by lia;
          change ("-" ++ ?b) with (String dash b)).
  rewrite stringToGuid_short by lia. reflexivity.
Qed.

(** X14. [stringToGuid] brings both forms of a user id to the same key: an
    id of 32 characters of the class [0-z] (hexadecimal digits among
    them) gets its dashes, 8-4-4-4-12; an id that already has them is
    returned as it is, and so is any string shorter than 32 characters.
    Hence the access checks answer the same for the two forms. *)
Theorem stringToGuid_accepts_both_forms (s : string) (w : World) :
  String.length s = 32%nat ->
  forallb inGuidClass (list_ascii_of_string s) = true ->
  stringToGuid s = dashed s
  /\ stringToGuid (dashed s) = dashed s
  /\ (forall t, (String.length t < 32)%nat -> stringToGuid t = t)
  /\ hasPlaybackAccess (dashed s) w = hasPlaybackAccess s w
  /\ hasPlaylistAccess (dashed s) w = hasPlaylistAccess s w
  /\ isAdministrator (dashed s) w = isAdministrator s w.
Proof.
  intros Hlen Hall.
  assert (E : stringToGuid s = dashed s).
  { rewrite stringToGuid_unfold. rewrite <- Hlen, (takeClass_all s Hall).
    apply append_empty_r. }
  split; [exact E|]. split; [apply stringToGuid_dashed|].
  split; [exact stringToGuid_short|].
  unfold hasPlaybackAccess, hasPlaylistAccess, isAdministrator.
  rewrite stringToGuid_dashed, E. repeat split.
Qed.

Lemma stringToGuid_accepts_both_forms_witness :
  stringToGuid sampleUserId = dashed sampleUserId
  /\ stringToGuid (dashed sampleUserId) = dashed sampleUserId
  /\ (forall t, (String.length t < 32)%nat -> stringToGuid t = t)
  /\ hasPlaybackAccess (dashed sampleUserId) readySession
     = hasPlaybackAccess sampleUserId readySession
  /\ hasPlaylistAccess (dashed sampleUserId) readySession
     = hasPlaylistAccess sampleUserId readySession
  /\ isAdministrator (dashed sampleUserId) readySession
     = isAdministrator sampleUserId readySession.
Proof.
  apply (stringToGuid_accepts_both_forms sampleUserId readySession).
  - reflexivity.
  - reflexivity.
Defined.

Local Close Scope string_scope.

(* ------------------------------------------------------------------ *)
(** ** Play/pause while in a group *)

Lemma parseCommand_CommandName c : CommandName (parseCommand c) = CommandName c.
Proof. unfold parseCommand. destruct (wire c); reflexivity. Qed.

(** What a command received by a ready session leaves in the manager,
    whether it is applied or dropped for want of a player or of the right
    playlist item. *)
Lemma processCommand_ready_manager (cmd : Command) (w : World) (t : Z) :
  syncPlayEnabledAt (mgr w) = Some t ->
  t <= EmittedAt cmd ->
  syncPlayReady (mgr w) = true ->
  let w' := processCommand (Some cmd) w in
  lastPlaybackCommand (mgr w') = Some (parseCommand cmd)
  /\ groupInfo (mgr w') = groupInfo (mgr w)
  /\ env w' = env w.
Proof.
  intros He Hle Hr w'. subst w'.
  destruct (processCommand_cases cmd w)
    as [H | [(t' & H & Hlt) | [(t' & H & Hle' & Hr') | [(t' & H & Hle' & Hr' & Ha)
       | [(t' & H & Hle' & Hr' & Ha & Hne) | (t' & H & Hle' & Hr' & Ha & Hi)]]]]];
    try congruence.
  - exfalso. rewrite He in H. injection H as <-. lia.
  - rewrite (processCommand_no_player _ _ _ H Hle' Hr' Ha). repeat split.
  - rewrite (processCommand_mismatch_eq _ _ _ H Hle' Hr' Ha Hne). repeat split.
  - rewrite (processCommand_applied _ _ _ H Hle' Hr' Ha Hi).
    destruct (applyCommand_session_frame (parseCommand cmd)
                (emit (Call_applyCommand (parseCommand cmd))
                   (emit (Console LLog "SyncPlay will")
                      (with_mgr (m_lastPlaybackCommand (Some (parseCommand cmd)))
                         w))))
      as (Henv & (sm & Hm) & _).
    rewrite Hm, Henv. repeat split.
Qed.

(** The requests have no effect on what the checks read. *)
Lemma pauseRequest_denied (depth : nat) (uid : string) (w : World) :
  hasPlaybackAccess uid w = false ->
  pauseRequest (S depth) uid w = (Returned, [], w).
Proof. intros H. cbn [pauseRequest]. rewrite H. reflexivity. Qed.

Lemma unpauseRequest_denied (depth : nat) (uid : string) (w : World) :
  hasPlaybackAccess uid w = false ->
  unpauseRequest (S depth) uid w = (Returned, [], w).
Proof. intros H. cbn [unpauseRequest]. rewrite H. reflexivity. Qed.

Lemma localPause_reads (uid : string) (w : World) :
  hasPlaybackAccess uid (localPause w) = hasPlaybackAccess uid w
  /\ isRemote (localPause w) = isRemote w
  /\ reenters (localPause w) = reenters w.
Proof.
  unfold localPause. destruct (negb (isPlaybackActive w)); repeat split.
Qed.

(** With access, an active local player and the flag unset, a pause
    request never returns: however deep the calls may nest, each level has
    sent its request and called the next. *)
Lemma pauseRequest_nests (depth : nat) (uid : string) (w : World) :
  hasPlaybackAccess uid w = true ->
  isRemote w = false ->
  reenters w = true ->
  fst (pauseRequest depth uid w)
  = (StillNesting, repeat RequestSyncPlayPause depth).
Proof.
  revert w. induction depth as [|depth IH]; intros w Ha Hrem Hre.
  - reflexivity.
  - cbn [pauseRequest]. rewrite Ha, Hrem, Hre. cbn [negb].
    destruct (localPause_reads uid w) as (Ha' & Hrem' & Hre').
    specialize (IH (localPause w)).
    rewrite Ha', Hrem', Hre' in IH. specialize (IH Ha Hrem Hre).
    destruct (pauseRequest depth uid (localPause w)) as [[o more] w'].
    cbn [fst] in IH. injection IH as -> ->. reflexivity.
Qed.

(** X15. Play/pause follows the group, not the player.  Once a ready
    session has received a playback command, the overridden [playPause]
    takes the group to be playing exactly if that command was an Unpause,
    also when the command itself was dropped for want of an active player
    or of the right playlist item.  For a user without playback access it
    does nothing.  With access and a local player it sends one Unpause
    request if the group is not playing.  If the group is playing it sends
    a Pause request and pauses locally: that returns when no player is
    active or the flag is set on the playback manager; otherwise
    [localPause] calls the overridden [pause] again and the call never
    returns, [depth] nested calls having sent [depth] Pause requests. *)
Theorem playPause_follows_group_state (uid : string) (cmd : Command)
    (w : World) (t : Z) (depth : nat) :
  syncPlayEnabledAt (mgr w) = Some t ->
  t <= EmittedAt cmd ->
  syncPlayReady (mgr w) = true ->
  let w' := processCommand (Some cmd) w in
  let unpause := String.eqb (CommandName cmd) "Unpause" in
  isPlaying w' = unpause
  /\ (hasPlaybackAccess uid w = false ->
      playPauseRequest (S depth) uid w' = (Returned, [], w'))
  /\ (hasPlaybackAccess uid w = true -> isRemote w = false ->
      (unpause = false ->
       playPauseRequest (S depth) uid w'
       = (Returned, [RequestSyncPlayUnpause], w'))
      /\ (unpause = true -> reenters w = false ->
          playPauseRequest (S depth) uid w'
          = (Returned, [RequestSyncPlayPause], localPause w'))
      /\ (unpause = true -> reenters w = true ->
          fst (playPauseRequest depth uid w')
          = (StillNesting, repeat RequestSyncPlayPause depth))).
Proof.
  intros He Hle Hr w' unpause.
  destruct (processCommand_ready_manager cmd w t He Hle Hr) as (Hl & Hg & Henv).
  fold w' in Hl, Hg, Henv. clearbody w'.
  assert (Hacc : hasPlaybackAccess uid w' = hasPlaybackAccess uid w).
  { unfold hasPlaybackAccess, hasUserPlaybackAccess. rewrite Hg. reflexivity. }
  assert (Hrem : isRemote w' = isRemote w).
  { unfold isRemote. rewrite Henv. reflexivity. }
  assert (Hre : reenters w' = reenters w).
  { unfold reenters, isPlaybackActive. rewrite Henv. reflexivity. }
  assert (Hp : isPlaying w' = unpause).
  { unfold isPlaying. rewrite Hl, parseCommand_CommandName. reflexivity. }
  split; [exact Hp|]. split.
  - intros Ha. rewrite <- Hacc in Ha. unfold playPauseRequest.
    destruct (isPlaying w');
      [apply pauseRequest_denied | apply unpauseRequest_denied]; exact Ha.
  - intros Ha Hloc. rewrite <- Hacc in Ha. rewrite <- Hrem in Hloc.
    unfold playPauseRequest. rewrite Hp. split; [|split].
    + intros ->. cbn [unpauseRequest]. rewrite Ha, Hloc. reflexivity.
    + intros -> Hno. rewrite <- Hre in Hno.
      cbn [pauseRequest]. rewrite Ha, Hloc, Hno. reflexivity.
    + intros -> Hyes. rewrite <- Hre in Hyes.
      apply pauseRequest_nests; assumption.
Qed.

Lemma playPause_follows_group_state_witness :
  let cmd := sampleCommand "Unpause" 5000 2000 "B" in
  let w' := processCommand (Some cmd) memberSession in
  isPlaying w' = true
  /\ fst (playPauseRequest 3 sampleUserId w')
     = (StillNesting,
        [RequestSyncPlayPause; RequestSyncPlayPause; RequestSyncPlayPause]).
Proof.
  intros cmd w'.
  destruct (playPause_follows_group_state sampleUserId cmd memberSession 1000
              3%nat)
    as (A & _ & B).
  - reflexivity.
  - vm_compute. discriminate.
  - reflexivity.
  - split; [exact A|].
    destruct B as (_ & _ & B); [reflexivity | reflexivity |].
    apply B; reflexivity.
Defined.

(* ------------------------------------------------------------------ *)
(** ** Becoming ready *)

Lemma timeSyncWaiters_runContinuation k w0 x :
  keeps timeSyncWaiters w0 x -> keeps timeSyncWaiters w0 (runContinuation k x).
Proof. intros H. keeps_walk. Qed.

Lemma filter_filter_other (ev : EventName) (ws : list Waiter) :
  EventName_eqb ev EvTimeSyncServerUpdate = false ->
  filter (awaits EvTimeSyncServerUpdate)
    (filter (fun x => negb (awaits ev x)) ws)
  = filter (awaits EvTimeSyncServerUpdate) ws.
Proof.
  intros Hev. induction ws as [|a ws IH]; [reflexivity|].
  cbn [filter]. destruct (awaits ev a) eqn:Ea; cbn [negb filter].
  - assert (Ht : awaits EvTimeSyncServerUpdate a = false).
    { unfold awaits in *. destruct (w_event a), ev; try discriminate;
        reflexivity. }
    rewrite Ht. exact IH.
  - rewrite IH. reflexivity.
Qed.

(** The awaited events other than the time-sync update leave the
    promises waiting for it alone. *)
Lemma timeSyncWaiters_resolveWaiters ev w :
  EventName_eqb ev EvTimeSyncServerUpdate = false ->
  timeSyncWaiters (resolveWaiters ev w) = timeSyncWaiters w.
Proof.
  intros Hev. change (keeps timeSyncWaiters w (resolveWaiters ev w)).
  unfold resolveWaiters. cbv zeta.
  apply keeps_fold; [intros; apply timeSyncWaiters_runContinuation; assumption|].
  apply keeps_fold; [intros; keeps_walk|].
  unfold keeps, timeSyncWaiters. cbn [set_waiters waiters].
  apply filter_filter_other, Hev.
Qed.

Lemma filter_filter_id (wid : nat) (ws : list Waiter) :
  (forall x, In x ws -> w_id x = wid -> w_timer x <> None) ->
  Forall isReadyHandler (filter (awaits EvTimeSyncServerUpdate) ws) ->
  filter (awaits EvTimeSyncServerUpdate)
    (filter (fun y => negb (Nat.eqb (w_id y) wid)) ws)
  = filter (awaits EvTimeSyncServerUpdate) ws.
Proof.
  induction ws as [|a ws IH]; intros Hn Hr; [reflexivity|].
  cbn [filter] in *.
  destruct (Nat.eqb (w_id a) wid) eqn:Ea; cbn [negb filter].
  - destruct (awaits EvTimeSyncServerUpdate a) eqn:Et.
    + exfalso. inversion Hr as [|? ? [Hnone _] _]; subst.
      apply (Hn a (or_introl eq_refl)); [apply Nat.eqb_eq, Ea | exact Hnone].
    + apply IH; [intros x Hx; apply Hn; right; exact Hx | exact Hr].
  - destruct (awaits EvTimeSyncServerUpdate a) eqn:Et.
    + f_equal. apply IH; [intros x Hx; apply Hn; right; exact Hx|].
      inversion Hr; assumption.
    + apply IH; [intros x Hx; apply Hn; right; exact Hx | exact Hr].
Qed.

(** A timer that fires leaves them alone too: the reject timer of an
    awaited event names a promise that has a timeout. *)
Lemma timeSyncWaiters_fireTimer id w :
  timers_inv w -> Forall isReadyHandler (timeSyncWaiters w) ->
  timeSyncWaiters (fireTimer id w) = timeSyncWaiters w.
Proof.
  intros Hi Hr. change (keeps timeSyncWaiters w (fireTimer id w)).
  unfold fireTimer. destruct (find _ (timers w)) as [t|] eqn:F;
    [|apply keeps_refl].
  destruct (Qle_bool _ _); [|apply keeps_refl].
  apply find_some in F. destruct F as [Hin _].
  destruct (t_callback t) eqn:Hcb; cbv beta iota delta [runCallback];
    try keeps_walk.
  unfold rejectWaiter. cbn [set_timers waiters].
  destruct (find _ (waiters w)); [|keeps_walk].
  apply timeSyncWaiters_runContinuation.
  unfold keeps, timeSyncWaiters. cbn [set_waiters set_timers waiters].
  apply filter_filter_id; [|exact Hr].
  destruct Hi as (_ & _ & _ & _ & _ & _ & _ & _ & _ & _ & I11).
  intros x Hx Hid. exact (I11 t waiter x Hin Hcb Hx Hid).
Qed.

Lemma ready_runContinuation k w :
  syncPlayReady (mgr w) = true \/ k = KReadyFlush ->
  syncPlayReady (mgr (runContinuation k w)) = true.
Proof.
  intros H. destruct k.
  - unfold runContinuation. cbn [with_mgr mgr m_queuedCommand syncPlayReady].
    rewrite processCommand_ready. reflexivity.
  - destruct H as [H|H]; [|discriminate].
    assert (F : core_frame w (runContinuation (KSeek positionTicks) w))
      by (unfold runContinuation; frame).
    rewrite (session_frame_ready w _ (proj1 F)). exact H.
  - destruct H as [H|H]; [|discriminate].
    assert (F : core_frame w (runContinuation KPauseAndReport w))
      by (unfold runContinuation; frame).
    rewrite (session_frame_ready w _ (proj1 F)). exact H.
  - destruct H as [H|H]; [|discriminate].
    assert (F : core_frame w (runContinuation (KReseek positionTicks) w))
      by (unfold runContinuation; frame).
    rewrite (session_frame_ready w _ (proj1 F)). exact H.
  - destruct H as [H|H]; [exact H | discriminate].
Qed.

Lemma ready_fold_runContinuation (hit : list Waiter) w :
  syncPlayReady (mgr w) = true ->
  syncPlayReady
    (mgr (fold_left (fun w x => runContinuation (w_then x) w) hit w)) = true.
Proof.
  revert w. induction hit as [|x hit IH]; intros w H; cbn; [exact H|].
  apply IH, ready_runContinuation. left. exact H.
Qed.

Lemma mgr_fold_clearTimeout (hit : list Waiter) w :
  mgr (fold_left (fun w x => clearTimeout (w_timer x) w) hit w) = mgr w.
Proof.
  revert w. induction hit as [|x hit IH]; intros w; cbn; [reflexivity|].
  rewrite IH. apply mgr_clearTimeout.
Qed.

Lemma ready_resolveWaiters ev w :
  syncPlayReady (mgr w) = true ->
  syncPlayReady (mgr (resolveWaiters ev w)) = true.
Proof.
  intros H. unfold resolveWaiters. cbv zeta.
  apply ready_fold_runContinuation. rewrite mgr_fold_clearTimeout. exact H.
Qed.

(** The time-sync update runs the handlers waiting for it. *)
Lemma ready_after_time_sync w :
  Forall isReadyHandler (timeSyncWaiters w) ->
  timeSyncWaiters w <> [] ->
  syncPlayReady (mgr (resolveWaiters EvTimeSyncServerUpdate w)) = true.
Proof.
  intros Hr Hne. unfold resolveWaiters. cbv zeta.
  fold (timeSyncWaiters w).
  destruct (timeSyncWaiters w) as [|x hit]; [congruence|].
  cbn [fold_left]. apply ready_fold_runContinuation, ready_runContinuation.
  right. inversion Hr as [|? ? [_ Hk] _]. exact Hk.
Qed.

Lemma ready_step ev w :
  isGroupMembership ev = false ->
  syncPlayReady (mgr w) = true -> syncPlayReady (mgr (step ev w)) = true.
Proof.
  intros Hg H.
  destruct (core_frame_playerReports w)
    as (Htu & Hpl & Hwa & Hun & Hpa & Hps & Hpc).
  destruct ev; try discriminate; cbn [step].
  - rewrite processCommand_ready. exact H.
  - exact H.
  - apply ready_resolveWaiters, H.
  - unfold fireTimer. destruct (find _ (timers w)) as [t|]; [|exact H].
    destruct (Qle_bool _ _); [|exact H].
    destruct (t_callback t);
      try (match goal with
           | |- syncPlayReady (mgr ?b) = true =>
               let F := fresh in
               assert (F : core_frame
                             (set_timers
                                (filter (fun u => negb (Nat.eqb (t_id u) id))
                                   (timers w)) w) b)
                 by (unfold runCallback; frame);
               rewrite (session_frame_ready _ _ (proj1 F)); exact H
           end).
    unfold runCallback, rejectWaiter. cbn [set_timers waiters].
    destruct (find _ (waiters w)); [|exact H].
    apply ready_runContinuation. left. exact H.
  - rewrite (session_frame_ready _ _ (proj1 (Hpc player))). exact H.
  - apply ready_resolveWaiters.
    rewrite (session_frame_ready _ _ (proj1 Hun)). exact H.
  - apply ready_resolveWaiters.
    rewrite (session_frame_ready _ _ (proj1 Hpa)). exact H.
  - apply ready_resolveWaiters.
    rewrite (session_frame_ready _ _ (proj1 Hpl)). exact H.
  - rewrite (session_frame_ready _ _ (proj1 Hwa)). exact H.
  - rewrite (session_frame_ready _ _ (proj1 Htu)). exact H.
  - apply ready_resolveWaiters.
    rewrite (session_frame_ready _ _ (proj1 Hps)). exact H.
  - rewrite (session_frame_ready _ _ (session_frame_onPlaybackStop w)). exact H.
  - exact H.
  - exact H.
Qed.

Lemma timeSyncWaiters_step ev w :
  timers_inv w -> Forall isReadyHandler (timeSyncWaiters w) ->
  match ev with
  | InGroupJoined _ | TimeSyncServerUpdate => False
  | _ => True
  end ->
  timeSyncWaiters (step ev w) = timeSyncWaiters w.
Proof.
  intros Hi Hr Hev.
  destruct ev as [| | | | | |[[[|] rate]|]| | | | | | | | |];
    try (destruct Hev); cbn [step].
  - change (keeps timeSyncWaiters w (processCommand cmd w)). keeps_walk.
  - change (keeps timeSyncWaiters w (disableSyncPlay w)). keeps_walk.
  - reflexivity.
  - apply timeSyncWaiters_fireTimer; assumption.
  - change (keeps timeSyncWaiters w (onPlayerChange (Some (true, rate)) w)).
    keeps_walk.
  - change (keeps timeSyncWaiters w (onPlayerChange (Some (false, rate)) w)).
    keeps_walk.
  - change (keeps timeSyncWaiters w (onPlayerChange None w)). keeps_walk.
  - rewrite timeSyncWaiters_resolveWaiters by reflexivity. reflexivity.
  - rewrite timeSyncWaiters_resolveWaiters by reflexivity. reflexivity.
  - rewrite timeSyncWaiters_resolveWaiters by reflexivity.
    change (keeps timeSyncWaiters w (onPlaying w)). keeps_walk.
  - change (keeps timeSyncWaiters w (onWaiting w)). keeps_walk.
  - change (keeps timeSyncWaiters w (onTimeUpdate w)). keeps_walk.
  - rewrite timeSyncWaiters_resolveWaiters by reflexivity. reflexivity.
  - change (keeps timeSyncWaiters w (onPlaybackStop w)). keeps_walk.
  - reflexivity.
  - reflexivity.
Qed.

Lemma timeSyncWaiters_time_sync w :
  timeSyncWaiters (resolveWaiters EvTimeSyncServerUpdate w) = [].
Proof.
  assert (H : keeps timeSyncWaiters
                (set_waiters
                   (filter (fun x => negb (awaits EvTimeSyncServerUpdate x))
                      (waiters w)) w)
                (resolveWaiters EvTimeSyncServerUpdate w)).
  { unfold resolveWaiters. cbv zeta.
    apply keeps_fold; [intros; apply timeSyncWaiters_runContinuation; assumption|].
    apply keeps_fold; [intros; keeps_walk|]. apply keeps_refl. }
  unfold keeps in H. rewrite H. unfold timeSyncWaiters.
  cbn [set_waiters waiters]. clear H.
  induction (waiters w) as [|a ws IH]; [reflexivity|].
  cbn [filter]. destruct (awaits EvTimeSyncServerUpdate a) eqn:Ea;
    cbn [negb filter]; rewrite ?Ea; exact IH.
Qed.

Lemma reachable_ready_handler_waits w : reachable w -> ready_handler_waits w.
Proof.
  induction 1 as [e p | w ev Hr [IH1 IH2]].
  - split; [constructor | discriminate].
  - pose proof (reachable_timers_inv w Hr) as Hi.
    destruct ev as [cmd|g| | | | | | | | | | | | | |] eqn:Eev;
      try (rewrite <- Eev;
           assert (Hk : timeSyncWaiters (step ev w) = timeSyncWaiters w)
             by (apply timeSyncWaiters_step; [assumption | assumption
                                              | rewrite Eev; exact I]);
           split; [rewrite Hk; exact IH1|];
           first
             [ (* leaving the group *)
               assert (Hoff : isSyncPlayEnabled (step ev w) = false)
                 by (rewrite Eev; cbn [step]; unfold isSyncPlayEnabled;
                     rewrite (proj1 (disableSyncPlay_eq w)); reflexivity);
               intros He; rewrite Hoff in He; discriminate
             | (* the session flags are as before *)
               assert (Hg : isGroupMembership ev = false)
                 by (rewrite Eev; reflexivity);
               pose proof (sessionFlags_step ev w Hg) as Hf;
               unfold sessionFlags in Hf; injection Hf as Ha _ _;
               intros He Hnil; apply ready_step; [exact Hg|];
               apply IH2; [unfold isSyncPlayEnabled in *; rewrite <- Ha; exact He
                          | rewrite <- Hk; exact Hnil] ]).
    + (* joining *)
      cbn [step]. unfold ready_handler_waits, timeSyncWaiters.
      rewrite waiters_enableSyncPlay, filter_app. cbn [filter awaits w_event
        EventName_eqb]. split.
      * apply Forall_app. split; [exact IH1|].
        constructor; [split; reflexivity | constructor].
      * intros _ Hnil. apply app_eq_nil in Hnil. destruct Hnil; discriminate.
    + (* the time-sync update *)
      cbn [step]. split; [rewrite timeSyncWaiters_time_sync; constructor|].
      intros He _.
      assert (Hen : isSyncPlayEnabled w = true).
      { pose proof (sessionFlags_step TimeSyncServerUpdate w eq_refl) as Hf.
        unfold sessionFlags in Hf. injection Hf as Ha _ _.
        unfold isSyncPlayEnabled in *. cbn [step] in Ha. rewrite <- Ha.
        exact He. }
      destruct (timeSyncWaiters w) as [|x l] eqn:Et.
      * apply ready_resolveWaiters, IH2; [exact Hen | reflexivity].
      * apply ready_after_time_sync; rewrite Et; [exact IH1 | discriminate].
Qed.


